(** * Reference-counted smart pointers: SharedPtr, WeakPtr and their control blocks

    A shallow embedding of [shared-ptr/shared.h] and of the WeakPtr header
    and, apart from them, of UniquePtr and its CompressedPair.

    - Handles are C++ objects with identity (self-assignment and Swap
      alias [this] and [other]), so they live in a store indexed by object
      names; a temporary is an object under a fresh name.
    - Control blocks live in a heap indexed by allocation identities,
      which are never reused; [new] fails when the allocator is exhausted.
    - The counters are C++ [int]: arithmetic that leaves the range of int
      is undefined behaviour, as is access to a deleted block. Undefined
      behaviour and ill-formed programs (a handle named that does not
      exist) are the [Fault] outcome, C++ exceptions the [Throw] outcome.
    - The managed object is opaque. Its construction, its destruction in
      place and its deletion are events of a trace, next to the
      allocation and deletion of control blocks. The operations come
      twice: first for an object whose constructor and destructor run no
      operation on a handle and do not throw, then ([IfNoShared_of],
      [new_holder_of], [exec_of]) with the object's own constructor and
      destructor in them; the two agree on the first kind of object.
    - The template parameters are erased: the converting constructors and
      assignments have the bodies of the plain ones. *)

From Stdlib Require Import ZArith Lia.
From stdpp Require Import gmap list fin_maps.

Local Open Scope Z_scope.

(** ** Data model *)

(** Control-block allocations and handle objects are both identified by a
    [positive]. *)

(** A [T*] value: null, the address of a separately allocated object, or
    the address of the [storage_] member of the holder block [b]. *)
Inductive rawptr :=
| nullptr
| ObjPtr (a : positive)
| StoragePtr (b : positive).

Global Instance rawptr_eq_dec : EqDecision rawptr.
Proof. solve_decision. Defined.

(** The two classes derived from [ControlBlockBase]. *)
Inductive BlockVariant :=
| ControlBlockPtr (ptr_ : rawptr)
| ControlBlockHolder.

(** [struct ControlBlockBase { int shared_refs = 0, weak_refs = 0; ... }]
    together with the data of the derived class. *)
Record ControlBlock := {
  shared_refs : Z;
  weak_refs : Z;
  variant : BlockVariant;
}.

Definition set_shared_refs (n : Z) (cb : ControlBlock) : ControlBlock :=
  {| shared_refs := n; weak_refs := weak_refs cb; variant := variant cb |}.

Definition set_weak_refs (n : Z) (cb : ControlBlock) : ControlBlock :=
  {| shared_refs := shared_refs cb; weak_refs := n; variant := variant cb |}.

Definition set_variant (v : BlockVariant) (cb : ControlBlock) : ControlBlock :=
  {| shared_refs := shared_refs cb; weak_refs := weak_refs cb; variant := v |}.

(** The two fields [T* ptr_; ControlBlockBase* block_;] that SharedPtr and
    WeakPtr both consist of. *)
Record handle := {
  ptr_ : rawptr;
  block_ : option positive;
}.

Global Instance handle_eq_dec : EqDecision handle.
Proof. solve_decision. Defined.

Definition empty_handle : handle := {| ptr_ := nullptr; block_ := None |}.

(** What the library does to memory and to managed objects. *)
Inductive event :=
| EvNewBlock (b : positive)        (* new ControlBlockPtr / ControlBlockHolder *)
| EvConstructInPlace (b : positive)(* new (&storage_) T{...} *)
| EvIfNoShared (b : positive)      (* the virtual call block->IfNoShared() *)
| EvDeleteObject (p : rawptr)      (* delete ptr_, on a pointer that is not null *)
| EvDestroyInPlace (b : positive)  (* reinterpret_cast<T*>(&storage_)->~T() *)
| EvDeleteBlock (b : positive).    (* delete block_ *)

Global Instance event_eq_dec : EqDecision event.
Proof. solve_decision. Defined.

Record Machine := {
  sptrs : gmap positive handle;      (* the live SharedPtr objects *)
  wptrs : gmap positive handle;      (* the live WeakPtr objects *)
  heap : gmap positive ControlBlock; (* the live control blocks *)
  next : positive;                   (* identity of the next allocation *)
  avail : nat;                       (* allocations the allocator can still serve *)
  trace : list event;                (* newest event first *)
}.

Definition with_sptrs (s : gmap positive handle) (m : Machine) : Machine :=
  {| sptrs := s; wptrs := wptrs m; heap := heap m; next := next m;
     avail := avail m; trace := trace m |}.

Definition with_wptrs (w : gmap positive handle) (m : Machine) : Machine :=
  {| sptrs := sptrs m; wptrs := w; heap := heap m; next := next m;
     avail := avail m; trace := trace m |}.

Definition with_heap (h : gmap positive ControlBlock) (m : Machine) : Machine :=
  {| sptrs := sptrs m; wptrs := wptrs m; heap := h; next := next m;
     avail := avail m; trace := trace m |}.

Definition with_trace (t : list event) (m : Machine) : Machine :=
  {| sptrs := sptrs m; wptrs := wptrs m; heap := heap m; next := next m;
     avail := avail m; trace := t |}.

(** ** Outcomes: normal return, C++ exception, or undefined behaviour *)

(** BadWeakPtr, the allocator's exception, and any exception that the
    constructor of a managed object throws. *)
Inductive exn := BadWeakPtr | BadAlloc | ObjectException.

Inductive fault :=
| UseAfterFree     (* access to a control block that is not live *)
| SignedOverflow   (* int arithmetic leaving the range of int *)
| NoSuchObject     (* the program names a handle that does not exist *)
| ObjectExists     (* the program declares a handle twice *)
| Terminated.      (* an exception left a noexcept function *)

Inductive outcome (A : Type) :=
| Ok (a : A) (m : Machine)
| Throw (e : exn) (m : Machine)
| Fault (f : fault).
Arguments Ok {A} a m.
Arguments Throw {A} e m.
Arguments Fault {A} f.

Definition M (A : Type) : Type := Machine → outcome A.

Definition ret {A} (a : A) : M A := λ m, Ok a m.

Definition bind {A B} (c : M A) (k : A → M B) : M B := λ m,
  match c m with
  | Ok a m1 => k a m1
  | Throw e m1 => Throw e m1
  | Fault f => Fault f
  end.

Notation "'let*' x ':=' c 'in' k" := (bind c (λ x, k))
  (at level 10, x name, c at level 100, k at level 200,
   format "'[v' 'let*'  x  ':='  c  'in' '/' k ']'").
Notation "c '>>' k" := (bind c (λ _, k))
  (at level 100, k at level 200, right associativity).

Definition throw {A} (e : exn) : M A := λ m, Throw e m.
Definition undefined {A} (f : fault) : M A := λ _, Fault f.

(** A function declared [noexcept]: an exception that would leave it ends
    the program. *)
Definition noexcept {A} (c : M A) : M A := λ m,
  match c m with
  | Throw _ _ => Fault Terminated
  | r => r
  end.

Definition emit (e : event) : M unit := λ m,
  Ok tt (with_trace (e :: trace m) m).

(** ** int arithmetic *)

Definition INT_MAX : Z := 2147483647.
Definition INT_MIN : Z := -2147483648.

Definition in_int (z : Z) : bool := (INT_MIN <=? z) && (z <=? INT_MAX).

(** [++x], [--x] and [x + y] on int; leaving the range is undefined. *)
Definition int_incr (x : Z) : M Z :=
  if in_int (x + 1) then ret (x + 1) else undefined SignedOverflow.
Definition int_decr (x : Z) : M Z :=
  if in_int (x - 1) then ret (x - 1) else undefined SignedOverflow.
Definition int_add (x y : Z) : M Z :=
  if in_int (x + y) then ret (x + y) else undefined SignedOverflow.

(** The conversion of an int to the size_t that UseCount returns. *)
Definition size_t_of_int (x : Z) : Z := x mod 2 ^ 64.

(** ** Memory and object store *)

Definition load_block (b : positive) : M ControlBlock := λ m,
  match heap m !! b with
  | Some cb => Ok cb m
  | None => Fault UseAfterFree
  end.

Definition store_block (b : positive) (cb : ControlBlock) : M unit := λ m,
  match heap m !! b with
  | Some _ => Ok tt (with_heap (<[b := cb]> (heap m)) m)
  | None => Fault UseAfterFree
  end.

(** [new]: fails with the allocator's error when no memory is left; the
    counters of the new block are zero (their default initialisers). *)
Definition new_block (v : BlockVariant) : M positive := λ m,
  match avail m with
  | O => Throw BadAlloc m
  | S n =>
      Ok (next m)
         {| sptrs := sptrs m; wptrs := wptrs m;
            heap := <[next m := {| shared_refs := 0; weak_refs := 0; variant := v |}]> (heap m);
            next := Pos.succ (next m);
            avail := n;
            trace := EvNewBlock (next m) :: trace m |}
  end.

(** [delete block_]: the virtual destructor is defaulted, only the block's
    own footprint goes away. *)
Definition delete_block (b : positive) : M unit := λ m,
  match heap m !! b with
  | Some _ =>
      Ok tt
         {| sptrs := sptrs m; wptrs := wptrs m;
            heap := delete b (heap m);
            next := next m;
            avail := S (avail m);
            trace := EvDeleteBlock b :: trace m |}
  | None => Fault UseAfterFree
  end.

Definition get_shared (x : positive) : M handle := λ m,
  match sptrs m !! x with
  | Some h => Ok h m
  | None => Fault NoSuchObject
  end.

Definition set_shared (x : positive) (h : handle) : M unit := λ m,
  match sptrs m !! x with
  | Some _ => Ok tt (with_sptrs (<[x := h]> (sptrs m)) m)
  | None => Fault NoSuchObject
  end.

(** The member initialisers of a constructor bring the object into being. *)
Definition init_shared (x : positive) (h : handle) : M unit := λ m,
  match sptrs m !! x with
  | Some _ => Fault ObjectExists
  | None => Ok tt (with_sptrs (<[x := h]> (sptrs m)) m)
  end.

(** The end of a destructor: the object is gone. *)
Definition end_shared (x : positive) : M unit := λ m,
  match sptrs m !! x with
  | Some _ => Ok tt (with_sptrs (delete x (sptrs m)) m)
  | None => Fault NoSuchObject
  end.

Definition get_weak (x : positive) : M handle := λ m,
  match wptrs m !! x with
  | Some h => Ok h m
  | None => Fault NoSuchObject
  end.

Definition set_weak (x : positive) (h : handle) : M unit := λ m,
  match wptrs m !! x with
  | Some _ => Ok tt (with_wptrs (<[x := h]> (wptrs m)) m)
  | None => Fault NoSuchObject
  end.

Definition init_weak (x : positive) (h : handle) : M unit := λ m,
  match wptrs m !! x with
  | Some _ => Fault ObjectExists
  | None => Ok tt (with_wptrs (<[x := h]> (wptrs m)) m)
  end.

Definition end_weak (x : positive) : M unit := λ m,
  match wptrs m !! x with
  | Some _ => Ok tt (with_wptrs (delete x (wptrs m)) m)
  | None => Fault NoSuchObject
  end.

(** A name for a temporary object. *)
Definition temp_shared : M positive := λ m, Ok (fresh (dom (sptrs m))) m.
Definition temp_weak : M positive := λ m, Ok (fresh (dom (wptrs m))) m.

(** ** Control blocks *)

(** For a managed object whose destructor runs no operation on a handle
    ([IfNoShared_of] has the destructor's own code in it):
    [ControlBlockPtr::IfNoShared] is [delete ptr_; ptr_ = nullptr;] and
    deleting a null pointer does nothing; [ControlBlockHolder::IfNoShared]
    runs the destructor of the object in [storage_]. *)
Definition IfNoShared (b : positive) : M unit :=
  let* cb := load_block b in
  emit (EvIfNoShared b) >>
  match variant cb with
  | ControlBlockPtr p =>
      match p with
      | nullptr => ret tt
      | _ => emit (EvDeleteObject p)
      end >>
      store_block b (set_variant (ControlBlockPtr nullptr) cb)
  | ControlBlockHolder => emit (EvDestroyInPlace b)
  end.

(** [new ControlBlockHolder<T>(args...)]: allocation, then the object is
    built in the block's storage. This is the
    new-expression for an object whose constructor returns;
    [new_holder_of] has a constructor that may throw. *)
Definition new_holder : M positive :=
  let* b := new_block ControlBlockHolder in
  emit (EvConstructInPlace b) >>
  ret b.

(** [ControlBlockHolder::Get] *)
Definition Holder_Get (b : positive) : rawptr := StoragePtr b.

(** [++(block_->shared_refs)] and its siblings. *)
Definition incr_shared_refs (b : positive) : M unit :=
  let* cb := load_block b in
  let* n := int_incr (shared_refs cb) in
  store_block b (set_shared_refs n cb).

Definition decr_shared_refs (b : positive) : M unit :=
  let* cb := load_block b in
  let* n := int_decr (shared_refs cb) in
  store_block b (set_shared_refs n cb).

Definition incr_weak_refs (b : positive) : M unit :=
  let* cb := load_block b in
  let* n := int_incr (weak_refs cb) in
  store_block b (set_weak_refs n cb).

Definition decr_weak_refs (b : positive) : M unit :=
  let* cb := load_block b in
  let* n := int_decr (weak_refs cb) in
  store_block b (set_weak_refs n cb).

(** [if (block_) { ... }] *)
Definition if_block (blk : option positive) (k : positive → M unit) : M unit :=
  match blk with
  | Some b => k b
  | None => ret tt
  end.

(** [if (block_->shared_refs + block_->weak_refs == 0) delete block_;] *)
Definition delete_if_unreferenced (b : positive) : M unit :=
  let* cb := load_block b in
  let* s := int_add (shared_refs cb) (weak_refs cb) in
  if decide (s = 0) then delete_block b else ret tt.

(** ** SharedPtr *)

(** [SharedPtr() noexcept] and [SharedPtr(std::nullptr_t) noexcept] *)
Definition SharedPtr_default (this : positive) : M unit :=
  noexcept (init_shared this empty_handle).

(** [explicit SharedPtr(Y* ptr)] *)
Definition SharedPtr_from_raw (this : positive) (ptr : rawptr) : M unit :=
  let* b := new_block (ControlBlockPtr ptr) in
  init_shared this {| ptr_ := ptr; block_ := Some b |} >>
  let* cb := load_block b in
  store_block b (set_shared_refs 1 cb).

(** [explicit SharedPtr(Y* ptr, ControlBlockBase* block)] *)
Definition SharedPtr_from_raw_block (this : positive) (ptr : rawptr)
    (block : option positive) : M unit :=
  init_shared this {| ptr_ := ptr; block_ := block |} >>
  let* h := get_shared this in
  if_block (block_ h) incr_shared_refs.

(** [SharedPtr(const SharedPtr& other) noexcept], also for [SharedPtr<Y>] *)
Definition SharedPtr_copy (this other : positive) : M unit :=
  noexcept (
    let* o := get_shared other in
    init_shared this {| ptr_ := ptr_ o; block_ := block_ o |} >>
    let* h := get_shared this in
    if_block (block_ h) incr_shared_refs).

(** [SharedPtr(SharedPtr&& other) noexcept], also for [SharedPtr<Y>] *)
Definition SharedPtr_move (this other : positive) : M unit :=
  noexcept (
    let* o := get_shared other in
    init_shared this {| ptr_ := ptr_ o; block_ := block_ o |} >>
    let* o := get_shared other in
    set_shared other {| ptr_ := nullptr; block_ := block_ o |} >>
    let* o := get_shared other in
    set_shared other {| ptr_ := ptr_ o; block_ := None |}).

(** [SharedPtr(const SharedPtr<Y>& other, T* ptr) noexcept] *)
Definition SharedPtr_alias (this other : positive) (ptr : rawptr) : M unit :=
  noexcept (
    let* o := get_shared other in
    init_shared this {| ptr_ := ptr; block_ := block_ o |} >>
    let* h := get_shared this in
    if_block (block_ h) incr_shared_refs).

(** [SharedPtr::UseCount] *)
Definition SharedPtr_UseCount (this : positive) : M Z :=
  noexcept (
    let* h := get_shared this in
    match block_ h with
    | Some b => let* cb := load_block b in ret (size_t_of_int (shared_refs cb))
    | None => ret 0
    end).

(** [SharedPtr::Get] *)
Definition SharedPtr_Get (this : positive) : M rawptr :=
  noexcept (let* h := get_shared this in ret (ptr_ h)).

(** [explicit operator bool() const noexcept] *)
Definition SharedPtr_bool (this : positive) : M bool :=
  noexcept (let* h := get_shared this in ret (bool_decide (ptr_ h ≠ nullptr))).

(** [operator==] on two SharedPtr: the observed pointers are compared. *)
Definition SharedPtr_eq (left right : positive) : M bool :=
  let* l := SharedPtr_Get left in
  let* r := SharedPtr_Get right in
  ret (bool_decide (l = r)).

(** [~SharedPtr()]; a destructor is noexcept without saying so, and nothing
    in this one throws. *)
Definition SharedPtr_dtor (this : positive) : M unit :=
  let* h := get_shared this in
  if_block (block_ h) (λ b,
    decr_shared_refs b >>
    let* cb := load_block b in
    (if decide (shared_refs cb = 0) then IfNoShared b else ret tt) >>
    delete_if_unreferenced b) >>
  end_shared this.

(** [void Swap(SharedPtr& other) noexcept]: two [std::swap]s, each one
    [tmp = a; a = b; b = tmp] on one field. *)
Definition SharedPtr_Swap (this other : positive) : M unit :=
  noexcept (
    let* t := get_shared this in
    let tmp := ptr_ t in
    let* o := get_shared other in
    set_shared this {| ptr_ := ptr_ o; block_ := block_ t |} >>
    let* o := get_shared other in
    set_shared other {| ptr_ := tmp; block_ := block_ o |} >>
    let* t := get_shared this in
    let tmp := block_ t in
    let* o := get_shared other in
    set_shared this {| ptr_ := ptr_ t; block_ := block_ o |} >>
    let* o := get_shared other in
    set_shared other {| ptr_ := ptr_ o; block_ := tmp |}).

(** ** WeakPtr observers, and the promotion of a WeakPtr *)

(** [WeakPtr::UseCount] *)
Definition WeakPtr_UseCount (this : positive) : M Z :=
  noexcept (
    let* h := get_weak this in
    match block_ h with
    | Some b => let* cb := load_block b in ret (size_t_of_int (shared_refs cb))
    | None => ret 0
    end).

(** [WeakPtr::Expired] *)
Definition WeakPtr_Expired (this : positive) : M bool :=
  noexcept (let* n := WeakPtr_UseCount this in ret (bool_decide (n = 0))).

(** [explicit SharedPtr(const WeakPtr<T>& other)], also for [WeakPtr<Y>].
    The fields are assigned in the body, after the check. *)
Definition SharedPtr_from_weak (this other : positive) : M unit :=
  let* e := WeakPtr_Expired other in
  if (e : bool) then throw BadWeakPtr
  else
    let* o := get_weak other in
    init_shared this {| ptr_ := ptr_ o; block_ := block_ o |} >>
    let* h := get_shared this in
    if_block (block_ h) incr_shared_refs.

(** ** SharedPtr assignment and Reset *)

(** [SharedPtr& operator=(const SharedPtr& other) noexcept]:
    [SharedPtr<T>(other).Swap( *this)], the temporary dies at the end.
    Like every member function that is not a constructor, it is called on
    an object that exists. *)
Definition SharedPtr_assign (this other : positive) : M unit :=
  noexcept (
    get_shared this >>
    let* tmp := temp_shared in
    SharedPtr_copy tmp other >>
    SharedPtr_Swap tmp this >>
    SharedPtr_dtor tmp).

(** [SharedPtr& operator=(SharedPtr&& other) noexcept] *)
Definition SharedPtr_move_assign (this other : positive) : M unit :=
  noexcept (
    get_shared this >>
    let* tmp := temp_shared in
    SharedPtr_move tmp other >>
    SharedPtr_Swap tmp this >>
    SharedPtr_dtor tmp).

(** [void Reset() noexcept] *)
Definition SharedPtr_Reset (this : positive) : M unit :=
  noexcept (
    get_shared this >>
    let* tmp := temp_shared in
    SharedPtr_default tmp >>
    SharedPtr_Swap tmp this >>
    SharedPtr_dtor tmp).

(** [void Reset(Y* ptr)] *)
Definition SharedPtr_Reset_ptr (this : positive) (ptr : rawptr) : M unit :=
  get_shared this >>
  let* tmp := temp_shared in
  SharedPtr_from_raw tmp ptr >>
  SharedPtr_Swap tmp this >>
  SharedPtr_dtor tmp.

(** [MakeShared<T>(args...)]; the returned prvalue is built directly in
    the object [result] of the caller. *)
Definition MakeShared (result : positive) : M unit :=
  let* holder_block := new_holder in
  SharedPtr_from_raw_block result (Holder_Get holder_block) (Some holder_block).

(** ** WeakPtr *)

(** [WeakPtr() noexcept] *)
Definition WeakPtr_default (this : positive) : M unit :=
  noexcept (init_weak this empty_handle).

(** [WeakPtr(const WeakPtr& other) noexcept], also for [WeakPtr<Y>] *)
Definition WeakPtr_copy (this other : positive) : M unit :=
  noexcept (
    let* o := get_weak other in
    init_weak this {| ptr_ := ptr_ o; block_ := block_ o |} >>
    let* h := get_weak this in
    if_block (block_ h) incr_weak_refs).

(** [WeakPtr(WeakPtr&& other) noexcept]; the converting form
    [WeakPtr(WeakPtr<Y>&& other)] has the same body without noexcept. *)
Definition WeakPtr_move (this other : positive) : M unit :=
  noexcept (
    let* o := get_weak other in
    init_weak this {| ptr_ := ptr_ o; block_ := block_ o |} >>
    let* o := get_weak other in
    set_weak other {| ptr_ := nullptr; block_ := block_ o |} >>
    let* o := get_weak other in
    set_weak other {| ptr_ := ptr_ o; block_ := None |}).

(** [WeakPtr(const SharedPtr<Y>& other)] *)
Definition WeakPtr_from_shared (this other : positive) : M unit :=
  let* o := get_shared other in
  init_weak this {| ptr_ := ptr_ o; block_ := block_ o |} >>
  let* h := get_weak this in
  if_block (block_ h) incr_weak_refs.

(** [~WeakPtr()], which never calls IfNoShared. *)
Definition WeakPtr_dtor (this : positive) : M unit :=
  let* h := get_weak this in
  if_block (block_ h) (λ b,
    decr_weak_refs b >>
    delete_if_unreferenced b) >>
  end_weak this.

(** [void Swap(WeakPtr& other)] *)
Definition WeakPtr_Swap (this other : positive) : M unit :=
  let* t := get_weak this in
  let tmp := ptr_ t in
  let* o := get_weak other in
  set_weak this {| ptr_ := ptr_ o; block_ := block_ t |} >>
  let* o := get_weak other in
  set_weak other {| ptr_ := tmp; block_ := block_ o |} >>
  let* t := get_weak this in
  let tmp := block_ t in
  let* o := get_weak other in
  set_weak this {| ptr_ := ptr_ t; block_ := block_ o |} >>
  let* o := get_weak other in
  set_weak other {| ptr_ := ptr_ o; block_ := tmp |}.

(** [WeakPtr& operator=(const WeakPtr& other) noexcept] *)
Definition WeakPtr_assign (this other : positive) : M unit :=
  noexcept (
    get_weak this >>
    let* tmp := temp_weak in
    WeakPtr_copy tmp other >>
    WeakPtr_Swap tmp this >>
    WeakPtr_dtor tmp).

(** [WeakPtr& operator=(WeakPtr&& other) noexcept] *)
Definition WeakPtr_move_assign (this other : positive) : M unit :=
  noexcept (
    get_weak this >>
    let* tmp := temp_weak in
    WeakPtr_move tmp other >>
    WeakPtr_Swap tmp this >>
    WeakPtr_dtor tmp).

(** [WeakPtr& operator=(const SharedPtr<Y>& sptr) noexcept] *)
Definition WeakPtr_assign_shared (this sptr : positive) : M unit :=
  noexcept (
    get_weak this >>
    let* tmp := temp_weak in
    WeakPtr_from_shared tmp sptr >>
    WeakPtr_Swap tmp this >>
    WeakPtr_dtor tmp).

(** [void Reset()] *)
Definition WeakPtr_Reset (this : positive) : M unit :=
  get_weak this >>
  let* tmp := temp_weak in
  WeakPtr_default tmp >>
  WeakPtr_Swap tmp this >>
  WeakPtr_dtor tmp.

(** [SharedPtr<T> Lock() const noexcept]; the returned prvalue is built
    directly in the object [result] of the caller. *)
Definition WeakPtr_Lock (result this : positive) : M unit :=
  noexcept (
    let* e := WeakPtr_Expired this in
    if (e : bool) then SharedPtr_default result
    else SharedPtr_from_weak result this).

(** ** Programs: sequences of statements on named handles *)

Inductive stmt :=
| SDefault (x : positive)                    (* SharedPtr<T> x; *)
| SFromRaw (x : positive) (p : rawptr)       (* SharedPtr<T> x(p); *)
| SMake (x : positive)                       (* auto x = MakeShared<T>(...); *)
| SCopy (x y : positive)                     (* SharedPtr<T> x(y); *)
| SMove (x y : positive)                     (* SharedPtr<T> x(std::move(y)); *)
| SAlias (x y : positive) (p : rawptr)       (* SharedPtr<T> x(y, p); *)
| SPromote (x w : positive)                  (* SharedPtr<T> x(w); *)
| SLock (x w : positive)                     (* auto x = w.Lock(); *)
| SAssign (x y : positive)                   (* x = y; *)
| SMoveAssign (x y : positive)               (* x = std::move(y); *)
| SReset (x : positive)                      (* x.Reset(); *)
| SResetPtr (x : positive) (p : rawptr)      (* x.Reset(p); *)
| SSwap (x y : positive)                     (* x.Swap(y); *)
| SDestroy (x : positive)                    (* the SharedPtr x goes out of scope *)
| WDefault (w : positive)                    (* WeakPtr<T> w; *)
| WCopy (w v : positive)                     (* WeakPtr<T> w(v); *)
| WMove (w v : positive)                     (* WeakPtr<T> w(std::move(v)); *)
| WFromShared (w x : positive)               (* WeakPtr<T> w(x); *)
| WAssign (w v : positive)                   (* w = v; *)
| WMoveAssign (w v : positive)               (* w = std::move(v); *)
| WAssignShared (w x : positive)             (* w = x; *)
| WReset (w : positive)                      (* w.Reset(); *)
| WSwap (w v : positive)                     (* w.Swap(v); *)
| WDestroy (w : positive).                   (* the WeakPtr w goes out of scope *)

Definition exec (s : stmt) : M unit :=
  match s with
  | SDefault x => SharedPtr_default x
  | SFromRaw x p => SharedPtr_from_raw x p
  | SMake x => MakeShared x
  | SCopy x y => SharedPtr_copy x y
  | SMove x y => SharedPtr_move x y
  | SAlias x y p => SharedPtr_alias x y p
  | SPromote x w => SharedPtr_from_weak x w
  | SLock x w => WeakPtr_Lock x w
  | SAssign x y => SharedPtr_assign x y
  | SMoveAssign x y => SharedPtr_move_assign x y
  | SReset x => SharedPtr_Reset x
  | SResetPtr x p => SharedPtr_Reset_ptr x p
  | SSwap x y => SharedPtr_Swap x y
  | SDestroy x => SharedPtr_dtor x
  | WDefault w => WeakPtr_default w
  | WCopy w v => WeakPtr_copy w v
  | WMove w v => WeakPtr_move w v
  | WFromShared w x => WeakPtr_from_shared w x
  | WAssign w v => WeakPtr_assign w v
  | WMoveAssign w v => WeakPtr_move_assign w v
  | WAssignShared w x => WeakPtr_assign_shared w x
  | WReset w => WeakPtr_Reset w
  | WSwap w v => WeakPtr_Swap w v
  | WDestroy w => WeakPtr_dtor w
  end.

Fixpoint run (p : list stmt) : M unit :=
  match p with
  | [] => ret tt
  | s :: p' => exec s >> run p'
  end.

(** The machine before any handle exists. *)
Definition init (mem : nat) : Machine :=
  {| sptrs := ∅; wptrs := ∅; heap := ∅; next := 1%positive; avail := mem; trace := [] |}.

(** ** Counting references and events *)

(** The number of handles of a store that refer to the block [b]. *)
Definition refs (b : positive) (hs : gmap positive handle) : nat :=
  size (filter (λ kv : positive * handle, block_ kv.2 = Some b) hs).

Definition strong (b : positive) (m : Machine) : nat := refs b (sptrs m).
Definition weak (b : positive) (m : Machine) : nat := refs b (wptrs m).

Definition occurrences (e : event) (t : list event) : nat :=
  length (filter (λ e', e' = e) t).

(** How often IfNoShared has been called on [b], and how often [b] has
    been deleted. *)
Definition released (b : positive) (m : Machine) : nat :=
  occurrences (EvIfNoShared b) (trace m).
Definition freed (b : positive) (m : Machine) : nat :=
  occurrences (EvDeleteBlock b) (trace m).

(** ** The reference-counting invariant *)

(** What holds of the block identity [b] between two statements: a live
    block is referenced, its counters count the handles that refer to it,
    its object has been released iff no SharedPtr refers to it, and it has
    never been deleted; a block that is not live is referenced by nobody,
    and was released and deleted once if it ever existed. *)
Definition block_inv (b : positive) (m : Machine) : Prop :=
  match heap m !! b with
  | Some cb =>
      shared_refs cb = Z.of_nat (strong b m) ∧
      weak_refs cb = Z.of_nat (weak b m) ∧
      (0 < strong b m + weak b m)%nat ∧
      released b m = (if decide (strong b m = 0%nat) then 1%nat else 0%nat) ∧
      freed b m = 0%nat ∧
      (b < next m)%positive
  | None =>
      strong b m = 0%nat ∧
      weak b m = 0%nat ∧
      released b m = (if decide (b < next m)%positive then 1%nat else 0%nat) ∧
      freed b m = (if decide (b < next m)%positive then 1%nat else 0%nat)
  end.

Definition Inv (m : Machine) : Prop := ∀ b, block_inv b m.

(** How a statement may change the machine: the trace and the allocation
    counter only grow, and no block loses more than one reference. *)
Definition extends (m m' : Machine) : Prop :=
  (∃ t, trace m' = t ++ trace m) ∧ (next m ≤ next m')%positive.

Definition gains (m m' : Machine) : Prop :=
  ∀ b, (strong b m ≤ strong b m')%nat ∧ (weak b m ≤ weak b m')%nat.

Definition loses_one (m m' : Machine) : Prop :=
  ∀ b, (strong b m ≤ strong b m' + 1)%nat ∧ (weak b m ≤ weak b m' + 1)%nat ∧
       (strong b m + weak b m ≤ strong b m' + weak b m' + 1)%nat.

(** A step that keeps the invariant and takes no reference away, and one
    that may take one reference away. *)
Definition step_gain (m m' : Machine) : Prop := Inv m' ∧ extends m m' ∧ gains m m'.
Definition step_lose (m m' : Machine) : Prop := Inv m' ∧ extends m m' ∧ loses_one m m'.

(** A computation that neither throws nor breaks a noexcept promise. *)
Definition quiet {A} (c : M A) : Prop :=
  ∀ m, (∀ e m', c m ≠ Throw e m') ∧ c m ≠ Fault Terminated.

(** A computation that does not allocate. *)
Definition keeps_next {A} (c : M A) : Prop :=
  ∀ m a m', c m = Ok a m' → next m' = next m.

(** The block that a goal of the form [Inv m'], [gains m m'] or
    [loses_one m m'] is being proved for. *)
Definition focus (b : positive) : Prop := True.

(** ** Sample machines *)

(** The machine that a program leaves behind. *)
Definition after (p : list stmt) (mem : nat) : Machine :=
  match run p (init mem) with
  | Ok _ m => m
  | _ => init 0
  end.

(** One SharedPtr, named 1, that owns the object 5. *)
Definition owner_example : Machine :=
  after [SFromRaw 1 (ObjPtr 5)] 1.

(** A SharedPtr 1 that owns the object 5, and a WeakPtr 1 to its block. *)
Definition observed_example : Machine :=
  after [SFromRaw 1 (ObjPtr 5); WFromShared 1 1] 1.

(** A WeakPtr 1 that has outlived its object. *)
Definition expired_example : Machine :=
  after [SFromRaw 1 (ObjPtr 1); WFromShared 1 1; SDestroy 1] 1.

(** An empty SharedPtr 1 and an empty WeakPtr 1, next to a SharedPtr 2
    that owns an object. *)
Definition empty_example : Machine :=
  after [SDefault 1; WDefault 1; SFromRaw 2 (ObjPtr 5)] 1.

(** ** Managed objects that run code of their own *)

(** [IfNoShared], [new_holder] and the functions built on them above are
    the source's functions for a managed object whose constructor and
    destructor run no operation on a handle and do not throw. Below are
    the same functions with the object's own code in them: [destroy p] is
    what the destructor of the object at [p] does to handles and blocks
    (the destructors of the SharedPtr and WeakPtr members it owns, for
    instance), and [construct b] is what the constructor of the object
    built in the storage of block [b] does, and how it leaves. *)

(** A new-expression whose constructor throws gives the memory back and
    lets the exception through. *)
Definition unwind {A} (c : M A) (undo : M unit) : M A := λ m,
  match c m with
  | Ok a m1 => Ok a m1
  | Throw e m1 =>
      match undo m1 with
      | Ok _ m2 => Throw e m2
      | Throw e' m2 => Throw e' m2
      | Fault f => Fault f
      end
  | Fault f => Fault f
  end.

Section objects.
Variable destroy : rawptr → M unit.
Variable construct : positive → M unit.

(** [ControlBlockPtr::IfNoShared] is [delete ptr_; ptr_ = nullptr;]: the
    destructor of the object runs, its memory is given back, and then the
    member [ptr_] of the block is written; [ControlBlockHolder::IfNoShared]
    is the destructor call [->~T()]. A destructor is noexcept. *)
Definition IfNoShared_of (b : positive) : M unit :=
  let* cb := load_block b in
  emit (EvIfNoShared b) >>
  match variant cb with
  | ControlBlockPtr p =>
      match p with
      | nullptr => ret tt
      | _ => noexcept (destroy p) >> emit (EvDeleteObject p)
      end >>
      let* cb := load_block b in
      store_block b (set_variant (ControlBlockPtr nullptr) cb)
  | ControlBlockHolder =>
      noexcept (destroy (StoragePtr b)) >> emit (EvDestroyInPlace b)
  end.

(** [new ControlBlockHolder<T>(args...)]: allocation, then the
    constructor of the block builds the object in [storage_]; when the
    object's constructor throws, the new-expression releases the block. *)
Definition new_holder_of : M positive :=
  let* b := new_block ControlBlockHolder in
  unwind (construct b) (delete_block b) >>
  emit (EvConstructInPlace b) >>
  ret b.

(** [~SharedPtr()] *)
Definition SharedPtr_dtor_of (this : positive) : M unit :=
  let* h := get_shared this in
  if_block (block_ h) (λ b,
    decr_shared_refs b >>
    let* cb := load_block b in
    (if decide (shared_refs cb = 0) then IfNoShared_of b else ret tt) >>
    delete_if_unreferenced b) >>
  end_shared this.

(** The assignments and Reset, whose temporary dies at the end. *)
Definition SharedPtr_assign_of (this other : positive) : M unit :=
  noexcept (
    get_shared this >>
    let* tmp := temp_shared in
    SharedPtr_copy tmp other >>
    SharedPtr_Swap tmp this >>
    SharedPtr_dtor_of tmp).

Definition SharedPtr_move_assign_of (this other : positive) : M unit :=
  noexcept (
    get_shared this >>
    let* tmp := temp_shared in
    SharedPtr_move tmp other >>
    SharedPtr_Swap tmp this >>
    SharedPtr_dtor_of tmp).

Definition SharedPtr_Reset_of (this : positive) : M unit :=
  noexcept (
    get_shared this >>
    let* tmp := temp_shared in
    SharedPtr_default tmp >>
    SharedPtr_Swap tmp this >>
    SharedPtr_dtor_of tmp).

Definition SharedPtr_Reset_ptr_of (this : positive) (ptr : rawptr) : M unit :=
  get_shared this >>
  let* tmp := temp_shared in
  SharedPtr_from_raw tmp ptr >>
  SharedPtr_Swap tmp this >>
  SharedPtr_dtor_of tmp.

(** [MakeShared<T>(args...)] *)
Definition MakeShared_of (result : positive) : M unit :=
  let* holder_block := new_holder_of in
  SharedPtr_from_raw_block result (Holder_Get holder_block) (Some holder_block).

Definition exec_of (s : stmt) : M unit :=
  match s with
  | SMake x => MakeShared_of x
  | SAssign x y => SharedPtr_assign_of x y
  | SMoveAssign x y => SharedPtr_move_assign_of x y
  | SReset x => SharedPtr_Reset_of x
  | SResetPtr x p => SharedPtr_Reset_ptr_of x p
  | SDestroy x => SharedPtr_dtor_of x
  | _ => exec s
  end.

Fixpoint run_of (p : list stmt) : M unit :=
  match p with
  | [] => ret tt
  | s :: p' => exec_of s >> run_of p'
  end.
End objects.

(** Constructors and destructors that run no operation on a handle and
    do not throw. *)
Definition plain (destroy : rawptr → M unit) (construct : positive → M unit) : Prop :=
  (∀ p m, destroy p m = Ok tt m) ∧ (∀ b m, construct b m = Ok tt m).

Definition no_code {A} : A → M unit := λ _, ret tt.

(** The destructor of a class that has one handle member, the WeakPtr
    [w] of the object at [a], as in [struct T { WeakPtr<T> self; }]. *)
Definition destroy_member (a : rawptr) (w : positive) : rawptr → M unit := λ p,
  if decide (p = a) then WeakPtr_dtor w else ret tt.

(** A constructor that throws. *)
Definition throwing {A} : A → M unit := λ _, throw ObjectException.

(** ** Notions for the further properties *)

(** A property of the machine that a computation keeps when it returns. *)
Definition keeps {A} (P : Machine → Prop) (c : M A) : Prop :=
  ∀ m a m', P m → c m = Ok a m' → P m'.

(** Every live block was allocated, its counters are values of type int,
    and the blocks in use and the memory left add up to the memory there
    was. *)
Definition Sound (mem : nat) (m : Machine) : Prop :=
  (∀ b cb, heap m !! b = Some cb →
     (b < next m)%positive ∧
     in_int (shared_refs cb) = true ∧ in_int (weak_refs cb) = true) ∧
  (avail m + size (heap m) = mem)%nat.

(** The statements on WeakPtr objects. *)
Definition weak_stmt (s : stmt) : bool :=
  match s with
  | WDefault _ | WCopy _ _ | WMove _ _ | WFromShared _ _ | WAssign _ _
  | WMoveAssign _ _ | WAssignShared _ _ | WReset _ | WSwap _ _
  | WDestroy _ => true
  | _ => false
  end.

(** What a computation does when all it does is observe: the SharedPtr
    objects stay as they are, the only events are deletions of control
    blocks, and a block that is still there has its strong counter and its
    managed object as before. *)
Definition observes (m m' : Machine) : Prop :=
  sptrs m' = sptrs m ∧
  (∃ t, trace m' = t ++ trace m ∧ ∀ e, e ∈ t → ∃ b, e = EvDeleteBlock b) ∧
  (∀ b cb', heap m' !! b = Some cb' →
     ∃ cb, heap m !! b = Some cb ∧
           shared_refs cb' = shared_refs cb ∧ variant cb' = variant cb).

Definition observer {A} (c : M A) : Prop :=
  ∀ m a m', c m = Ok a m' → observes m m'.

(** The body of [if (block_)] in [~SharedPtr] and in [~WeakPtr]. *)
Definition drop_shared (b : positive) : M unit :=
  decr_shared_refs b >>
  let* cb := load_block b in
  (if decide (shared_refs cb = 0) then IfNoShared b else ret tt) >>
  delete_if_unreferenced b.

Definition drop_weak (b : positive) : M unit :=
  decr_weak_refs b >>
  delete_if_unreferenced b.

(** The machine with other handles in it. *)
Definition rehandle (s w : gmap positive handle) (m : Machine) : Machine :=
  with_wptrs w (with_sptrs s m).

Definition on_machine {A} (f : Machine → Machine) (r : outcome A) : outcome A :=
  match r with
  | Ok a m => Ok a (f m)
  | Throw e m => Throw e (f m)
  | Fault f' => Fault f'
  end.

(** A computation that neither reads nor writes a handle: it does the
    same whatever the handles are. *)
Definition handle_blind {A} (c : M A) : Prop :=
  ∀ m s w, c (rehandle s w m) = on_machine (rehandle s w) (c m).

(** * UniquePtr and CompressedPair *)

(** [CompressedPair<F, S>] keeps one element of each type, each in a
    [CompressedPairElement] base; its constructor stores the two
    arguments, and GetFirst and GetSecond return references to what is
    stored. This is the primary [CompressedPairElement], which has the
    element as a member [elem]. The specialization for an empty class that
    is not final has the class as a base and no state; its constructors
    and its Get come before any access specifier of a [class], so they are
    private, and a pair with such an element is not part of the model. *)
Record CompressedPair (F S : Type) := MkCompressedPair {
  GetFirst : F;
  GetSecond : S
}.
Arguments MkCompressedPair {F S} _ _.
Arguments GetFirst {F S} _.
Arguments GetSecond {F S} _.

Section UniquePtr.
(** [template <typename T, typename Deleter>]: the deleter is any value
    that can be called on a pointer; [Deleter_default] is [Deleter()]. A
    deleter is copied when it is forwarded, as a function pointer or a
    functor whose state is copied is. The specialization for arrays has the
    same members with the same bodies, and [operator[]] in addition, which
    reads memory and is not modelled. *)
Context {Deleter : Type}.
Variable Deleter_default : Deleter.

(** The UniquePtr objects by name, each one its [uptr_], and the calls of
    deleters so far, newest first. For [Slug], a call is [delete ptr]. *)
Record UMachine := {
  uptrs : gmap positive (CompressedPair rawptr Deleter);
  calls : list (Deleter * rawptr)
}.

(** A computation on UniquePtr objects; [None] is a program that names an
    object that does not exist, or constructs one that does. *)
Definition UM (A : Type) : Type := UMachine → option (A * UMachine).

Definition uret {A} (a : A) : UM A := λ m, Some (a, m).

Definition ubind {A B} (c : UM A) (k : A → UM B) : UM B := λ m,
  match c m with
  | Some (a, m') => k a m'
  | None => None
  end.

Notation "'let+' x ':=' c 'in' k" := (ubind c (λ x, k))
  (at level 10, x name, c at level 100, k at level 200,
   format "'[v' 'let+'  x  ':='  c  'in' '/' k ']'").
Notation "c '>>+' k" := (ubind c (λ _, k))
  (at level 100, k at level 200, right associativity).

Definition get_unique (x : positive) : UM (CompressedPair rawptr Deleter) := λ m,
  match uptrs m !! x with
  | Some u => Some (u, m)
  | None => None
  end.

Definition set_unique (x : positive) (u : CompressedPair rawptr Deleter) : UM unit := λ m,
  match uptrs m !! x with
  | Some _ => Some (tt, {| uptrs := <[x := u]> (uptrs m); calls := calls m |})
  | None => None
  end.

Definition init_unique (x : positive) (u : CompressedPair rawptr Deleter) : UM unit := λ m,
  match uptrs m !! x with
  | Some _ => None
  | None => Some (tt, {| uptrs := <[x := u]> (uptrs m); calls := calls m |})
  end.

Definition end_unique (x : positive) : UM unit := λ m,
  match uptrs m !! x with
  | Some _ => Some (tt, {| uptrs := delete x (uptrs m); calls := calls m |})
  | None => None
  end.

(** [deleter(ptr)] *)
Definition call_deleter (deleter : Deleter) (ptr : rawptr) : UM unit := λ m,
  Some (tt, {| uptrs := uptrs m; calls := (deleter, ptr) :: calls m |}).

(** [UniquePtr() noexcept] and [UniquePtr(std::nullptr_t) noexcept] *)
Definition UniquePtr_default (this : positive) : UM unit :=
  init_unique this (MkCompressedPair nullptr Deleter_default).

(** [explicit UniquePtr(T* ptr) noexcept] *)
Definition UniquePtr_from_raw (this : positive) (ptr : rawptr) : UM unit :=
  init_unique this (MkCompressedPair ptr Deleter_default).

(** [UniquePtr(T* ptr, Del&& deleter) noexcept] *)
Definition UniquePtr_with_deleter (this : positive) (ptr : rawptr)
    (deleter : Deleter) : UM unit :=
  init_unique this (MkCompressedPair ptr deleter).

(** [T* Get() const noexcept] *)
Definition UniquePtr_Get (this : positive) : UM rawptr :=
  let+ u := get_unique this in uret (GetFirst u).

(** [Deleter& GetDeleter() noexcept] *)
Definition UniquePtr_GetDeleter (this : positive) : UM Deleter :=
  let+ u := get_unique this in uret (GetSecond u).

(** [explicit operator bool() const noexcept] *)
Definition UniquePtr_bool (this : positive) : UM bool :=
  let+ p := UniquePtr_Get this in uret (bool_decide (p ≠ nullptr)).

(** [T* Release() noexcept] *)
Definition UniquePtr_Release (this : positive) : UM rawptr :=
  let+ u := get_unique this in
  let temp := GetFirst u in
  let+ u := get_unique this in
  set_unique this (MkCompressedPair nullptr (GetSecond u)) >>+
  uret temp.

(** [void Reset(T* ptr = nullptr) noexcept]; [Reset(std::nullptr_t)] and
    [operator=(std::nullptr_t)] call it with its default argument. *)
Definition UniquePtr_Reset (this : positive) (ptr : rawptr) : UM unit :=
  let+ u := get_unique this in
  let old_ptr := GetFirst u in
  let+ u := get_unique this in
  set_unique this (MkCompressedPair ptr (GetSecond u)) >>+
  if decide (old_ptr ≠ nullptr)
  then let+ d := UniquePtr_GetDeleter this in call_deleter d old_ptr
  else uret tt.

(** [UniquePtr(UniquePtr<U, Del>&& other) noexcept] *)
Definition UniquePtr_move (this other : positive) : UM unit :=
  let+ p := UniquePtr_Release other in
  let+ d := UniquePtr_GetDeleter other in
  init_unique this (MkCompressedPair p d).

(** [UniquePtr& operator=(UniquePtr&& other) noexcept], also for
    [UniquePtr<U, Del>] *)
Definition UniquePtr_move_assign (this other : positive) : UM unit :=
  let+ p := UniquePtr_Release other in
  UniquePtr_Reset this p >>+
  let+ d := UniquePtr_GetDeleter other in
  let+ u := get_unique this in
  set_unique this (MkCompressedPair (GetFirst u) d).

(** [~UniquePtr() noexcept] *)
Definition UniquePtr_dtor (this : positive) : UM unit :=
  let+ u := get_unique this in
  (if decide (GetFirst u ≠ nullptr)
   then
     let+ d := UniquePtr_GetDeleter this in
     let+ p := UniquePtr_Get this in
     call_deleter d p
   else uret tt) >>+
  end_unique this.

(** [void Swap(UniquePtr& other) noexcept]: two [std::swap]s, each one
    [tmp = a; a = b; b = tmp]. *)
Definition UniquePtr_Swap (this other : positive) : UM unit :=
  let+ t := get_unique this in
  let tmp := GetFirst t in
  let+ o := get_unique other in
  set_unique this (MkCompressedPair (GetFirst o) (GetSecond t)) >>+
  let+ o := get_unique other in
  set_unique other (MkCompressedPair tmp (GetSecond o)) >>+
  let+ t := get_unique this in
  let tmp := GetSecond t in
  let+ o := get_unique other in
  set_unique this (MkCompressedPair (GetFirst t) (GetSecond o)) >>+
  let+ o := get_unique other in
  set_unique other (MkCompressedPair (GetFirst o) tmp).

(** Programs on UniquePtr objects. *)
Inductive ustmt :=
| UDefault (x : positive)                            (* UniquePtr<T, D> x; *)
| UFromRaw (x : positive) (p : rawptr)               (* UniquePtr<T, D> x(p); *)
| UWithDeleter (x : positive) (p : rawptr) (d : Deleter)  (* UniquePtr<T, D> x(p, d); *)
| UMove (x y : positive)                             (* UniquePtr<T, D> x(std::move(y)); *)
| UMoveAssign (x y : positive)                       (* x = std::move(y); *)
| UReset (x : positive) (p : rawptr)                 (* x.Reset(p); x.Reset(); x = nullptr; *)
| URelease (x : positive)                            (* x.Release(); *)
| USwap (x y : positive)                             (* x.Swap(y); *)
| UDestroy (x : positive).                           (* x goes out of scope *)

Definition uexec (s : ustmt) : UM unit :=
  match s with
  | UDefault x => UniquePtr_default x
  | UFromRaw x p => UniquePtr_from_raw x p
  | UWithDeleter x p d => UniquePtr_with_deleter x p d
  | UMove x y => UniquePtr_move x y
  | UMoveAssign x y => UniquePtr_move_assign x y
  | UReset x p => UniquePtr_Reset x p
  | URelease x => (UniquePtr_Release x >>+ uret tt)
  | USwap x y => UniquePtr_Swap x y
  | UDestroy x => UniquePtr_dtor x
  end.

(** The pointers that UniquePtr objects hold, and the pointers that have
    been passed to a deleter. *)
Definition held (m : UMachine) : list rawptr :=
  (λ kv, GetFirst kv.2) <$> map_to_list (uptrs m).
Definition deleted (m : UMachine) : list rawptr := snd <$> calls m.

(** What the caller owes a UniquePtr: a pointer handed to a constructor or
    to Reset is null, or is held by no UniquePtr and has not been deleted. *)
Definition hands_over (s : ustmt) (m : UMachine) : bool :=
  match s with
  | UFromRaw _ p | UWithDeleter _ p _ | UReset _ p =>
      bool_decide (p = nullptr ∨ ((p ∉ held m) ∧ (p ∉ deleted m)))
  | _ => true
  end.

(** The statements other than Release. *)
Definition no_Release (s : ustmt) : bool :=
  match s with
  | URelease _ => false
  | _ => true
  end.

(** A run in which the caller keeps to that. *)
Fixpoint urun (p : list ustmt) (m : UMachine) : option UMachine :=
  match p with
  | [] => Some m
  | s :: p' =>
      if hands_over s m then
        match uexec s m with
        | Some (_, m') => urun p' m'
        | None => None
        end
      else None
  end.

Definition uinit : UMachine := {| uptrs := ∅; calls := [] |}.

(** Unique ownership: no two UniquePtr objects hold the same pointer,
    unless it is null; no pointer that one holds has been deleted; no
    pointer has been deleted twice, and the null pointer never. *)
Definition Owned (m : UMachine) : Prop :=
  (∀ x y ux uy,
     uptrs m !! x = Some ux → uptrs m !! y = Some uy →
     GetFirst ux = GetFirst uy → GetFirst ux ≠ nullptr → x = y) ∧
  (∀ x u, uptrs m !! x = Some u → GetFirst u ∉ deleted m) ∧
  NoDup (deleted m) ∧
  nullptr ∉ deleted m.
End UniquePtr.

(** A UniquePtr 1 that holds the object 5 with the deleter 1, and a null
    UniquePtr 2 with the deleter 2. *)
Definition unique_example : @UMachine positive :=
  {| uptrs := <[1%positive := MkCompressedPair (ObjPtr 5) 1%positive]>
                (<[2%positive := MkCompressedPair nullptr 2%positive]> ∅);
     calls := [] |}.

(** * Proofs *)

(** ** Counting *)

Lemma refs_empty b : refs b ∅ = 0%nat.
Proof. unfold refs. by rewrite map_filter_empty, map_size_empty. Qed.

Lemma refs_insert_None b (s : gmap positive handle) x h :
  s !! x = None →
  refs b (<[x := h]> s) =
    if decide (block_ h = Some b) then S (refs b s) else refs b s.
Proof.
  intros Hx. unfold refs. rewrite map_filter_insert. simpl.
  case_decide.
  - rewrite map_size_insert_None; [done|].
    rewrite map_lookup_filter_None. by left.
  - by rewrite delete_id.
Qed.

Lemma refs_delete_Some b (s : gmap positive handle) x h :
  s !! x = Some h →
  refs b s =
    if decide (block_ h = Some b) then S (refs b (delete x s)) else refs b (delete x s).
Proof.
  intros Hx. rewrite <- (insert_delete_id s x h Hx) at 1.
  apply refs_insert_None, lookup_delete_eq.
Qed.

Lemma refs_insert_Some b (s : gmap positive handle) x h h' :
  s !! x = Some h →
  (refs b (<[x := h']> s) + (if decide (block_ h = Some b) then 1 else 0) =
   refs b s + (if decide (block_ h' = Some b) then 1 else 0))%nat.
Proof.
  intros Hx. rewrite <- (insert_delete_eq s x h').
  rewrite refs_insert_None by apply lookup_delete_eq.
  rewrite (refs_delete_Some b s x h Hx).
  repeat case_decide; lia.
Qed.

Lemma refs_insert_same_block b (s : gmap positive handle) x h h' :
  s !! x = Some h → block_ h' = block_ h →
  refs b (<[x := h']> s) = refs b s.
Proof.
  intros Hx Hb. pose proof (refs_insert_Some b s x h h' Hx) as H.
  rewrite Hb in H. case_decide; lia.
Qed.

Lemma refs_pos b (s : gmap positive handle) x h :
  s !! x = Some h → block_ h = Some b → (0 < refs b s)%nat.
Proof.
  intros Hx Hb. rewrite (refs_delete_Some b s x h Hx).
  rewrite decide_True by done. lia.
Qed.

Lemma occurrences_cons e e' t :
  occurrences e (e' :: t) =
    if decide (e' = e) then S (occurrences e t) else occurrences e t.
Proof.
  unfold occurrences. rewrite filter_cons. by case_decide.
Qed.

Lemma occurrences_app e t1 t2 :
  occurrences e (t1 ++ t2) = (occurrences e t1 + occurrences e t2)%nat.
Proof. unfold occurrences. by rewrite filter_app, length_app. Qed.

(** ** Inversion of the monad *)

Lemma bind_Ok {A B} (c : M A) (k : A → M B) m b m' :
  bind c k m = Ok b m' → ∃ a m1, c m = Ok a m1 ∧ k a m1 = Ok b m'.
Proof. unfold bind. destruct (c m); [eauto | done | done]. Qed.

Lemma noexcept_Ok {A} (c : M A) m a m' :
  noexcept c m = Ok a m' → c m = Ok a m'.
Proof. unfold noexcept. by destruct (c m). Qed.

Lemma in_int_true z : in_int z = true ↔ -2147483648 ≤ z ≤ 2147483647.
Proof.
  unfold in_int, INT_MIN, INT_MAX. rewrite andb_true_iff, !Z.leb_le. tauto.
Qed.

Lemma size_t_of_int_id z : 0 ≤ z ≤ 2147483647 → size_t_of_int z = z.
Proof. intros H. unfold size_t_of_int. apply Z.mod_small. lia. Qed.

Lemma handle_eta h : {| ptr_ := ptr_ h; block_ := block_ h |} = h.
Proof. by destruct h. Qed.

Lemma set_variant_id cb : set_variant (variant cb) cb = cb.
Proof. by destruct cb. Qed.

Ltac unfold_monad :=
  unfold int_incr, int_decr, int_add, load_block, store_block, new_block,
    delete_block, get_shared, set_shared, init_shared, end_shared,
    get_weak, set_weak, init_weak, end_weak, temp_shared, temp_weak,
    emit, throw, undefined in *;
  unfold noexcept, bind, ret in *.

Ltac unfold_ops :=
  unfold new_holder, incr_shared_refs, decr_shared_refs,
    incr_weak_refs, decr_weak_refs, if_block, delete_if_unreferenced in *.

(** All the ways in which a run of primitive operations can return. *)
Ltac invert_ok :=
  unfold_ops; unfold_monad; simpl in *;
  repeat (case_match; simplify_eq/=); simplify_map_eq;
  repeat match goal with
  | H : in_int _ = true |- _ => apply in_int_true in H
  end.

(** IfNoShared leaves the counters alone and logs its call once. *)
Lemma IfNoShared_Ok b m u m' :
  IfNoShared b m = Ok u m' →
  ∃ cb v t,
    heap m !! b = Some cb ∧
    m' = with_trace (t ++ EvIfNoShared b :: trace m)
           (with_heap (<[b := set_variant v cb]> (heap m)) m) ∧
    ∀ b', occurrences (EvIfNoShared b') t = 0%nat ∧
          occurrences (EvDeleteBlock b') t = 0%nat.
Proof.
  intros H. unfold IfNoShared in H. invert_ok.
  - eexists _, _, []. by split_and!.
  - eexists _, _, [_]. by split_and!.
  - eexists _, _, [_]. by split_and!.
  - exists a, (variant a), [EvDestroyInPlace b]. split_and!; [done | | done].
    rewrite set_variant_id, insert_id by done. by destruct m0.
Qed.

Lemma extends_intro m m' :
  trace m `suffix_of` trace m' → (next m ≤ next m')%positive → extends m m'.
Proof. by split. Qed.

Lemma extends_refl m : extends m m.
Proof. by apply extends_intro. Qed.

Lemma extends_trans m1 m2 m3 : extends m1 m2 → extends m2 m3 → extends m1 m3.
Proof.
  intros [H1 L1] [H2 L2].
  apply extends_intro; [by transitivity (trace m2) | lia].
Qed.

Lemma step_gain_lose m m' : step_gain m m' → step_lose m m'.
Proof.
  intros (HI & HE & HG). split_and!; [done..|].
  intros b. destruct (HG b). lia.
Qed.

Lemma step_gain_trans m1 m2 m3 : step_gain m1 m2 → step_gain m2 m3 → step_gain m1 m3.
Proof.
  intros (_ & HE1 & HG1) (HI & HE2 & HG2).
  split_and!; [done | by eapply extends_trans |].
  intros b. destruct (HG1 b), (HG2 b). lia.
Qed.

Lemma step_gain_lose_trans m1 m2 m3 : step_gain m1 m2 → step_lose m2 m3 → step_lose m1 m3.
Proof.
  intros (_ & HE1 & HG1) (HI & HE2 & HG2).
  split_and!; [done | by eapply extends_trans |].
  intros b. destruct (HG1 b), (HG2 b) as (? & ? & ?). lia.
Qed.

Lemma Inv_live m b cb :
  Inv m → heap m !! b = Some cb →
  shared_refs cb = Z.of_nat (strong b m) ∧
  weak_refs cb = Z.of_nat (weak b m) ∧
  (0 < strong b m + weak b m)%nat ∧
  released b m = (if decide (strong b m = 0%nat) then 1%nat else 0%nat) ∧
  freed b m = 0%nat ∧
  (b < next m)%positive.
Proof.
  intros HI Hb. specialize (HI b). unfold block_inv in HI. by rewrite Hb in HI.
Qed.

Lemma Inv_dead m b :
  Inv m → heap m !! b = None →
  strong b m = 0%nat ∧ weak b m = 0%nat ∧
  released b m = (if decide (b < next m)%positive then 1%nat else 0%nat) ∧
  freed b m = (if decide (b < next m)%positive then 1%nat else 0%nat).
Proof.
  intros HI Hb. specialize (HI b). unfold block_inv in HI. by rewrite Hb in HI.
Qed.

(** No handle refers to a block that is not live. *)
Lemma Inv_shared_live m x h b :
  Inv m → sptrs m !! x = Some h → block_ h = Some b → is_Some (heap m !! b).
Proof.
  intros HI Hx Hb. destruct (heap m !! b) eqn:Hh; [done|].
  destruct (Inv_dead _ _ HI Hh) as (Hs & _).
  pose proof (refs_pos _ _ _ _ Hx Hb). unfold strong in Hs. lia.
Qed.

Lemma Inv_weak_live m x h b :
  Inv m → wptrs m !! x = Some h → block_ h = Some b → is_Some (heap m !! b).
Proof.
  intros HI Hx Hb. destruct (heap m !! b) eqn:Hh; [done|].
  destruct (Inv_dead _ _ HI Hh) as (_ & Hw & _).
  pose proof (refs_pos _ _ _ _ Hx Hb). unfold weak in Hw. lia.
Qed.

Ltac suffix_tac :=
  first [ reflexivity
        | apply suffix_cons_r; suffix_tac
        | apply suffix_app_r; suffix_tac ].

Ltac ext_goal :=
  apply extends_intro;
  [ cbn [trace with_sptrs with_wptrs with_heap with_trace]; suffix_tac
  | simpl; lia ].

(** Decide what the context decides. *)
Ltac settle_tac := solve [done | congruence | lia].
Ltac settle :=
  repeat match goal with
  | |- context [decide ?P] =>
      first [rewrite (decide_True (P:=P)) by settle_tac
            |rewrite (decide_False (P:=P)) by settle_tac]
  | H : context [decide ?P] |- _ =>
      first [rewrite (decide_True (P:=P)) in H by settle_tac
            |rewrite (decide_False (P:=P)) in H by settle_tac]
  end.

Ltac with_focus tac :=
  match goal with _ : focus ?b |- _ => tac b end.

Ltac inv_goal HI :=
  let Hb := fresh "Hb" in
  intros blk; assert (focus blk) by exact I;
  pose proof (HI blk) as Hb;
  unfold block_inv, strong, weak, released, freed in *; simpl in *;
  rewrite ?occurrences_cons, ?occurrences_app, ?occurrences_cons;
  repeat match goal with
  | H : ∀ b', occurrences _ ?t = _ ∧ occurrences _ ?t = _ |- _ =>
      match goal with
      | |- context [occurrences (_ blk) t] => destruct (H blk) as [-> ->]
      end
  end.

(** The facts of the invariant about the block that an operation works on. *)
Ltac live_facts HI :=
  try match goal with
  | Hh : heap _ !! ?p = Some _ |- _ =>
      let Hs := fresh "Hs" in let Hw := fresh "Hw" in
      let Hpos := fresh "Hpos" in let Hr := fresh "Hr" in
      let Hf := fresh "Hf" in let Hn := fresh "Hn" in
      destruct (Inv_live _ _ _ HI Hh) as (Hs & Hw & Hpos & Hr & Hf & Hn);
      unfold strong, weak, released, freed in Hs, Hw, Hpos, Hr, Hf
  end.

Ltac case_block p :=
  with_focus ltac:(fun b =>
    destruct (decide (b = p)) as [->|];
    [ rewrite ?lookup_delete_eq, ?lookup_insert_eq
    | rewrite ?lookup_delete_ne, ?lookup_insert_ne by done ]).

(** Rewriting the count of the focused block with a counting lemma. *)
Ltac count_deleted :=
  with_focus ltac:(fun b =>
    rewrite (refs_delete_Some b _ _ _ ltac:(eassumption)) in * ).
Ltac count_inserted :=
  with_focus ltac:(fun b =>
    rewrite (refs_insert_None b _ _ _ ltac:(eassumption)) in * ).

Ltac use_lookups :=
  repeat match goal with
  | Hh : heap ?m !! ?p = _, Hb : context [heap ?m !! ?p] |- _ =>
      rewrite Hh in Hb
  end.

Ltac close := use_lookups; simpl in *; settle; simpl; try done; try lia; try (split_and!; (done || lia)).

Lemma SharedPtr_dtor_step this m m' :
  Inv m → SharedPtr_dtor this m = Ok tt m' → step_lose m m'.
Proof.
  intros HI H. unfold SharedPtr_dtor in H. invert_ok.
  all: repeat match goal with
       | H : IfNoShared _ _ = Ok _ _ |- _ =>
           apply IfNoShared_Ok in H as (? & ? & ? & ? & -> & ?)
       end; simplify_map_eq.
  all: live_facts HI.
  all: (split; [ | split; [ext_goal | ] ]).
  all: inv_goal HI; count_deleted.
  all: try match goal with _ : block_ _ = Some ?p |- _ => case_block p end.
  all: try count_deleted; close.
Qed.

Lemma WeakPtr_dtor_step this m m' :
  Inv m → WeakPtr_dtor this m = Ok tt m' → step_lose m m'.
Proof.
  intros HI H. unfold WeakPtr_dtor in H. invert_ok.
  all: live_facts HI.
  all: (split; [ | split; [ext_goal | ] ]).
  all: inv_goal HI; count_deleted.
  all: try match goal with _ : block_ _ = Some ?p |- _ => case_block p end.
  all: try count_deleted; close.
Qed.

Lemma SharedPtr_default_step this m m' :
  Inv m → SharedPtr_default this m = Ok tt m' → step_gain m m'.
Proof.
  intros HI H. unfold SharedPtr_default in H. invert_ok.
  split; [ | split; [ext_goal | ] ].
  all: inv_goal HI; count_inserted; close.
Qed.

Lemma WeakPtr_default_step this m m' :
  Inv m → WeakPtr_default this m = Ok tt m' → step_gain m m'.
Proof.
  intros HI H. unfold WeakPtr_default in H. invert_ok.
  split; [ | split; [ext_goal | ] ].
  all: inv_goal HI; count_inserted; close.
Qed.

(** A new reference to the block of an existing handle. *)
Ltac acquire_tac HI :=
  invert_ok;
  live_facts HI;
  try match goal with
  | Hx : _ !! _ = Some ?h, Hb : block_ ?h = Some _ |- _ =>
      pose proof (refs_pos _ _ _ _ Hx Hb)
  end;
  (split; [ | split; [ext_goal | ] ]);
  inv_goal HI; count_inserted;
  try match goal with _ : block_ _ = Some ?p |- _ => case_block p end;
  close.

Lemma SharedPtr_copy_step this other m m' :
  Inv m → SharedPtr_copy this other m = Ok tt m' → step_gain m m'.
Proof. intros HI H. unfold SharedPtr_copy in H. acquire_tac HI. Qed.

Lemma SharedPtr_alias_step this other ptr m m' :
  Inv m → SharedPtr_alias this other ptr m = Ok tt m' → step_gain m m'.
Proof. intros HI H. unfold SharedPtr_alias in H. acquire_tac HI. Qed.

Lemma WeakPtr_copy_step this other m m' :
  Inv m → WeakPtr_copy this other m = Ok tt m' → step_gain m m'.
Proof. intros HI H. unfold WeakPtr_copy in H. acquire_tac HI. Qed.

Lemma WeakPtr_from_shared_step this other m m' :
  Inv m → WeakPtr_from_shared this other m = Ok tt m' → step_gain m m'.
Proof. intros HI H. unfold WeakPtr_from_shared in H. acquire_tac HI. Qed.

(** Two stores are equal when they agree at every name. *)
Ltac store_eq :=
  unfold with_sptrs, with_wptrs; simpl; f_equal;
  apply map_eq; intros ?;
  rewrite ?lookup_insert, ?lookup_delete;
  repeat (case_decide; simplify_eq/=); rewrite ?handle_eta; try done.

Lemma SharedPtr_move_Ok this other m m' :
  SharedPtr_move this other m = Ok tt m' →
  ∃ o, sptrs m !! other = Some o ∧ sptrs m !! this = None ∧
       m' = with_sptrs (<[other := empty_handle]> (<[this := o]> (sptrs m))) m.
Proof.
  intros H. unfold SharedPtr_move in H. invert_ok.
  eexists. split_and!; [done..|]. store_eq.
Qed.

Lemma SharedPtr_Swap_Ok this other m m' :
  SharedPtr_Swap this other m = Ok tt m' →
  ∃ t o, sptrs m !! this = Some t ∧ sptrs m !! other = Some o ∧
       m' = with_sptrs (<[other := t]> (<[this := o]> (sptrs m))) m.
Proof.
  intros H. unfold SharedPtr_Swap in H. invert_ok.
  destruct (decide (this = other)) as [->|Hne]; simplify_map_eq.
  - eexists _, _. split_and!; [done..|]. store_eq.
  - eexists _, _. split_and!; [done..|]. store_eq.
Qed.

Lemma WeakPtr_move_Ok this other m m' :
  WeakPtr_move this other m = Ok tt m' →
  ∃ o, wptrs m !! other = Some o ∧ wptrs m !! this = None ∧
       m' = with_wptrs (<[other := empty_handle]> (<[this := o]> (wptrs m))) m.
Proof.
  intros H. unfold WeakPtr_move in H. invert_ok.
  eexists. split_and!; [done..|]. store_eq.
Qed.

Lemma WeakPtr_Swap_Ok this other m m' :
  WeakPtr_Swap this other m = Ok tt m' →
  ∃ t o, wptrs m !! this = Some t ∧ wptrs m !! other = Some o ∧
       m' = with_wptrs (<[other := t]> (<[this := o]> (wptrs m))) m.
Proof.
  intros H. unfold WeakPtr_Swap in H. invert_ok.
  destruct (decide (this = other)) as [->|Hne]; simplify_map_eq.
  - eexists _, _. split_and!; [done..|]. store_eq.
  - eexists _, _. split_and!; [done..|]. store_eq.
Qed.

Lemma refs_move b (s : gmap positive handle) this other o :
  s !! other = Some o → s !! this = None →
  refs b (<[other := empty_handle]> (<[this := o]> s)) = refs b s.
Proof.
  intros Ho Ht. assert (other ≠ this) by congruence.
  pose proof (refs_insert_Some b (<[this := o]> s) other o empty_handle) as H1.
  rewrite lookup_insert_ne in H1 by done. specialize (H1 Ho).
  rewrite (refs_insert_None b s this o Ht) in H1. simpl in H1.
  repeat case_decide; simplify_eq; lia.
Qed.

Lemma refs_swap b (s : gmap positive handle) this other t o :
  s !! this = Some t → s !! other = Some o →
  refs b (<[other := t]> (<[this := o]> s)) = refs b s.
Proof.
  intros Ht Ho. destruct (decide (this = other)) as [->|Hne].
  - simplify_eq. by rewrite insert_insert_eq, insert_id.
  - pose proof (refs_insert_Some b (<[this := o]> s) other o t) as H1.
    rewrite lookup_insert_ne in H1 by done. specialize (H1 Ho).
    pose proof (refs_insert_Some b s this t o Ht) as H2.
    repeat case_decide; simplify_eq; lia.
Qed.

(** Moving and swapping leave every count as it is. *)
Lemma same_counts_step m m' :
  Inv m →
  heap m' = heap m → next m' = next m → trace m' = trace m →
  (∀ b, refs b (sptrs m') = refs b (sptrs m)) →
  (∀ b, refs b (wptrs m') = refs b (wptrs m)) →
  step_gain m m'.
Proof.
  intros HI Hh Hn Ht Hs Hw. split; [|split].
  - intros b. specialize (HI b).
    unfold block_inv, strong, weak, released, freed in *.
    by rewrite Hh, Hn, Ht, Hs, Hw.
  - apply extends_intro; [by rewrite Ht | lia].
  - intros b. unfold strong, weak. rewrite Hs, Hw. lia.
Qed.

Lemma SharedPtr_move_step this other m m' :
  Inv m → SharedPtr_move this other m = Ok tt m' → step_gain m m'.
Proof.
  intros HI (o & Ho & Ht & ->)%SharedPtr_move_Ok.
  apply same_counts_step; try done. intros b. by apply refs_move.
Qed.

Lemma SharedPtr_Swap_step this other m m' :
  Inv m → SharedPtr_Swap this other m = Ok tt m' → step_gain m m'.
Proof.
  intros HI (t & o & Ho & Ht & ->)%SharedPtr_Swap_Ok.
  apply same_counts_step; try done. intros b. by apply refs_swap.
Qed.

Lemma WeakPtr_move_step this other m m' :
  Inv m → WeakPtr_move this other m = Ok tt m' → step_gain m m'.
Proof.
  intros HI (o & Ho & Ht & ->)%WeakPtr_move_Ok.
  apply same_counts_step; try done. intros b. by apply refs_move.
Qed.

Lemma WeakPtr_Swap_step this other m m' :
  Inv m → WeakPtr_Swap this other m = Ok tt m' → step_gain m m'.
Proof.
  intros HI (t & o & Ho & Ht & ->)%WeakPtr_Swap_Ok.
  apply same_counts_step; try done. intros b. by apply refs_swap.
Qed.

Lemma Inv_next_fresh m : Inv m → heap m !! next m = None.
Proof.
  intros HI. destruct (heap m !! next m) eqn:Hh; [|done].
  destruct (Inv_live _ _ _ HI Hh) as (_ & _ & _ & _ & _ & ?). lia.
Qed.

Ltac fresh_block HI :=
  let Hfresh := fresh "Hfresh" in
  pose proof (Inv_next_fresh _ HI) as Hfresh;
  let Hs := fresh "Hs" in let Hw := fresh "Hw" in
  let Hr := fresh "Hr" in let Hf := fresh "Hf" in
  destruct (Inv_dead _ _ HI Hfresh) as (Hs & Hw & Hr & Hf);
  unfold strong, weak, released, freed in Hs, Hw, Hr, Hf.

(** The allocation counter moves on. *)
Ltac renumber :=
  try match goal with
  | |- context [heap ?m !! ?b] => destruct (heap m !! b)
  end;
  repeat case_decide; try lia; try (intuition lia).

Lemma SharedPtr_from_raw_step this ptr m m' :
  Inv m → SharedPtr_from_raw this ptr m = Ok tt m' → step_gain m m'.
Proof.
  intros HI H. unfold SharedPtr_from_raw in H. invert_ok.
  fresh_block HI.
  split; [ | split; [ext_goal | ] ].
  all: inv_goal HI; count_inserted.
  all: case_block (next m).
  all: close.
  all: renumber.
Qed.

Lemma MakeShared_step result m m' :
  Inv m → MakeShared result m = Ok tt m' → step_gain m m'.
Proof.
  intros HI H. unfold MakeShared, SharedPtr_from_raw_block, Holder_Get in H.
  invert_ok.
  fresh_block HI.
  split; [ | split; [ext_goal | ] ].
  all: inv_goal HI; count_inserted.
  all: case_block (next m).
  all: close.
  all: renumber.
Qed.

Lemma size_t_of_int_zero z :
  -2147483648 ≤ z ≤ 2147483647 → size_t_of_int z = 0 → z = 0.
Proof.
  unfold size_t_of_int. intros Hz H.
  apply Z.mod_divide in H; [|lia]. destruct H as [k Hk]. lia.
Qed.

Lemma WeakPtr_Expired_Ok w m e m' :
  WeakPtr_Expired w m = Ok e m' →
  m' = m ∧ ∃ h, wptrs m !! w = Some h ∧
    match block_ h with
    | Some b => ∃ cb, heap m !! b = Some cb ∧
                 e = bool_decide (size_t_of_int (shared_refs cb) = 0)
    | None => e = true
    end.
Proof.
  intros H. unfold WeakPtr_Expired, WeakPtr_UseCount in H. invert_ok.
  all: split; [done|]; eexists; split; [done|].
  all: repeat case_match; simplify_eq; eauto.
Qed.

Lemma SharedPtr_from_weak_step this other m m' :
  Inv m → SharedPtr_from_weak this other m = Ok tt m' → step_gain m m'.
Proof.
  intros HI H. unfold SharedPtr_from_weak in H.
  apply bind_Ok in H as (e & m1 & (-> & h & Hw & He)%WeakPtr_Expired_Ok & H).
  destruct e; [done|].
  destruct (block_ h) as [b|] eqn:Hb; [|done].
  destruct He as (cb & Hcb & He). symmetry in He. apply bool_decide_eq_false in He.
  invert_ok.
  live_facts HI.
  match goal with
  | Hs : shared_refs _ = Z.of_nat (refs b (sptrs ?m0)) |- _ =>
      assert (refs b (sptrs m0) ≠ 0%nat)
        by (intros Hz; apply He; rewrite Hs, Hz; done)
  end.
  split; [ | split; [ext_goal | ] ].
  all: inv_goal HI; count_inserted.
  all: case_block b.
  all: close.
Qed.

(** ** Composite operations and statements *)

Ltac chain :=
  repeat match goal with
  | H : noexcept _ _ = Ok _ _ |- _ => apply noexcept_Ok in H
  | H : bind _ _ _ = Ok _ _ |- _ =>
      let H1 := fresh "Hstep" in
      apply bind_Ok in H as (? & ? & H1 & H)
  | u : unit |- _ => destruct u
  | H : temp_shared _ = Ok _ _ |- _ => unfold temp_shared in H; simplify_eq
  | H : temp_weak _ = Ok _ _ |- _ => unfold temp_weak in H; simplify_eq
  | H : get_shared _ _ = Ok _ _ |- _ =>
      unfold get_shared in H; case_match; simplify_eq
  | H : get_weak _ _ = Ok _ _ |- _ =>
      unfold get_weak in H; case_match; simplify_eq
  end.

Lemma construct_swap_destroy_step m m1 m2 m' :
  step_gain m m1 → step_gain m1 m2 → step_lose m2 m' → step_lose m m'.
Proof.
  intros S1 S2 S3.
  exact (step_gain_lose_trans _ _ _ (step_gain_trans _ _ _ S1 S2) S3).
Qed.

(** The step of a constructor, from the equation of its run. *)
Ltac gain_of HI H S :=
  first
    [ pose proof (SharedPtr_default_step _ _ _ HI H) as S
    | pose proof (SharedPtr_from_raw_step _ _ _ _ HI H) as S
    | pose proof (SharedPtr_copy_step _ _ _ _ HI H) as S
    | pose proof (SharedPtr_move_step _ _ _ _ HI H) as S
    | pose proof (WeakPtr_default_step _ _ _ HI H) as S
    | pose proof (WeakPtr_copy_step _ _ _ _ HI H) as S
    | pose proof (WeakPtr_move_step _ _ _ _ HI H) as S
    | pose proof (WeakPtr_from_shared_step _ _ _ _ HI H) as S ].

(** Construct a temporary, swap it with the object, destroy it. *)
Ltac construct_swap_destroy HI :=
  chain;
  match goal with
  | Hs : SharedPtr_Swap _ _ ?m1 = Ok () ?m2,
    Hd : SharedPtr_dtor _ ?m2 = Ok () _,
    Hc : _ = Ok () ?m1 |- _ =>
      let S1 := fresh "S" in let S2 := fresh "S" in let S3 := fresh "S" in
      gain_of HI Hc S1;
      pose proof (SharedPtr_Swap_step _ _ _ _ (proj1 S1) Hs) as S2;
      pose proof (SharedPtr_dtor_step _ _ _ (proj1 S2) Hd) as S3;
      exact (construct_swap_destroy_step _ _ _ _ S1 S2 S3)
  | Hs : WeakPtr_Swap _ _ ?m1 = Ok () ?m2,
    Hd : WeakPtr_dtor _ ?m2 = Ok () _,
    Hc : _ = Ok () ?m1 |- _ =>
      let S1 := fresh "S" in let S2 := fresh "S" in let S3 := fresh "S" in
      gain_of HI Hc S1;
      pose proof (WeakPtr_Swap_step _ _ _ _ (proj1 S1) Hs) as S2;
      pose proof (WeakPtr_dtor_step _ _ _ (proj1 S2) Hd) as S3;
      exact (construct_swap_destroy_step _ _ _ _ S1 S2 S3)
  end.

Lemma SharedPtr_assign_step this other m m' :
  Inv m → SharedPtr_assign this other m = Ok tt m' → step_lose m m'.
Proof. intros HI H. unfold SharedPtr_assign in H. construct_swap_destroy HI. Qed.

Lemma SharedPtr_move_assign_step this other m m' :
  Inv m → SharedPtr_move_assign this other m = Ok tt m' → step_lose m m'.
Proof. intros HI H. unfold SharedPtr_move_assign in H. construct_swap_destroy HI. Qed.

Lemma SharedPtr_Reset_step this m m' :
  Inv m → SharedPtr_Reset this m = Ok tt m' → step_lose m m'.
Proof. intros HI H. unfold SharedPtr_Reset in H. construct_swap_destroy HI. Qed.

Lemma SharedPtr_Reset_ptr_step this ptr m m' :
  Inv m → SharedPtr_Reset_ptr this ptr m = Ok tt m' → step_lose m m'.
Proof. intros HI H. unfold SharedPtr_Reset_ptr in H. construct_swap_destroy HI. Qed.

Lemma WeakPtr_assign_step this other m m' :
  Inv m → WeakPtr_assign this other m = Ok tt m' → step_lose m m'.
Proof. intros HI H. unfold WeakPtr_assign in H. construct_swap_destroy HI. Qed.

Lemma WeakPtr_move_assign_step this other m m' :
  Inv m → WeakPtr_move_assign this other m = Ok tt m' → step_lose m m'.
Proof. intros HI H. unfold WeakPtr_move_assign in H. construct_swap_destroy HI. Qed.

Lemma WeakPtr_assign_shared_step this sptr m m' :
  Inv m → WeakPtr_assign_shared this sptr m = Ok tt m' → step_lose m m'.
Proof. intros HI H. unfold WeakPtr_assign_shared in H. construct_swap_destroy HI. Qed.

Lemma WeakPtr_Reset_step this m m' :
  Inv m → WeakPtr_Reset this m = Ok tt m' → step_lose m m'.
Proof. intros HI H. unfold WeakPtr_Reset in H. construct_swap_destroy HI. Qed.

Lemma WeakPtr_Lock_step result this m m' :
  Inv m → WeakPtr_Lock result this m = Ok tt m' → step_gain m m'.
Proof.
  intros HI H. unfold WeakPtr_Lock in H. chain.
  apply WeakPtr_Expired_Ok in Hstep as (-> & _).
  destruct x.
  - by eapply SharedPtr_default_step.
  - by eapply SharedPtr_from_weak_step.
Qed.

(** Every statement keeps the invariant. *)
Lemma exec_step s m m' : Inv m → exec s m = Ok tt m' → step_lose m m'.
Proof.
  intros HI H. destruct s; simpl in H.
  - by eapply step_gain_lose, SharedPtr_default_step.
  - by eapply step_gain_lose, SharedPtr_from_raw_step.
  - by eapply step_gain_lose, MakeShared_step.
  - by eapply step_gain_lose, SharedPtr_copy_step.
  - by eapply step_gain_lose, SharedPtr_move_step.
  - by eapply step_gain_lose, SharedPtr_alias_step.
  - by eapply step_gain_lose, SharedPtr_from_weak_step.
  - by eapply step_gain_lose, WeakPtr_Lock_step.
  - by eapply SharedPtr_assign_step.
  - by eapply SharedPtr_move_assign_step.
  - by eapply SharedPtr_Reset_step.
  - by eapply SharedPtr_Reset_ptr_step.
  - by eapply step_gain_lose, SharedPtr_Swap_step.
  - by eapply SharedPtr_dtor_step.
  - by eapply step_gain_lose, WeakPtr_default_step.
  - by eapply step_gain_lose, WeakPtr_copy_step.
  - by eapply step_gain_lose, WeakPtr_move_step.
  - by eapply step_gain_lose, WeakPtr_from_shared_step.
  - by eapply WeakPtr_assign_step.
  - by eapply WeakPtr_move_assign_step.
  - by eapply WeakPtr_assign_shared_step.
  - by eapply WeakPtr_Reset_step.
  - by eapply step_gain_lose, WeakPtr_Swap_step.
  - by eapply WeakPtr_dtor_step.
Qed.

Lemma Inv_init mem : Inv (init mem).
Proof.
  intros b. unfold block_inv, strong, weak, released, freed. simpl.
  rewrite lookup_empty, !refs_empty.
  rewrite decide_False by lia. done.
Qed.

Lemma run_Inv p m m' : Inv m → run p m = Ok tt m' → Inv m'.
Proof.
  revert m. induction p as [|s p IH]; intros m HI H; simpl in H.
  - unfold ret in H. by simplify_eq.
  - apply bind_Ok in H as ([] & m1 & Hs & H).
    apply (IH m1); [|done]. by apply (exec_step s m m1).
Qed.

Lemma run_app p q m m' :
  run (p ++ q) m = Ok tt m' ↔ ∃ m1, run p m = Ok tt m1 ∧ run q m1 = Ok tt m'.
Proof.
  revert m. induction p as [|s p IH]; intros m; simpl.
  - unfold ret. split; [eauto|]. by intros (m1 & [= <-] & H).
  - split.
    + intros ([] & m1 & Hs & (m2 & H1 & H2)%IH)%bind_Ok.
      exists m2. split; [|done]. unfold bind. by rewrite Hs.
    + intros (m2 & ([] & m1 & Hs & H1)%bind_Ok & H2).
      unfold bind. rewrite Hs. apply IH. eauto.
Qed.

(** A run through the statement [s] stops between any two statements. *)
Lemma run_split pre s post m m' :
  run (pre ++ s :: post) m = Ok tt m' →
  ∃ m1 m2, run pre m = Ok tt m1 ∧ exec s m1 = Ok tt m2 ∧ run post m2 = Ok tt m'.
Proof.
  intros (m1 & Hpre & H)%run_app. simpl in H.
  apply bind_Ok in H as ([] & m2 & Hs & Hpost). eauto.
Qed.

(** ** Operations that do not allocate *)

Lemma keeps_next_ret {A} (a : A) : keeps_next (ret a).
Proof. by intros m a' m' [= _ <-]. Qed.

Lemma keeps_next_bind {A B} (c : M A) (k : A → M B) :
  keeps_next c → (∀ a, keeps_next (k a)) → keeps_next (bind c k).
Proof.
  intros Hc Hk m b m' (a & m1 & H1 & H2)%bind_Ok.
  rewrite (Hk _ _ _ _ H2). by eapply Hc.
Qed.

Lemma keeps_next_noexcept {A} (c : M A) : keeps_next c → keeps_next (noexcept c).
Proof. intros Hc m a m' H%noexcept_Ok. by eapply Hc. Qed.

Ltac keeps_prim :=
  let m := fresh "m" in
  intros m ? ?; unfold_monad; intros; repeat case_match; by simplify_eq/=.

Lemma keeps_next_load_block b : keeps_next (load_block b).
Proof. keeps_prim. Qed.
Lemma keeps_next_store_block b cb : keeps_next (store_block b cb).
Proof. keeps_prim. Qed.
Lemma keeps_next_delete_block b : keeps_next (delete_block b).
Proof. keeps_prim. Qed.
Lemma keeps_next_emit e : keeps_next (emit e).
Proof. keeps_prim. Qed.
Lemma keeps_next_int_incr x : keeps_next (int_incr x).
Proof. keeps_prim. Qed.
Lemma keeps_next_int_decr x : keeps_next (int_decr x).
Proof. keeps_prim. Qed.
Lemma keeps_next_int_add x y : keeps_next (int_add x y).
Proof. keeps_prim. Qed.
Lemma keeps_next_get_shared x : keeps_next (get_shared x).
Proof. keeps_prim. Qed.
Lemma keeps_next_set_shared x h : keeps_next (set_shared x h).
Proof. keeps_prim. Qed.
Lemma keeps_next_init_shared x h : keeps_next (init_shared x h).
Proof. keeps_prim. Qed.
Lemma keeps_next_end_shared x : keeps_next (end_shared x).
Proof. keeps_prim. Qed.
Lemma keeps_next_get_weak x : keeps_next (get_weak x).
Proof. keeps_prim. Qed.
Lemma keeps_next_set_weak x h : keeps_next (set_weak x h).
Proof. keeps_prim. Qed.
Lemma keeps_next_init_weak x h : keeps_next (init_weak x h).
Proof. keeps_prim. Qed.
Lemma keeps_next_end_weak x : keeps_next (end_weak x).
Proof. keeps_prim. Qed.
Lemma keeps_next_temp_shared : keeps_next temp_shared.
Proof. keeps_prim. Qed.
Lemma keeps_next_temp_weak : keeps_next temp_weak.
Proof. keeps_prim. Qed.
Lemma keeps_next_throw {A} e : keeps_next (@throw A e).
Proof. keeps_prim. Qed.

Create HintDb keeps.
#[local] Hint Resolve keeps_next_ret keeps_next_load_block keeps_next_store_block
  keeps_next_delete_block keeps_next_emit keeps_next_int_incr
  keeps_next_int_decr keeps_next_int_add keeps_next_get_shared
  keeps_next_set_shared keeps_next_init_shared keeps_next_end_shared
  keeps_next_get_weak keeps_next_set_weak keeps_next_init_weak
  keeps_next_end_weak keeps_next_temp_shared keeps_next_temp_weak
  keeps_next_throw : keeps.

Ltac keeps_op :=
  repeat first
    [ apply keeps_next_noexcept
    | apply keeps_next_bind; [|intros ?]
    | solve [auto with keeps]
    | case_match
    | case_decide ].

Lemma keeps_next_exec s :
  (∀ x p, s ≠ SFromRaw x p) → (∀ x, s ≠ SMake x) → (∀ x p, s ≠ SResetPtr x p) →
  keeps_next (exec s).
Proof.
  intros H1 H2 H3. destruct s; simpl;
    try (by destruct (H1 _ _ eq_refl)); try (by destruct (H2 _ eq_refl));
    try (by destruct (H3 _ _ eq_refl)).
  all: unfold SharedPtr_default, SharedPtr_copy, SharedPtr_move, SharedPtr_alias,
    SharedPtr_from_weak, WeakPtr_Lock, SharedPtr_assign, SharedPtr_move_assign,
    SharedPtr_Reset, SharedPtr_Swap, SharedPtr_dtor, WeakPtr_default,
    WeakPtr_copy, WeakPtr_move, WeakPtr_from_shared, WeakPtr_assign,
    WeakPtr_move_assign, WeakPtr_assign_shared, WeakPtr_Reset, WeakPtr_Swap,
    WeakPtr_dtor, SharedPtr_from_weak, SharedPtr_default, WeakPtr_Expired,
    WeakPtr_UseCount, SharedPtr_copy, SharedPtr_move, SharedPtr_Swap,
    SharedPtr_dtor, WeakPtr_default, WeakPtr_copy, WeakPtr_move,
    WeakPtr_from_shared, WeakPtr_Swap, WeakPtr_dtor, IfNoShared;
    unfold_ops.
  all: keeps_op.
Qed.

(** ** Blocks that a statement allocates *)

Lemma SharedPtr_dtor_store this m m' :
  SharedPtr_dtor this m = Ok tt m' →
  sptrs m' = delete this (sptrs m) ∧ next m' = next m.
Proof.
  intros H. unfold SharedPtr_dtor in H. invert_ok.
  all: repeat match goal with
       | H : IfNoShared _ _ = Ok _ _ |- _ =>
           apply IfNoShared_Ok in H as (? & ? & ? & ? & -> & ?)
       end; simplify_map_eq; done.
Qed.

Lemma SharedPtr_from_raw_store this ptr m m' :
  SharedPtr_from_raw this ptr m = Ok tt m' →
  sptrs m' = <[this := {| ptr_ := ptr; block_ := Some (next m) |}]> (sptrs m) ∧
  sptrs m !! this = None ∧
  next m' = Pos.succ (next m).
Proof. intros H. unfold SharedPtr_from_raw in H. by invert_ok. Qed.

Lemma MakeShared_store this m m' :
  MakeShared this m = Ok tt m' →
  sptrs m' =
    <[this := {| ptr_ := StoragePtr (next m); block_ := Some (next m) |}]> (sptrs m) ∧
  next m' = Pos.succ (next m).
Proof.
  intros H. unfold MakeShared, SharedPtr_from_raw_block, Holder_Get in H.
  by invert_ok.
Qed.

(** A block that a statement allocates is referred to by a SharedPtr when
    the statement is over. *)
Lemma exec_fresh s m m' b :
  exec s m = Ok tt m' →
  (next m ≤ b)%positive → (b < next m')%positive → (0 < strong b m')%nat.
Proof.
  intros H Hge Hlt.
  destruct s;
    try (match type of H with
         | exec ?s _ = _ =>
             pose proof (keeps_next_exec s ltac:(intros; discriminate)
                           ltac:(intros; discriminate) ltac:(intros; discriminate)
                           _ _ _ H)
         end; lia);
    simpl in H.
  - apply SharedPtr_from_raw_store in H as (Hs & _ & Hn).
    assert (b = next m) as -> by lia.
    unfold strong. rewrite Hs. eapply refs_pos; [apply lookup_insert_eq | done].
  - apply MakeShared_store in H as (Hs & Hn).
    assert (b = next m) as -> by lia.
    unfold strong. rewrite Hs. eapply refs_pos; [apply lookup_insert_eq | done].
  - unfold SharedPtr_Reset_ptr in H. chain.
    match goal with
    | H : SharedPtr_from_raw ?t _ ?m0 = _ |- _ =>
        set (tmp := t) in *; rename m0 into m
    end.
    match goal with
    | H : SharedPtr_from_raw _ _ _ = _ |- _ =>
        apply SharedPtr_from_raw_store in H as (Hs1 & Hfresh & Hn1)
    end.
    match goal with
    | H : SharedPtr_Swap _ _ _ = _ |- _ =>
        apply SharedPtr_Swap_Ok in H as (t & o & Ht & Ho & ->)
    end.
    apply SharedPtr_dtor_store in H as (Hs3 & Hn3). simpl in *.
    assert (b = next m) as -> by lia.
    assert (tmp ≠ x) as Hne by congruence.
    rewrite Hs1, lookup_insert_eq in Ht. simplify_eq.
    unfold strong. rewrite Hs3.
    eapply (refs_pos _ _ x {| ptr_ := p; block_ := Some (next m) |}); [|done].
    rewrite lookup_delete_ne by exact Hne. apply lookup_insert_eq.
Qed.

(** A statement releases and deletes no block that did not exist before. *)
Lemma exec_unborn s m m' b :
  Inv m → exec s m = Ok tt m' → (next m ≤ b)%positive →
  released b m' = 0%nat ∧ freed b m' = 0%nat ∧ strong b m = 0%nat ∧
  weak b m = 0%nat ∧ released b m = 0%nat ∧ freed b m = 0%nat.
Proof.
  intros HI H Hge.
  pose proof (exec_step _ _ _ HI H) as (HI' & _ & _).
  assert (heap m !! b = None) as Hd.
  { destruct (heap m !! b) eqn:Hh; [|done].
    destruct (Inv_live _ _ _ HI Hh) as (_ & _ & _ & _ & _ & ?). lia. }
  destruct (Inv_dead _ _ HI Hd) as (-> & -> & -> & ->).
  rewrite decide_False by lia.
  destruct (heap m' !! b) eqn:Hh'.
  - destruct (Inv_live _ _ _ HI' Hh') as (_ & _ & _ & -> & -> & Hlt).
    pose proof (exec_fresh _ _ _ _ H Hge Hlt).
    rewrite decide_False by lia. done.
  - destruct (Inv_dead _ _ HI' Hh') as (Hs' & _ & -> & ->).
    destruct (decide (b < next m')%positive) as [Hlt|]; [|done].
    pose proof (exec_fresh _ _ _ _ H Hge Hlt). lia.
Qed.

(** ** Accounting of releases and deletions *)

Lemma occurrences_suffix e t t' :
  t `suffix_of` t' → (occurrences e t ≤ occurrences e t')%nat.
Proof. intros [k ->]. rewrite occurrences_app. lia. Qed.

Lemma Inv_released_le m b : Inv m → (released b m ≤ 1)%nat.
Proof.
  intros HI. destruct (heap m !! b) eqn:Hh.
  - destruct (Inv_live _ _ _ HI Hh) as (_ & _ & _ & -> & _). case_decide; lia.
  - destruct (Inv_dead _ _ HI Hh) as (_ & _ & -> & _). case_decide; lia.
Qed.

Lemma Inv_freed_le m b : Inv m → (freed b m ≤ 1)%nat.
Proof.
  intros HI. destruct (heap m !! b) eqn:Hh.
  - destruct (Inv_live _ _ _ HI Hh) as (_ & _ & _ & _ & -> & _). lia.
  - destruct (Inv_dead _ _ HI Hh) as (_ & _ & _ & ->). case_decide; lia.
Qed.

(** The object of a block that existed before a step is released by the
    step iff the step takes the number of its SharedPtr from 1 to 0. *)
Lemma released_old m m' b :
  Inv m → step_lose m m' → (b < next m)%positive →
  released b m' =
    (released b m + if decide (strong b m = 1 ∧ strong b m' = 0)%nat then 1 else 0)%nat.
Proof.
  intros HI (HI' & [Ht Hn] & HL) Hb.
  pose proof (occurrences_suffix (EvDeleteBlock b) _ _ Ht) as Hfm.
  fold (freed b m) in Hfm. fold (freed b m') in Hfm.
  destruct (HL b) as (Hs & _ & _).
  destruct (heap m !! b) eqn:Hh, (heap m' !! b) eqn:Hh'.
  - destruct (Inv_live _ _ _ HI Hh) as (_ & _ & _ & -> & _).
    destruct (Inv_live _ _ _ HI' Hh') as (_ & _ & _ & -> & _).
    pose proof (occurrences_suffix (EvIfNoShared b) _ _ Ht) as Hrm.
    fold (released b m) in Hrm. fold (released b m') in Hrm.
    destruct (Inv_live _ _ _ HI Hh) as (_ & _ & _ & Hr & _).
    destruct (Inv_live _ _ _ HI' Hh') as (_ & _ & _ & Hr' & _).
    rewrite Hr, Hr' in Hrm.
    repeat case_decide; lia.
  - destruct (Inv_live _ _ _ HI Hh) as (_ & _ & _ & -> & _).
    destruct (Inv_dead _ _ HI' Hh') as (Hs' & _ & -> & _).
    repeat case_decide; lia.
  - destruct (Inv_dead _ _ HI Hh) as (_ & _ & _ & Hf).
    destruct (Inv_live _ _ _ HI' Hh') as (_ & _ & _ & _ & Hf' & _).
    rewrite decide_True in Hf by done. lia.
  - destruct (Inv_dead _ _ HI Hh) as (Hs0 & _ & -> & _).
    destruct (Inv_dead _ _ HI' Hh') as (_ & _ & -> & _).
    repeat case_decide; lia.
Qed.

(** A block that existed before a step is deleted by the step iff the
    step takes the number of its handles from 1 to 0. *)
Lemma freed_old m m' b :
  Inv m → step_lose m m' → (b < next m)%positive →
  freed b m' =
    (freed b m +
     if decide (strong b m + weak b m = 1 ∧ strong b m' + weak b m' = 0)%nat
     then 1 else 0)%nat.
Proof.
  intros HI (HI' & [Ht Hn] & HL) Hb.
  pose proof (occurrences_suffix (EvDeleteBlock b) _ _ Ht) as Hfm.
  fold (freed b m) in Hfm. fold (freed b m') in Hfm.
  destruct (HL b) as (_ & _ & Hsw).
  destruct (heap m !! b) eqn:Hh, (heap m' !! b) eqn:Hh'.
  - destruct (Inv_live _ _ _ HI Hh) as (_ & _ & ? & _ & -> & _).
    destruct (Inv_live _ _ _ HI' Hh') as (_ & _ & ? & _ & -> & _).
    repeat case_decide; lia.
  - destruct (Inv_live _ _ _ HI Hh) as (_ & _ & ? & _ & -> & _).
    destruct (Inv_dead _ _ HI' Hh') as (? & ? & _ & ->).
    repeat case_decide; lia.
  - destruct (Inv_dead _ _ HI Hh) as (_ & _ & _ & Hf).
    destruct (Inv_live _ _ _ HI' Hh') as (_ & _ & _ & _ & Hf' & _).
    rewrite decide_True in Hf by done. lia.
  - destruct (Inv_dead _ _ HI Hh) as (? & ? & _ & ->).
    destruct (Inv_dead _ _ HI' Hh') as (? & ? & _ & ->).
    repeat case_decide; lia.
Qed.

(** The same for every block identity, since a statement neither releases
    nor deletes a block that it has allocated itself. *)
Lemma released_step s m m' b :
  Inv m → exec s m = Ok tt m' →
  released b m' =
    (released b m + if decide (strong b m = 1 ∧ strong b m' = 0)%nat then 1 else 0)%nat.
Proof.
  intros HI H. destruct (decide (b < next m)%positive) as [Hlt|Hge].
  - apply released_old; [done | by eapply exec_step | done].
  - destruct (exec_unborn s m m' b HI H) as (-> & _ & -> & _ & -> & _); [lia|].
    by rewrite decide_False by lia.
Qed.

Lemma freed_step s m m' b :
  Inv m → exec s m = Ok tt m' →
  freed b m' =
    (freed b m +
     if decide (strong b m + weak b m = 1 ∧ strong b m' + weak b m' = 0)%nat
     then 1 else 0)%nat.
Proof.
  intros HI H. destruct (decide (b < next m)%positive) as [Hlt|Hge].
  - apply freed_old; [done | by eapply exec_step | done].
  - destruct (exec_unborn s m m' b HI H) as (_ & -> & -> & -> & _ & ->); [lia|].
    by rewrite decide_False by lia.
Qed.

(** ** Single operations *)

Lemma in_int_intro z : -2147483648 ≤ z ≤ 2147483647 → in_int z = true.
Proof. apply in_int_true. Qed.

(** Evaluation of an operation whose lookups the context determines. *)
Ltac eval_op :=
  unfold_ops; unfold_monad; simpl;
  repeat first
    [ progress simplify_map_eq/=
    | rewrite in_int_intro by (unfold INT_MAX, INT_MIN in *; lia)
    | rewrite decide_True by (unfold INT_MAX, INT_MIN in *; solve [done | lia])
    | rewrite decide_False by (unfold INT_MAX, INT_MIN in *; solve [done | lia])
    | rewrite bool_decide_eq_true_2 by (unfold INT_MAX, INT_MIN in *; solve [done | lia])
    | rewrite bool_decide_eq_false_2 by (unfold INT_MAX, INT_MIN in *; solve [done | lia])
    | rewrite size_t_of_int_id by (unfold INT_MAX, INT_MIN in *; lia) ].

Lemma temp_shared_fresh m : sptrs m !! fresh (dom (sptrs m)) = None.
Proof. apply not_elem_of_dom, is_fresh. Qed.

Lemma temp_weak_fresh m : wptrs m !! fresh (dom (wptrs m)) = None.
Proof. apply not_elem_of_dom, is_fresh. Qed.

(** A machine is the one it was when all its parts are. *)
Lemma Machine_eq m s w h n a t :
  s = sptrs m → w = wptrs m → h = heap m → n = next m → a = avail m →
  t = trace m →
  {| sptrs := s; wptrs := w; heap := h; next := n; avail := a; trace := t |} = m.
Proof. intros. subst. by destruct m. Qed.

Ltac same_machine :=
  unfold with_sptrs, with_wptrs, with_heap, with_trace; simpl;
  apply Machine_eq; simpl; try done;
  apply map_eq; intros ?;
  repeat first [rewrite lookup_insert | rewrite lookup_delete];
  repeat (case_decide; simplify_eq/=);
  repeat match goal with
  | H : block_ ?h = _ |- _ => rewrite <- H
  end;
  rewrite ?handle_eta; try done;
  try match goal with
  | H : heap _ !! _ = Some ?cb |- _ =>
      rewrite H; f_equal; destruct cb; unfold set_shared_refs, set_weak_refs;
      simpl; f_equal; lia
  end.

Lemma handle_eta_None h :
  block_ h = None → {| ptr_ := ptr_ h; block_ := None |} = h.
Proof. destruct h. simpl. by intros ->. Qed.

(** ** Operations that cannot fail *)

Lemma quiet_ret {A} (a : A) : quiet (ret a).
Proof. by intros m. Qed.

Lemma quiet_bind {A B} (c : M A) (k : A → M B) :
  quiet c → (∀ a, quiet (k a)) → quiet (bind c k).
Proof.
  intros Hc Hk m. unfold bind. destruct (Hc m) as [H1 H2].
  destruct (c m) as [a m1|e m1|f];
    [apply Hk | exfalso; by apply (H1 e m1) |].
  split; [done | intros [= ->]; by apply H2].
Qed.

Lemma quiet_noexcept {A} (c : M A) : quiet c → quiet (noexcept c).
Proof.
  intros Hc m. unfold noexcept. destruct (Hc m) as [H1 H2].
  destruct (c m) as [a m1|e m1|f];
    [by split | exfalso; by apply (H1 e m1) | by split].
Qed.

Ltac quiet_prim :=
  let m := fresh "m" in
  intros m; unfold_monad; split; [intros ? ?|]; repeat case_match; congruence.

Lemma quiet_load_block b : quiet (load_block b).
Proof. quiet_prim. Qed.
Lemma quiet_store_block b cb : quiet (store_block b cb).
Proof. quiet_prim. Qed.
Lemma quiet_delete_block b : quiet (delete_block b).
Proof. quiet_prim. Qed.
Lemma quiet_emit e : quiet (emit e).
Proof. quiet_prim. Qed.
Lemma quiet_int_incr x : quiet (int_incr x).
Proof. quiet_prim. Qed.
Lemma quiet_int_decr x : quiet (int_decr x).
Proof. quiet_prim. Qed.
Lemma quiet_int_add x y : quiet (int_add x y).
Proof. quiet_prim. Qed.
Lemma quiet_get_shared x : quiet (get_shared x).
Proof. quiet_prim. Qed.
Lemma quiet_set_shared x h : quiet (set_shared x h).
Proof. quiet_prim. Qed.
Lemma quiet_init_shared x h : quiet (init_shared x h).
Proof. quiet_prim. Qed.
Lemma quiet_end_shared x : quiet (end_shared x).
Proof. quiet_prim. Qed.
Lemma quiet_get_weak x : quiet (get_weak x).
Proof. quiet_prim. Qed.
Lemma quiet_set_weak x h : quiet (set_weak x h).
Proof. quiet_prim. Qed.
Lemma quiet_init_weak x h : quiet (init_weak x h).
Proof. quiet_prim. Qed.
Lemma quiet_end_weak x : quiet (end_weak x).
Proof. quiet_prim. Qed.
Lemma quiet_temp_shared : quiet temp_shared.
Proof. quiet_prim. Qed.
Lemma quiet_temp_weak : quiet temp_weak.
Proof. quiet_prim. Qed.

Create HintDb quiet.
#[local] Hint Resolve quiet_ret quiet_load_block quiet_store_block
  quiet_delete_block quiet_emit quiet_int_incr quiet_int_decr quiet_int_add
  quiet_get_shared quiet_set_shared quiet_init_shared quiet_end_shared
  quiet_get_weak quiet_set_weak quiet_init_weak quiet_end_weak
  quiet_temp_shared quiet_temp_weak : quiet.

Ltac quiet_tac :=
  repeat first
    [ apply quiet_noexcept
    | apply quiet_bind; [|intros ?]
    | solve [auto with quiet]
    | case_match
    | case_decide ].

Lemma quiet_IfNoShared b : quiet (IfNoShared b).
Proof. unfold IfNoShared. quiet_tac. Qed.
Lemma quiet_incr_shared_refs b : quiet (incr_shared_refs b).
Proof. unfold incr_shared_refs. quiet_tac. Qed.
Lemma quiet_decr_shared_refs b : quiet (decr_shared_refs b).
Proof. unfold decr_shared_refs. quiet_tac. Qed.
Lemma quiet_incr_weak_refs b : quiet (incr_weak_refs b).
Proof. unfold incr_weak_refs. quiet_tac. Qed.
Lemma quiet_decr_weak_refs b : quiet (decr_weak_refs b).
Proof. unfold decr_weak_refs. quiet_tac. Qed.
Lemma quiet_delete_if_unreferenced b : quiet (delete_if_unreferenced b).
Proof. unfold delete_if_unreferenced. quiet_tac. Qed.
#[local] Hint Resolve quiet_IfNoShared quiet_incr_shared_refs
  quiet_decr_shared_refs quiet_incr_weak_refs quiet_decr_weak_refs
  quiet_delete_if_unreferenced : quiet.

Lemma quiet_if_block blk k : (∀ b, quiet (k b)) → quiet (if_block blk k).
Proof. intros Hk. unfold if_block. destruct blk; auto with quiet. Qed.

Ltac quiet_op :=
  repeat first
    [ apply quiet_noexcept
    | apply quiet_bind; [|intros ?]
    | apply quiet_if_block; intros ?
    | solve [auto with quiet]
    | case_match
    | case_decide ].

Lemma quiet_SharedPtr_default x : quiet (SharedPtr_default x).
Proof. unfold SharedPtr_default. quiet_op. Qed.
Lemma quiet_SharedPtr_copy x y : quiet (SharedPtr_copy x y).
Proof. unfold SharedPtr_copy. quiet_op. Qed.
Lemma quiet_SharedPtr_move x y : quiet (SharedPtr_move x y).
Proof. unfold SharedPtr_move. quiet_op. Qed.
Lemma quiet_SharedPtr_alias x y p : quiet (SharedPtr_alias x y p).
Proof. unfold SharedPtr_alias. quiet_op. Qed.
Lemma quiet_SharedPtr_dtor x : quiet (SharedPtr_dtor x).
Proof. unfold SharedPtr_dtor. quiet_op. Qed.
Lemma quiet_SharedPtr_Swap x y : quiet (SharedPtr_Swap x y).
Proof. unfold SharedPtr_Swap. quiet_op. Qed.
Lemma quiet_SharedPtr_from_raw_block x p blk : quiet (SharedPtr_from_raw_block x p blk).
Proof. unfold SharedPtr_from_raw_block. quiet_op. Qed.
Lemma quiet_WeakPtr_default x : quiet (WeakPtr_default x).
Proof. unfold WeakPtr_default. quiet_op. Qed.
Lemma quiet_WeakPtr_copy x y : quiet (WeakPtr_copy x y).
Proof. unfold WeakPtr_copy. quiet_op. Qed.
Lemma quiet_WeakPtr_move x y : quiet (WeakPtr_move x y).
Proof. unfold WeakPtr_move. quiet_op. Qed.
Lemma quiet_WeakPtr_from_shared x y : quiet (WeakPtr_from_shared x y).
Proof. unfold WeakPtr_from_shared. quiet_op. Qed.
Lemma quiet_WeakPtr_dtor x : quiet (WeakPtr_dtor x).
Proof. unfold WeakPtr_dtor. quiet_op. Qed.
Lemma quiet_WeakPtr_Swap x y : quiet (WeakPtr_Swap x y).
Proof. unfold WeakPtr_Swap. quiet_op. Qed.
Lemma quiet_WeakPtr_UseCount x : quiet (WeakPtr_UseCount x).
Proof. unfold WeakPtr_UseCount. quiet_op. Qed.
Lemma quiet_WeakPtr_Expired x : quiet (WeakPtr_Expired x).
Proof. unfold WeakPtr_Expired. quiet_op. Qed.
#[local] Hint Resolve quiet_SharedPtr_default quiet_SharedPtr_copy
  quiet_SharedPtr_move quiet_SharedPtr_alias quiet_SharedPtr_dtor
  quiet_SharedPtr_Swap quiet_SharedPtr_from_raw_block quiet_WeakPtr_default
  quiet_WeakPtr_copy quiet_WeakPtr_move quiet_WeakPtr_from_shared
  quiet_WeakPtr_dtor quiet_WeakPtr_Swap quiet_WeakPtr_UseCount
  quiet_WeakPtr_Expired : quiet.

Lemma quiet_SharedPtr_assign x y : quiet (SharedPtr_assign x y).
Proof. unfold SharedPtr_assign. quiet_op. Qed.
Lemma quiet_SharedPtr_move_assign x y : quiet (SharedPtr_move_assign x y).
Proof. unfold SharedPtr_move_assign. quiet_op. Qed.
Lemma quiet_SharedPtr_Reset x : quiet (SharedPtr_Reset x).
Proof. unfold SharedPtr_Reset. quiet_op. Qed.
Lemma quiet_WeakPtr_assign x y : quiet (WeakPtr_assign x y).
Proof. unfold WeakPtr_assign. quiet_op. Qed.
Lemma quiet_WeakPtr_move_assign x y : quiet (WeakPtr_move_assign x y).
Proof. unfold WeakPtr_move_assign. quiet_op. Qed.
Lemma quiet_WeakPtr_assign_shared x y : quiet (WeakPtr_assign_shared x y).
Proof. unfold WeakPtr_assign_shared. quiet_op. Qed.
Lemma quiet_WeakPtr_Reset x : quiet (WeakPtr_Reset x).
Proof. unfold WeakPtr_Reset. quiet_op. Qed.

Lemma bind_Throw {A B} (c : M A) (k : A → M B) m e m' :
  bind c k m = Throw e m' →
  c m = Throw e m' ∨ ∃ a m1, c m = Ok a m1 ∧ k a m1 = Throw e m'.
Proof. unfold bind. destruct (c m); [eauto | intros [= -> ->]; eauto | done]. Qed.

Lemma bind_Fault {A B} (c : M A) (k : A → M B) m f :
  bind c k m = Fault f →
  c m = Fault f ∨ ∃ a m1, c m = Ok a m1 ∧ k a m1 = Fault f.
Proof. unfold bind. destruct (c m); [eauto | done | intros [= ->]; eauto]. Qed.

Lemma quiet_no_Throw {A} (c : M A) m e m' : quiet c → c m ≠ Throw e m'.
Proof. intros H. apply H. Qed.

Lemma quiet_not_Terminated {A} (c : M A) m : quiet c → c m ≠ Fault Terminated.
Proof. intros H. apply H. Qed.

Lemma new_block_Throw v m e m' :
  new_block v m = Throw e m' → e = BadAlloc ∧ m' = m ∧ avail m = 0%nat.
Proof. unfold new_block. destruct (avail m); [by intros [= <- <-] | done]. Qed.

Lemma new_block_not_Terminated v m : new_block v m ≠ Fault Terminated.
Proof. unfold new_block. by destruct (avail m). Qed.

Lemma SharedPtr_from_raw_Throw x p m e m' :
  SharedPtr_from_raw x p m = Throw e m' →
  e = BadAlloc ∧ m' = m ∧ avail m = 0%nat.
Proof.
  unfold SharedPtr_from_raw.
  intros [H | (b & m1 & _ & H)]%bind_Throw; [by eapply new_block_Throw|].
  exfalso. revert H. apply quiet_no_Throw. quiet_op.
Qed.

Lemma SharedPtr_from_raw_not_Terminated x p m :
  SharedPtr_from_raw x p m ≠ Fault Terminated.
Proof.
  unfold SharedPtr_from_raw.
  intros [H | (b & m1 & _ & H)]%bind_Fault; [by eapply new_block_not_Terminated|].
  revert H. apply quiet_not_Terminated. quiet_op.
Qed.

Lemma MakeShared_Throw x m e m' :
  MakeShared x m = Throw e m' → e = BadAlloc ∧ m' = m ∧ avail m = 0%nat.
Proof.
  unfold MakeShared, new_holder.
  intros [H | (b & m1 & _ & H)]%bind_Throw.
  - apply bind_Throw in H as [H | (b & m1 & _ & H)]; [by eapply new_block_Throw|].
    exfalso. revert H. apply quiet_no_Throw. quiet_op.
  - exfalso. revert H. apply quiet_no_Throw. quiet_op.
Qed.

Lemma MakeShared_not_Terminated x m : MakeShared x m ≠ Fault Terminated.
Proof.
  unfold MakeShared, new_holder.
  intros [H | (b & m1 & _ & H)]%bind_Fault.
  - apply bind_Fault in H as [H | (b & m1 & _ & H)];
      [by eapply new_block_not_Terminated|].
    revert H. apply quiet_not_Terminated. quiet_op.
  - revert H. apply quiet_not_Terminated. quiet_op.
Qed.

Lemma SharedPtr_Reset_ptr_Throw x p m e m' :
  SharedPtr_Reset_ptr x p m = Throw e m' →
  e = BadAlloc ∧ m' = m ∧ avail m = 0%nat.
Proof.
  unfold SharedPtr_Reset_ptr.
  intros [H | (h & m0 & Hg & H)]%bind_Throw.
  { exfalso. revert H. apply quiet_no_Throw. auto with quiet. }
  assert (m0 = m) as -> by (unfold get_shared in Hg; case_match; by simplify_eq).
  unfold temp_shared, bind at 1 in H.
  apply bind_Throw in H as [H | (b & m1 & _ & H)];
    [by eapply SharedPtr_from_raw_Throw|].
  exfalso. revert H. apply quiet_no_Throw. quiet_op.
Qed.

Lemma SharedPtr_Reset_ptr_not_Terminated x p m :
  SharedPtr_Reset_ptr x p m ≠ Fault Terminated.
Proof.
  unfold SharedPtr_Reset_ptr.
  intros [H | (h & m0 & Hg & H)]%bind_Fault.
  { revert H. apply quiet_not_Terminated. auto with quiet. }
  unfold temp_shared, bind at 1 in H.
  apply bind_Fault in H as [H | (b & m1 & _ & H)];
    [by eapply SharedPtr_from_raw_not_Terminated|].
  revert H. apply quiet_not_Terminated. quiet_op.
Qed.

Lemma WeakPtr_Expired_same m w r :
  WeakPtr_Expired w m = r →
  match r with
  | Ok _ m' => m' = m
  | Throw _ _ => False
  | Fault f => f ≠ Terminated
  end.
Proof.
  intros <-. destruct (WeakPtr_Expired w m) as [e m'|e m'|f] eqn:H.
  - by apply WeakPtr_Expired_Ok in H as [-> _].
  - by apply quiet_no_Throw in H; [|apply quiet_WeakPtr_Expired].
  - intros ->. by apply quiet_not_Terminated in H; [|apply quiet_WeakPtr_Expired].
Qed.

Lemma SharedPtr_from_weak_Throw x w m e m' :
  SharedPtr_from_weak x w m = Throw e m' →
  e = BadWeakPtr ∧ m' = m ∧ WeakPtr_Expired w m = Ok true m.
Proof.
  unfold SharedPtr_from_weak, bind at 1.
  pose proof (WeakPtr_Expired_same m w _ eq_refl) as HE.
  destruct (WeakPtr_Expired w m) as [[] m1|e1 m1|f]; [subst m1..| done | done].
  - by intros [= <- <-].
  - intros H. exfalso. revert H. apply quiet_no_Throw. quiet_op.
Qed.

Lemma SharedPtr_from_weak_not_Terminated x w m :
  SharedPtr_from_weak x w m ≠ Fault Terminated.
Proof.
  unfold SharedPtr_from_weak, bind at 1.
  pose proof (WeakPtr_Expired_same m w _ eq_refl) as HE.
  destruct (WeakPtr_Expired w m) as [[] m1|e1 m1|f]; [subst m1..| done |].
  - done.
  - apply quiet_not_Terminated. quiet_op.
  - congruence.
Qed.

(** Lock has tested Expired before it promotes, so it keeps its noexcept
    promise. *)
Lemma WeakPtr_Lock_quiet x w : quiet (WeakPtr_Lock x w).
Proof.
  intros m. split.
  - intros e m'. unfold WeakPtr_Lock, noexcept. by case_match.
  - unfold WeakPtr_Lock, noexcept, bind.
    pose proof (WeakPtr_Expired_same m w _ eq_refl) as HE.
    destruct (WeakPtr_Expired w m) as [[] m1|e1 m1|f] eqn:HX;
      [subst m1..| done |].
    + pose proof (quiet_SharedPtr_default x m) as [H1 H2].
      destruct (SharedPtr_default x m) as [| e2 m2|]; [done| |done].
      by destruct (H1 e2 m2).
    + destruct (SharedPtr_from_weak x w m) as [|e2 m2|f] eqn:HP; [done| |].
      * apply SharedPtr_from_weak_Throw in HP as (_ & _ & HP). congruence.
      * intros [= ->]. by apply SharedPtr_from_weak_not_Terminated in HP.
    + congruence.
Qed.

(** No statement breaks a noexcept promise. *)
Lemma exec_not_Terminated s m : exec s m ≠ Fault Terminated.
Proof.
  destruct s; simpl;
    try (apply quiet_not_Terminated; solve [auto with quiet | quiet_op]).
  - apply SharedPtr_from_raw_not_Terminated.
  - apply MakeShared_not_Terminated.
  - apply SharedPtr_from_weak_not_Terminated.
  - apply WeakPtr_Lock_quiet.
  - apply SharedPtr_Reset_ptr_not_Terminated.
Qed.

(** A statement throws only as a promotion or as an allocation, and the
    machine at the throw is the machine before the statement. *)
Lemma exec_Throw s m e m' :
  exec s m = Throw e m' →
  m' = m ∧
  ((e = BadWeakPtr ∧ ∃ x w, s = SPromote x w) ∨
   (e = BadAlloc ∧ avail m = 0%nat ∧
    ((∃ x p, s = SFromRaw x p) ∨ (∃ x p, s = SResetPtr x p) ∨
     (∃ x, s = SMake x)))).
Proof.
  intros H. destruct s; simpl in H;
    try (exfalso; revert H; apply quiet_no_Throw;
         solve [auto with quiet | quiet_op | apply WeakPtr_Lock_quiet]).
  - apply SharedPtr_from_raw_Throw in H as (-> & -> & ?). split; [done|].
    right. split_and!; eauto.
  - apply MakeShared_Throw in H as (-> & -> & ?). split; [done|].
    right. split_and!; eauto.
  - apply SharedPtr_from_weak_Throw in H as (-> & -> & ?). split; [done|].
    left. eauto.
  - apply SharedPtr_Reset_ptr_Throw in H as (-> & -> & ?). split; [done|].
    right. split_and!; eauto 6.
Qed.

(** ** No operation touches a block that has been deleted *)

Lemma noexcept_Fault {A} (c : M A) m f :
  noexcept c m = Fault f → f ≠ Terminated → c m = Fault f.
Proof. unfold noexcept. destruct (c m); [done | by intros [= <-] | done]. Qed.

Lemma IfNoShared_Fault b m f :
  IfNoShared b m = Fault f → heap m !! b = None.
Proof.
  unfold IfNoShared. unfold_monad. intros H.
  repeat (case_match; simplify_eq/=); simplify_map_eq; done.
Qed.

(** The ways in which a run of primitive operations can fault on a block
    that is not live, under the invariant: none. *)
Ltac no_dangling HI :=
  try match goal with
  | Hh : heap ?m !! ?b = None, Hx : sptrs ?m !! _ = Some ?h,
    Hb : block_ ?h = Some ?b |- _ =>
      destruct (Inv_shared_live _ _ _ _ HI Hx Hb) as [? ?]; congruence
  | Hh : heap ?m !! ?b = None, Hx : wptrs ?m !! _ = Some ?h,
    Hb : block_ ?h = Some ?b |- _ =>
      destruct (Inv_weak_live _ _ _ _ HI Hx Hb) as [? ?]; congruence
  end.

Ltac safe_tac HI :=
  unfold_ops; unfold_monad; simpl in *;
  repeat (case_match; simplify_eq/=); simplify_map_eq;
  repeat match goal with
  | H : IfNoShared _ _ = Ok _ _ |- _ =>
      apply IfNoShared_Ok in H as (? & ? & ? & ? & -> & ?)
  | H : IfNoShared _ _ = Fault _ |- _ => apply IfNoShared_Fault in H
  end; simplify_map_eq;
  no_dangling HI.

Lemma SharedPtr_default_safe x m :
  Inv m → SharedPtr_default x m ≠ Fault UseAfterFree.
Proof. intros HI H. unfold SharedPtr_default in H. safe_tac HI. Qed.

Lemma SharedPtr_from_raw_safe x p m :
  Inv m → SharedPtr_from_raw x p m ≠ Fault UseAfterFree.
Proof. intros HI H. unfold SharedPtr_from_raw in H. safe_tac HI. Qed.

Lemma MakeShared_safe x m : Inv m → MakeShared x m ≠ Fault UseAfterFree.
Proof.
  intros HI H. unfold MakeShared, SharedPtr_from_raw_block, Holder_Get in H.
  safe_tac HI.
Qed.

Lemma SharedPtr_copy_safe x y m :
  Inv m → SharedPtr_copy x y m ≠ Fault UseAfterFree.
Proof. intros HI H. unfold SharedPtr_copy in H. safe_tac HI. Qed.

Lemma SharedPtr_move_safe x y m :
  Inv m → SharedPtr_move x y m ≠ Fault UseAfterFree.
Proof. intros HI H. unfold SharedPtr_move in H. safe_tac HI. Qed.

Lemma SharedPtr_alias_safe x y p m :
  Inv m → SharedPtr_alias x y p m ≠ Fault UseAfterFree.
Proof. intros HI H. unfold SharedPtr_alias in H. safe_tac HI. Qed.

Lemma SharedPtr_from_weak_safe x w m :
  Inv m → SharedPtr_from_weak x w m ≠ Fault UseAfterFree.
Proof.
  intros HI H. unfold SharedPtr_from_weak, WeakPtr_Expired, WeakPtr_UseCount in H.
  safe_tac HI.
Qed.

Lemma WeakPtr_Lock_safe x w m :
  Inv m → WeakPtr_Lock x w m ≠ Fault UseAfterFree.
Proof.
  intros HI H.
  unfold WeakPtr_Lock, SharedPtr_from_weak, SharedPtr_default, WeakPtr_Expired,
    WeakPtr_UseCount in H.
  safe_tac HI.
Qed.

Lemma SharedPtr_Swap_safe x y m :
  Inv m → SharedPtr_Swap x y m ≠ Fault UseAfterFree.
Proof. intros HI H. unfold SharedPtr_Swap in H. safe_tac HI. Qed.

Lemma SharedPtr_dtor_safe x m :
  Inv m → SharedPtr_dtor x m ≠ Fault UseAfterFree.
Proof. intros HI H. unfold SharedPtr_dtor in H. safe_tac HI. Qed.

Lemma WeakPtr_default_safe x m :
  Inv m → WeakPtr_default x m ≠ Fault UseAfterFree.
Proof. intros HI H. unfold WeakPtr_default in H. safe_tac HI. Qed.

Lemma WeakPtr_copy_safe x y m :
  Inv m → WeakPtr_copy x y m ≠ Fault UseAfterFree.
Proof. intros HI H. unfold WeakPtr_copy in H. safe_tac HI. Qed.

Lemma WeakPtr_move_safe x y m :
  Inv m → WeakPtr_move x y m ≠ Fault UseAfterFree.
Proof. intros HI H. unfold WeakPtr_move in H. safe_tac HI. Qed.

Lemma WeakPtr_from_shared_safe x y m :
  Inv m → WeakPtr_from_shared x y m ≠ Fault UseAfterFree.
Proof. intros HI H. unfold WeakPtr_from_shared in H. safe_tac HI. Qed.

Lemma WeakPtr_Swap_safe x y m :
  Inv m → WeakPtr_Swap x y m ≠ Fault UseAfterFree.
Proof. intros HI H. unfold WeakPtr_Swap in H. safe_tac HI. Qed.

Lemma WeakPtr_dtor_safe x m :
  Inv m → WeakPtr_dtor x m ≠ Fault UseAfterFree.
Proof. intros HI H. unfold WeakPtr_dtor in H. safe_tac HI. Qed.

(** Construct a temporary, swap, destroy: a fault on a dead block would
    come from one of the three, each run from a machine with the
    invariant. *)
Ltac composite_safe HI :=
  repeat match goal with
  | H : noexcept _ _ = Fault UseAfterFree |- _ =>
      apply noexcept_Fault in H; [|done]
  | H : bind _ _ _ = Fault UseAfterFree |- _ =>
      let H1 := fresh "Hstep" in
      apply bind_Fault in H as [H | (? & ? & H1 & H)]
  | u : unit |- _ => destruct u
  | H : temp_shared _ = _ |- _ => unfold temp_shared in H; simplify_eq
  | H : temp_weak _ = _ |- _ => unfold temp_weak in H; simplify_eq
  | H : get_shared _ _ = _ |- _ =>
      unfold get_shared in H; case_match; simplify_eq
  | H : get_weak _ _ = _ |- _ =>
      unfold get_weak in H; case_match; simplify_eq
  end;
  repeat match goal with
  | Hc : _ ?m = Ok () ?m1 |- _ =>
      lazymatch goal with
      | _ : Inv m1 |- _ => fail
      | _ => idtac
      end;
      first
        [ let S := fresh "S" in
          match goal with HI0 : Inv m |- _ =>
            first [ gain_of HI0 Hc S
                  | pose proof (SharedPtr_Swap_step _ _ _ _ HI0 Hc) as S
                  | pose proof (WeakPtr_Swap_step _ _ _ _ HI0 Hc) as S ];
            pose proof (proj1 S); clear S
          end ]
  end;
  match goal with
  | HI0 : Inv ?m, H : _ ?m = Fault UseAfterFree |- _ =>
      revert H;
      first
        [ by apply SharedPtr_default_safe | by apply SharedPtr_from_raw_safe
        | by apply SharedPtr_copy_safe | by apply SharedPtr_move_safe
        | by apply SharedPtr_Swap_safe | by apply SharedPtr_dtor_safe
        | by apply WeakPtr_default_safe | by apply WeakPtr_copy_safe
        | by apply WeakPtr_move_safe | by apply WeakPtr_from_shared_safe
        | by apply WeakPtr_Swap_safe | by apply WeakPtr_dtor_safe ]
  end.

Lemma SharedPtr_assign_safe x y m :
  Inv m → SharedPtr_assign x y m ≠ Fault UseAfterFree.
Proof. intros HI H. unfold SharedPtr_assign in H. composite_safe HI. Qed.

Lemma SharedPtr_move_assign_safe x y m :
  Inv m → SharedPtr_move_assign x y m ≠ Fault UseAfterFree.
Proof. intros HI H. unfold SharedPtr_move_assign in H. composite_safe HI. Qed.

Lemma SharedPtr_Reset_safe x m :
  Inv m → SharedPtr_Reset x m ≠ Fault UseAfterFree.
Proof. intros HI H. unfold SharedPtr_Reset in H. composite_safe HI. Qed.

Lemma SharedPtr_Reset_ptr_safe x p m :
  Inv m → SharedPtr_Reset_ptr x p m ≠ Fault UseAfterFree.
Proof. intros HI H. unfold SharedPtr_Reset_ptr in H. composite_safe HI. Qed.

Lemma WeakPtr_assign_safe x y m :
  Inv m → WeakPtr_assign x y m ≠ Fault UseAfterFree.
Proof. intros HI H. unfold WeakPtr_assign in H. composite_safe HI. Qed.

Lemma WeakPtr_move_assign_safe x y m :
  Inv m → WeakPtr_move_assign x y m ≠ Fault UseAfterFree.
Proof. intros HI H. unfold WeakPtr_move_assign in H. composite_safe HI. Qed.

Lemma WeakPtr_assign_shared_safe x y m :
  Inv m → WeakPtr_assign_shared x y m ≠ Fault UseAfterFree.
Proof. intros HI H. unfold WeakPtr_assign_shared in H. composite_safe HI. Qed.

Lemma WeakPtr_Reset_safe x m :
  Inv m → WeakPtr_Reset x m ≠ Fault UseAfterFree.
Proof. intros HI H. unfold WeakPtr_Reset in H. composite_safe HI. Qed.

(** Under the invariant a statement is stuck only on a program that names
    a handle wrongly or on a counter that leaves the range of int. *)
Lemma exec_safe s m f :
  Inv m → exec s m = Fault f →
  f = SignedOverflow ∨ f = NoSuchObject ∨ f = ObjectExists.
Proof.
  intros HI H.
  assert (f ≠ Terminated) as HT.
  { intros ->. revert H. apply exec_not_Terminated. }
  assert (f ≠ UseAfterFree) as HU.
  { intros ->. revert H. destruct s; simpl.
    - by apply SharedPtr_default_safe.
    - by apply SharedPtr_from_raw_safe.
    - by apply MakeShared_safe.
    - by apply SharedPtr_copy_safe.
    - by apply SharedPtr_move_safe.
    - by apply SharedPtr_alias_safe.
    - by apply SharedPtr_from_weak_safe.
    - by apply WeakPtr_Lock_safe.
    - by apply SharedPtr_assign_safe.
    - by apply SharedPtr_move_assign_safe.
    - by apply SharedPtr_Reset_safe.
    - by apply SharedPtr_Reset_ptr_safe.
    - by apply SharedPtr_Swap_safe.
    - by apply SharedPtr_dtor_safe.
    - by apply WeakPtr_default_safe.
    - by apply WeakPtr_copy_safe.
    - by apply WeakPtr_move_safe.
    - by apply WeakPtr_from_shared_safe.
    - by apply WeakPtr_assign_safe.
    - by apply WeakPtr_move_assign_safe.
    - by apply WeakPtr_assign_shared_safe.
    - by apply WeakPtr_Reset_safe.
    - by apply WeakPtr_Swap_safe.
    - by apply WeakPtr_dtor_safe. }
  destruct f; tauto.
Qed.

Lemma run_Fault p m f :
  run p m = Fault f →
  ∃ pre s m1, run pre m = Ok tt m1 ∧ exec s m1 = Fault f.
Proof.
  revert m. induction p as [|s p IH]; intros m H; simpl in H; [done|].
  apply bind_Fault in H as [H | ([] & m1 & Hs & H)].
  - by exists [], s, m.
  - destruct (IH _ H) as (pre & s' & m2 & Hpre & Hs').
    exists (s :: pre), s', m2. split; [|done].
    simpl. unfold bind. by rewrite Hs.
Qed.

(** With managed objects that run no code of their own, no run from the
    initial machine reaches into a deleted block or breaks a noexcept
    promise: it can only be stuck on a program that names a handle wrongly
    or on a counter that leaves the range of int. *)
Theorem runs_never_touch_deleted_blocks p mem f :
  run p (init mem) = Fault f →
  f = SignedOverflow ∨ f = NoSuchObject ∨ f = ObjectExists.
Proof.
  intros (pre & s & m1 & Hpre & Hs)%run_Fault.
  eapply exec_safe; [|done]. eapply run_Inv; [apply Inv_init | done].
Qed.

(** * The claims *)

(** Claim C1. Along every program run from the initial machine, after
    every statement (construction, copy, move, assignment, Reset, Swap,
    destruction, of SharedPtr and of WeakPtr) the shared_refs counter of
    each live block is the number of live SharedPtr objects that refer to
    it, and no SharedPtr refers to a block that is not live; a statement
    calls IfNoShared on a block exactly when it takes that number from 1
    to 0, and IfNoShared is never called more than once on a block. *)
Theorem shared_refs_counts_live_handles mem pre s post m' :
  run (pre ++ s :: post) (init mem) = Ok tt m' →
  ∃ m1 m2,
    run pre (init mem) = Ok tt m1 ∧ exec s m1 = Ok tt m2 ∧
    run post m2 = Ok tt m' ∧
    ∀ b,
      (∀ cb, heap m2 !! b = Some cb → shared_refs cb = Z.of_nat (strong b m2)) ∧
      (heap m2 !! b = None → strong b m2 = 0%nat) ∧
      released b m2 =
        (released b m1 +
         if decide (strong b m1 = 1 ∧ strong b m2 = 0)%nat then 1 else 0)%nat ∧
      (released b m2 ≤ 1)%nat.
Proof.
  intros (m1 & m2 & Hpre & Hs & Hpost)%run_split.
  exists m1, m2. split_and!; [done..|].
  assert (Inv m1) as HI1 by (eapply run_Inv; [apply Inv_init | done]).
  pose proof (exec_step _ _ _ HI1 Hs) as Hstep.
  assert (Inv m2) as HI2 by apply Hstep.
  intros b. split_and!.
  - intros cb Hcb. by destruct (Inv_live _ _ _ HI2 Hcb) as (? & _).
  - intros Hd. by destruct (Inv_dead _ _ HI2 Hd) as (? & _).
  - by eapply released_step.
  - by apply Inv_released_le.
Qed.

Lemma shared_refs_counts_live_handles_witness :
  ∃ m',
    run ([SFromRaw 1 (ObjPtr 1); SCopy 2 1; SMove 3 2; SAssign 2 1; SDestroy 1;
          SDestroy 3] ++ SDestroy 2 :: [SDefault 1]) (init 4) = Ok tt m' ∧
    ∃ m1 m2,
      run [SFromRaw 1 (ObjPtr 1); SCopy 2 1; SMove 3 2; SAssign 2 1; SDestroy 1;
           SDestroy 3] (init 4) = Ok tt m1 ∧
      exec (SDestroy 2) m1 = Ok tt m2 ∧
      run [SDefault 1] m2 = Ok tt m' ∧
      ∀ b,
        (∀ cb, heap m2 !! b = Some cb → shared_refs cb = Z.of_nat (strong b m2)) ∧
        (heap m2 !! b = None → strong b m2 = 0%nat) ∧
        released b m2 =
          (released b m1 +
           if decide (strong b m1 = 1 ∧ strong b m2 = 0)%nat then 1 else 0)%nat ∧
        (released b m2 ≤ 1)%nat.
Proof.
  eexists. split; [vm_compute; reflexivity|].
  apply shared_refs_counts_live_handles. vm_compute. reflexivity.
Defined.

(** Claim C2, which the code breaks. With [struct T { WeakPtr<T> self; }],
    the program [SharedPtr<T> p(new T); p->self = p;] and then the end of
    [p]: the SharedPtr 1 owns the object 5, whose member is the WeakPtr 1
    on the same block. Inside [~SharedPtr], after the decrement, the
    destructor of the object runs [~WeakPtr] of the member, which finds
    both counters at zero and deletes the block, while the SharedPtr
    still refers to it. [IfNoShared] then writes [ptr_] in the deleted
    block, and [~SharedPtr] reads the counters of the deleted block and
    deletes it a second time. *)
Theorem owned_WeakPtr_deletes_the_block_early :
  ∃ m m1,
    run_of (destroy_member (ObjPtr 5) 1) no_code
      [WDefault 1; SFromRaw 1 (ObjPtr 5); WAssignShared 1 1] (init 1) = Ok tt m ∧
    heap m !! 1%positive =
      Some {| shared_refs := 1; weak_refs := 1;
              variant := ControlBlockPtr (ObjPtr 5) |} ∧
    (decr_shared_refs 1 >> destroy_member (ObjPtr 5) 1 (ObjPtr 5)) m = Ok tt m1 ∧
    heap m1 !! 1%positive = None ∧
    freed 1 m1 = 1%nat ∧
    strong 1 m1 = 1%nat ∧
    (let* cb := load_block 1 in
     store_block 1 (set_variant (ControlBlockPtr nullptr) cb)) m1
      = Fault UseAfterFree ∧
    delete_if_unreferenced 1 m1 = Fault UseAfterFree ∧
    delete_block 1 m1 = Fault UseAfterFree ∧
    exec_of (destroy_member (ObjPtr 5) 1) no_code (SDestroy 1) m
      = Fault UseAfterFree.
Proof.
  eexists _, _.
  split; [vm_compute; reflexivity|]. split; [vm_compute; reflexivity|].
  split; [vm_compute; reflexivity|].
  repeat split; vm_compute; reflexivity.
Qed.

(** With managed objects that run no code of their own, the claim holds.
    Along every program run that mixes SharedPtr and WeakPtr
    statements, after every statement a block is live exactly when some
    SharedPtr or WeakPtr refers to it, its two counters are the numbers
    of SharedPtr and of WeakPtr objects that refer to it, and it has not
    been deleted; a statement deletes a block exactly when it takes the
    number of handles that refer to it from 1 to 0, whichever destructor
    runs last, and no block is deleted more than once. *)
Theorem control_block_deleted_once mem pre s post m' :
  run (pre ++ s :: post) (init mem) = Ok tt m' →
  ∃ m1 m2,
    run pre (init mem) = Ok tt m1 ∧ exec s m1 = Ok tt m2 ∧
    run post m2 = Ok tt m' ∧
    ∀ b,
      (∀ cb, heap m2 !! b = Some cb →
         shared_refs cb = Z.of_nat (strong b m2) ∧
         weak_refs cb = Z.of_nat (weak b m2) ∧
         freed b m2 = 0%nat) ∧
      ((0 < strong b m2 + weak b m2)%nat ↔ is_Some (heap m2 !! b)) ∧
      freed b m2 =
        (freed b m1 +
         if decide (strong b m1 + weak b m1 = 1 ∧
                    strong b m2 + weak b m2 = 0)%nat then 1 else 0)%nat ∧
      (freed b m2 ≤ 1)%nat.
Proof.
  intros (m1 & m2 & Hpre & Hs & Hpost)%run_split.
  exists m1, m2. split_and!; [done..|].
  assert (Inv m1) as HI1 by (eapply run_Inv; [apply Inv_init | done]).
  pose proof (exec_step _ _ _ HI1 Hs) as Hstep.
  assert (Inv m2) as HI2 by apply Hstep.
  intros b. split_and!.
  - intros cb Hcb. by destruct (Inv_live _ _ _ HI2 Hcb) as (? & ? & _ & _ & ? & _).
  - destruct (heap m2 !! b) eqn:Hh.
    + destruct (Inv_live _ _ _ HI2 Hh) as (_ & _ & ? & _). by split.
    + destruct (Inv_dead _ _ HI2 Hh) as (? & ? & _). split; [lia|].
      by intros [? ?].
  - by eapply freed_step.
  - by apply Inv_freed_le.
Qed.

Lemma control_block_deleted_once_witness :
  ∃ m',
    run ([SMake 1; WFromShared 1 1; SCopy 2 1; WCopy 2 1; SDestroy 1;
          WDestroy 1; SReset 2] ++ WDestroy 2 :: [WDefault 1]) (init 4) = Ok tt m' ∧
    ∃ m1 m2,
      run [SMake 1; WFromShared 1 1; SCopy 2 1; WCopy 2 1; SDestroy 1;
           WDestroy 1; SReset 2] (init 4) = Ok tt m1 ∧
      exec (WDestroy 2) m1 = Ok tt m2 ∧
      run [WDefault 1] m2 = Ok tt m' ∧
      ∀ b,
        (∀ cb, heap m2 !! b = Some cb →
           shared_refs cb = Z.of_nat (strong b m2) ∧
           weak_refs cb = Z.of_nat (weak b m2) ∧
           freed b m2 = 0%nat) ∧
        ((0 < strong b m2 + weak b m2)%nat ↔ is_Some (heap m2 !! b)) ∧
        freed b m2 =
          (freed b m1 +
           if decide (strong b m1 + weak b m1 = 1 ∧
                      strong b m2 + weak b m2 = 0)%nat then 1 else 0)%nat ∧
        (freed b m2 ≤ 1)%nat.
Proof.
  eexists. split; [vm_compute; reflexivity|].
  apply control_block_deleted_once. vm_compute. reflexivity.
Defined.

(** The last handle of a block may be a SharedPtr or a WeakPtr: either
    destructor deletes the block, once. *)
Example last_handle_shared_or_weak :
  (∃ m, run [SFromRaw 1 (ObjPtr 7); WFromShared 1 1; WDestroy 1; SDestroy 1]
          (init 1) = Ok tt m ∧
        trace m = [EvDeleteBlock 1; EvDeleteObject (ObjPtr 7); EvIfNoShared 1;
                   EvNewBlock 1] ∧ heap m = ∅) ∧
  (∃ m, run [SFromRaw 1 (ObjPtr 7); WFromShared 1 1; SDestroy 1; WDestroy 1]
          (init 1) = Ok tt m ∧
        trace m = [EvDeleteBlock 1; EvDeleteObject (ObjPtr 7); EvIfNoShared 1;
                   EvNewBlock 1] ∧ heap m = ∅).
Proof. split; eexists; (split; [vm_compute; reflexivity | done]). Qed.

(** Claim C3 as stated fails: a WeakPtr that is not expired can lock into
    a SharedPtr that converts to false, because the observed pointer of a
    handle with a live block may be null. *)
Lemma Lock_nonempty_counterexample :
  ¬ (∀ p mem m w x m',
       run p (init mem) = Ok tt m →
       WeakPtr_Expired w m = Ok false m →
       WeakPtr_Lock x w m = Ok tt m' →
       SharedPtr_bool x m' = Ok true m').
Proof.
  intros H.
  specialize (H [SFromRaw 1 nullptr; WFromShared 1 1] 1%nat _ 1%positive
                2%positive _ eq_refl eq_refl eq_refl).
  vm_compute in H. discriminate H.
Qed.

(** Claim C3, amended. For a WeakPtr [w] whose block, if it has one, is
    live with a count below INT_MAX, [w.Lock()] returns normally. If [w]
    is expired the result is an empty SharedPtr: use count 0, conversion
    to false, no block touched. If not, the result has the fields of [w],
    its use count is the count before the call plus one, and it converts
    to true exactly when the observed pointer of [w] is not null. *)
Theorem Lock_shares_block_iff_not_expired m w h x :
  wptrs m !! w = Some h →
  sptrs m !! x = None →
  (∀ b, block_ h = Some b →
        ∃ cb, heap m !! b = Some cb ∧ 0 ≤ shared_refs cb < INT_MAX) →
  ∃ (e : bool) n m',
    WeakPtr_Expired w m = Ok e m ∧
    WeakPtr_UseCount w m = Ok n m ∧
    WeakPtr_Lock x w m = Ok tt m' ∧
    if e then
      sptrs m' !! x = Some empty_handle ∧
      SharedPtr_UseCount x m' = Ok 0 m' ∧
      SharedPtr_bool x m' = Ok false m' ∧
      heap m' = heap m
    else
      sptrs m' !! x = Some h ∧
      SharedPtr_UseCount x m' = Ok (n + 1) m' ∧
      SharedPtr_bool x m' = Ok (bool_decide (ptr_ h ≠ nullptr)) m'.
Proof.
  intros Hw Hx Hlive.
  destruct (block_ h) as [b|] eqn:Hb.
  - destruct (Hlive b eq_refl) as (cb & Hcb & Hr).
    destruct (decide (shared_refs cb = 0)) as [Hz|Hnz].
    + exists true, 0. eexists. split; [|split; [|split]].
      * unfold WeakPtr_Expired, WeakPtr_UseCount. eval_op. done.
      * unfold WeakPtr_UseCount. eval_op. by rewrite Hz.
      * unfold WeakPtr_Lock, WeakPtr_Expired, WeakPtr_UseCount, SharedPtr_default.
        eval_op. done.
      * unfold SharedPtr_UseCount, SharedPtr_bool. split_and!; eval_op; done.
    + exists false, (shared_refs cb). eexists. split; [|split; [|split]].
      * unfold WeakPtr_Expired, WeakPtr_UseCount. eval_op. done.
      * unfold WeakPtr_UseCount. eval_op. done.
      * unfold WeakPtr_Lock, SharedPtr_from_weak, WeakPtr_Expired, WeakPtr_UseCount.
        eval_op. done.
      * unfold SharedPtr_UseCount, SharedPtr_bool.
        split_and!; eval_op; rewrite <- ?Hb, ?handle_eta; done.
  - exists true, 0. eexists. split; [|split; [|split]].
    + unfold WeakPtr_Expired, WeakPtr_UseCount. eval_op. done.
    + unfold WeakPtr_UseCount. eval_op. done.
    + unfold WeakPtr_Lock, WeakPtr_Expired, WeakPtr_UseCount, SharedPtr_default.
      eval_op. done.
    + unfold SharedPtr_UseCount, SharedPtr_bool. split_and!; eval_op; done.
Qed.

Lemma Lock_shares_block_iff_not_expired_witness :
  wptrs expired_example !! 1%positive =
    Some {| ptr_ := ObjPtr 1; block_ := Some 1%positive |} ∧
  sptrs expired_example !! 2%positive = None ∧
  ∃ (e : bool) n m',
    WeakPtr_Expired 1 expired_example = Ok e expired_example ∧
    WeakPtr_UseCount 1 expired_example = Ok n expired_example ∧
    WeakPtr_Lock 2 1 expired_example = Ok tt m' ∧
    if e then
      sptrs m' !! 2%positive = Some empty_handle ∧
      SharedPtr_UseCount 2 m' = Ok 0 m' ∧
      SharedPtr_bool 2 m' = Ok false m' ∧
      heap m' = heap expired_example
    else
      sptrs m' !! 2%positive = Some {| ptr_ := ObjPtr 1; block_ := Some 1%positive |} ∧
      SharedPtr_UseCount 2 m' = Ok (n + 1) m' ∧
      SharedPtr_bool 2 m' =
        Ok (bool_decide (ptr_ {| ptr_ := ObjPtr 1; block_ := Some 1%positive |} ≠ nullptr)) m'.
Proof.
  split; [reflexivity|]. split; [reflexivity|].
  apply (Lock_shares_block_iff_not_expired expired_example 1
           {| ptr_ := ObjPtr 1; block_ := Some 1%positive |} 2);
    [reflexivity | reflexivity |].
  intros b [= <-]. eexists. split; [reflexivity|]. vm_compute. split; [discriminate | reflexivity].
Defined.

(** Locking the WeakPtr of a live object: the result observes the object,
    converts to true and reports one owner more. *)
Example Lock_of_live_object :
  ∃ m',
    WeakPtr_Expired 1 observed_example = Ok false observed_example ∧
    WeakPtr_UseCount 1 observed_example = Ok 1 observed_example ∧
    WeakPtr_Lock 2 1 observed_example = Ok tt m' ∧
    sptrs m' !! 2%positive = Some {| ptr_ := ObjPtr 5; block_ := Some 1%positive |} ∧
    SharedPtr_bool 2 m' = Ok true m' ∧
    SharedPtr_UseCount 2 m' = Ok 2 m'.
Proof.
  eexists. split; [vm_compute; reflexivity|]. split; [vm_compute; reflexivity|].
  split; [vm_compute; reflexivity|]. by vm_compute.
Qed.

(** Claim C4. Constructing a SharedPtr from a WeakPtr whose block is null
    or has shared_refs = 0 throws BadWeakPtr and leaves the whole machine
    as it was, the WeakPtr and every counter included (so every further
    attempt throws again); from a WeakPtr whose block has a positive
    count below INT_MAX it returns a SharedPtr with the fields of the
    WeakPtr and adds exactly one to shared_refs. *)
Theorem promotion_throws_iff_expired m w h x :
  wptrs m !! w = Some h →
  ((block_ h = None ∨
    ∃ b cb, block_ h = Some b ∧ heap m !! b = Some cb ∧ shared_refs cb = 0) →
   SharedPtr_from_weak x w m = Throw BadWeakPtr m) ∧
  (∀ b cb,
     block_ h = Some b → heap m !! b = Some cb →
     0 < shared_refs cb < INT_MAX → sptrs m !! x = None →
     SharedPtr_from_weak x w m =
       Ok tt (with_heap (<[b := set_shared_refs (shared_refs cb + 1) cb]> (heap m))
                (with_sptrs (<[x := h]> (sptrs m)) m))).
Proof.
  intros Hw. split.
  - intros [Hb | (b & cb & Hb & Hcb & Hz)];
      unfold SharedPtr_from_weak, WeakPtr_Expired, WeakPtr_UseCount; eval_op; done.
  - intros b cb Hb Hcb Hr Hx.
    unfold SharedPtr_from_weak, WeakPtr_Expired, WeakPtr_UseCount. eval_op.
    rewrite <- Hb, handle_eta. done.
Qed.

Lemma promotion_throws_iff_expired_witness :
  wptrs expired_example !! 1%positive =
    Some {| ptr_ := ObjPtr 1; block_ := Some 1%positive |} ∧
  SharedPtr_from_weak 2 1 expired_example = Throw BadWeakPtr expired_example.
Proof.
  split; [reflexivity|].
  apply (promotion_throws_iff_expired expired_example 1
           {| ptr_ := ObjPtr 1; block_ := Some 1%positive |} 2); [reflexivity|].
  right. by eexists 1%positive, _.
Defined.

(** Claim C5. MakeShared returns a SharedPtr that observes the storage of
    a new holder block with shared_refs = 1, so UseCount() is 1. When the
    last SharedPtr to it is destroyed, the object is destroyed in place,
    once, and no object is deleted; the block goes away at that moment
    if no WeakPtr is left, and otherwise when the last WeakPtr is
    destroyed, without a second destructor call. *)
Theorem MakeShared_in_place m x :
  sptrs m !! x = None →
  heap m !! next m = None →
  avail m ≠ 0%nat →
  let b := next m in
  ∃ m1,
    MakeShared x m = Ok tt m1 ∧
    SharedPtr_UseCount x m1 = Ok 1 m1 ∧
    sptrs m1 !! x = Some {| ptr_ := StoragePtr b; block_ := Some b |} ∧
    heap m1 !! b =
      Some {| shared_refs := 1; weak_refs := 0; variant := ControlBlockHolder |} ∧
    trace m1 = EvConstructInPlace b :: EvNewBlock b :: trace m ∧
    (∃ m2,
       SharedPtr_dtor x m1 = Ok tt m2 ∧
       trace m2 =
         EvDeleteBlock b :: EvDestroyInPlace b :: EvIfNoShared b :: trace m1 ∧
       heap m2 = heap m) ∧
    (∀ w, wptrs m !! w = None →
       ∃ m2 m3 m4,
         WeakPtr_from_shared w x m1 = Ok tt m2 ∧
         SharedPtr_dtor x m2 = Ok tt m3 ∧
         trace m3 = EvDestroyInPlace b :: EvIfNoShared b :: trace m1 ∧
         heap m3 !! b =
           Some {| shared_refs := 0; weak_refs := 1;
                   variant := ControlBlockHolder |} ∧
         WeakPtr_dtor w m3 = Ok tt m4 ∧
         trace m4 = EvDeleteBlock b :: trace m3 ∧
         heap m4 = heap m).
Proof.
  intros Hx Hfresh Havail b. subst b.
  destruct (avail m) as [|n] eqn:Hn; [done|].
  eexists. split; [|split; [|split; [|split; [|split; [|split]]]]].
  - unfold MakeShared, SharedPtr_from_raw_block, Holder_Get.
    unfold_ops; unfold_monad. rewrite Hn. eval_op. done.
  - unfold SharedPtr_UseCount. eval_op. done.
  - simpl. by rewrite lookup_insert_eq.
  - simpl. by rewrite lookup_insert_eq.
  - done.
  - eexists. split; [|split].
    + unfold SharedPtr_dtor, IfNoShared. eval_op. done.
    + done.
    + simpl. rewrite !insert_insert_eq, delete_insert_eq. by apply delete_id.
  - intros w Hw. eexists _, _, _. split; [|split; [|split; [|split; [|split; [|split]]]]].
    + unfold WeakPtr_from_shared. eval_op. done.
    + unfold SharedPtr_dtor, IfNoShared. eval_op. done.
    + done.
    + simpl. by rewrite lookup_insert_eq.
    + unfold WeakPtr_dtor. eval_op. done.
    + done.
    + simpl. rewrite !insert_insert_eq, delete_insert_eq. by apply delete_id.
Qed.

Lemma MakeShared_in_place_witness :
  sptrs (init 1) !! 1%positive = None ∧
  ∃ m1,
    MakeShared 1 (init 1) = Ok tt m1 ∧
    SharedPtr_UseCount 1 m1 = Ok 1 m1 ∧
    ∃ m2,
      SharedPtr_dtor 1 m1 = Ok tt m2 ∧
      trace m2 =
        EvDeleteBlock 1 :: EvDestroyInPlace 1 :: EvIfNoShared 1 :: trace m1 ∧
      heap m2 = heap (init 1).
Proof.
  split; [reflexivity|].
  destruct (MakeShared_in_place (init 1) 1 eq_refl eq_refl ltac:(discriminate))
    as (m1 & H1 & H2 & _ & _ & _ & H3 & _).
  exists m1. split; [exact H1|]. split; [exact H2|]. exact H3.
Defined.

(** Claim C6. For a SharedPtr [d] with a live block and any raw pointer
    [p], the aliasing constructor gives a SharedPtr that observes [p] and
    shares the block of [d]: both report the count before the call plus
    one. Destroying [d] afterwards releases nothing and deletes nothing:
    the trace and the heap are what they were before the construction,
    and the new SharedPtr still refers to the block. *)
Theorem alias_shares_block m d hd blk cb x p :
  sptrs m !! d = Some hd →
  block_ hd = Some blk →
  heap m !! blk = Some cb →
  1 ≤ shared_refs cb < INT_MAX →
  0 ≤ weak_refs cb ∧ shared_refs cb + weak_refs cb ≤ INT_MAX →
  sptrs m !! x = None →
  ∃ m1,
    SharedPtr_alias x d p m = Ok tt m1 ∧
    SharedPtr_Get x m1 = Ok p m1 ∧
    SharedPtr_UseCount x m1 = Ok (shared_refs cb + 1) m1 ∧
    SharedPtr_UseCount d m1 = Ok (shared_refs cb + 1) m1 ∧
    ∃ m2,
      SharedPtr_dtor d m1 = Ok tt m2 ∧
      trace m2 = trace m ∧
      heap m2 = heap m ∧
      sptrs m2 !! x = Some {| ptr_ := p; block_ := Some blk |} ∧
      SharedPtr_UseCount x m2 = Ok (shared_refs cb) m2.
Proof.
  intros Hd Hb Hcb Hs Hw Hx.
  assert (d ≠ x) by congruence.
  eexists. split; [|split; [|split; [|split]]].
  - unfold SharedPtr_alias. eval_op. done.
  - unfold SharedPtr_Get. eval_op. done.
  - unfold SharedPtr_UseCount. eval_op. done.
  - unfold SharedPtr_UseCount. eval_op. done.
  - eexists. split; [|split; [|split; [|split]]].
    + unfold SharedPtr_dtor. eval_op. done.
    + done.
    + simpl. rewrite !insert_insert_eq. rewrite <- (insert_id (heap m) blk cb Hcb) at 2.
      f_equal. destruct cb; unfold set_shared_refs; simpl. f_equal. lia.
    + simpl. rewrite lookup_delete_ne by done. by rewrite lookup_insert_eq.
    + unfold SharedPtr_UseCount. eval_op.
      replace (shared_refs cb + 1 - 1) with (shared_refs cb) by lia.
      eval_op. done.
Qed.

Lemma alias_shares_block_witness :
  sptrs observed_example !! 1%positive =
    Some {| ptr_ := ObjPtr 5; block_ := Some 1%positive |} ∧
  ∃ m1,
    SharedPtr_alias 2 1 (ObjPtr 6) observed_example = Ok tt m1 ∧
    SharedPtr_Get 2 m1 = Ok (ObjPtr 6) m1 ∧
    SharedPtr_UseCount 2 m1 = Ok (1 + 1) m1 ∧
    SharedPtr_UseCount 1 m1 = Ok (1 + 1) m1 ∧
    ∃ m2,
      SharedPtr_dtor 1 m1 = Ok tt m2 ∧
      trace m2 = trace observed_example ∧
      heap m2 = heap observed_example ∧
      sptrs m2 !! 2%positive = Some {| ptr_ := ObjPtr 6; block_ := Some 1%positive |} ∧
      SharedPtr_UseCount 2 m2 = Ok 1 m2.
Proof.
  split; [reflexivity|].
  apply (alias_shares_block observed_example 1
           {| ptr_ := ObjPtr 5; block_ := Some 1%positive |} 1
           {| shared_refs := 1; weak_refs := 1;
              variant := ControlBlockPtr (ObjPtr 5) |} 2 (ObjPtr 6));
    try reflexivity; vm_compute; repeat split; discriminate.
Defined.

(** Claim C7 as stated fails: when the allocation of the control block
    fails, the raw-pointer constructor leaves the pointer it was handed
    neither deleted nor owned by any control block. *)
Lemma raw_pointer_orphaned_counterexample :
  ¬ (∀ m x p m',
       SharedPtr_from_raw x p m = Throw BadAlloc m' →
       EvDeleteObject p ∈ trace m' ∨
       ∃ b cb, heap m' !! b = Some cb ∧ variant cb = ControlBlockPtr p).
Proof.
  intros H.
  destruct (H (init 0) 1%positive (ObjPtr 5) (init 0) eq_refl)
    as [Hin | (b & cb & Hb & _)].
  - by apply not_elem_of_nil in Hin.
  - simpl in Hb. by rewrite lookup_empty in Hb.
Qed.

(** ** Failures, with the code of the managed object *)

Lemma quiet_SharedPtr_UseCount x : quiet (SharedPtr_UseCount x).
Proof. unfold SharedPtr_UseCount. quiet_op. Qed.
Lemma quiet_SharedPtr_Get x : quiet (SharedPtr_Get x).
Proof. unfold SharedPtr_Get. quiet_op. Qed.
Lemma quiet_SharedPtr_bool x : quiet (SharedPtr_bool x).
Proof. unfold SharedPtr_bool. quiet_op. Qed.
Lemma quiet_SharedPtr_eq x y : quiet (SharedPtr_eq x y).
Proof. unfold SharedPtr_eq, SharedPtr_Get. quiet_op. Qed.

Section failures.
Variable destroy : rawptr → M unit.
Variable construct : positive → M unit.

(** The destructor of a managed object lets no exception out, and its
    constructor does not call [std::terminate]. *)
Hypothesis destroy_noexcept : ∀ p, quiet (destroy p).
Hypothesis construct_returns_or_throws : ∀ b m, construct b m ≠ Fault Terminated.

Lemma quiet_IfNoShared_of b : quiet (IfNoShared_of destroy b).
Proof. unfold IfNoShared_of. quiet_op; apply destroy_noexcept. Qed.

Lemma quiet_SharedPtr_dtor_of x : quiet (SharedPtr_dtor_of destroy x).
Proof.
  pose proof quiet_IfNoShared_of. unfold SharedPtr_dtor_of. quiet_op.
Qed.

Lemma quiet_SharedPtr_assign_of x y : quiet (SharedPtr_assign_of destroy x y).
Proof. pose proof quiet_SharedPtr_dtor_of. unfold SharedPtr_assign_of. quiet_op. Qed.

Lemma quiet_SharedPtr_move_assign_of x y :
  quiet (SharedPtr_move_assign_of destroy x y).
Proof.
  pose proof quiet_SharedPtr_dtor_of. unfold SharedPtr_move_assign_of. quiet_op.
Qed.

Lemma quiet_SharedPtr_Reset_of x : quiet (SharedPtr_Reset_of destroy x).
Proof. pose proof quiet_SharedPtr_dtor_of. unfold SharedPtr_Reset_of. quiet_op. Qed.

Lemma SharedPtr_Reset_ptr_of_Throw x p m e m' :
  SharedPtr_Reset_ptr_of destroy x p m = Throw e m' →
  e = BadAlloc ∧ m' = m ∧ avail m = 0%nat.
Proof.
  pose proof quiet_SharedPtr_dtor_of.
  unfold SharedPtr_Reset_ptr_of.
  intros [H' | (h & m0 & Hg & H')]%bind_Throw.
  { exfalso. revert H'. apply quiet_no_Throw. auto with quiet. }
  assert (m0 = m) as -> by (unfold get_shared in Hg; case_match; by simplify_eq).
  unfold temp_shared, bind at 1 in H'.
  apply bind_Throw in H' as [H' | (b & m1 & _ & H')];
    [by eapply SharedPtr_from_raw_Throw|].
  exfalso. revert H'. apply quiet_no_Throw. quiet_op.
Qed.

Lemma SharedPtr_Reset_ptr_of_not_Terminated x p m :
  SharedPtr_Reset_ptr_of destroy x p m ≠ Fault Terminated.
Proof.
  pose proof quiet_SharedPtr_dtor_of.
  unfold SharedPtr_Reset_ptr_of.
  intros [H' | (h & m0 & Hg & H')]%bind_Fault.
  { revert H'. apply quiet_not_Terminated. auto with quiet. }
  unfold temp_shared, bind at 1 in H'.
  apply bind_Fault in H' as [H' | (b & m1 & _ & H')];
    [by eapply SharedPtr_from_raw_not_Terminated|].
  revert H'. apply quiet_not_Terminated. quiet_op.
Qed.

(** How the new-expression of MakeShared fails. *)
Lemma new_holder_of_Throw m e m' :
  new_holder_of construct m = Throw e m' →
  (e = BadAlloc ∧ m' = m ∧ avail m = 0%nat) ∨
  ∃ m0 m1,
    new_block ControlBlockHolder m = Ok (next m) m0 ∧
    construct (next m) m0 = Throw e m1 ∧
    delete_block (next m) m1 = Ok tt m'.
Proof.
  unfold new_holder_of.
  intros [H | (b & m0 & Hn & H)]%bind_Throw; [left; by eapply new_block_Throw|].
  right.
  assert (b = next m) as ->.
  { unfold new_block in Hn. destruct (avail m); [done|]. by injection Hn as <- _. }
  apply bind_Throw in H as [H | ([] & m1 & _ & H)].
  - unfold unwind in H.
    destruct (construct (next m) m0) as [[] m1|e1 m1|f] eqn:Hc; [done| |done].
    destruct (delete_block (next m) m1) as [[] m2|e2 m2|f] eqn:Hd.
    + injection H as <- <-. by exists m0, m1.
    + exfalso. revert Hd. apply quiet_no_Throw. auto with quiet.
    + done.
  - exfalso. revert H. apply quiet_no_Throw. quiet_op.
Qed.

Lemma new_holder_of_not_Terminated m : new_holder_of construct m ≠ Fault Terminated.
Proof.
  unfold new_holder_of.
  intros [H | (b & m0 & Hn & H)]%bind_Fault; [by eapply new_block_not_Terminated|].
  apply bind_Fault in H as [H | ([] & m1 & _ & H)].
  - unfold unwind in H.
    destruct (construct b m0) as [[] m1|e1 m1|f] eqn:Hc; [done| |].
    + destruct (delete_block b m1) as [[] m2|e2 m2|f] eqn:Hd; [done..|].
      injection H as ->. revert Hd. apply quiet_not_Terminated. auto with quiet.
    + injection H as ->. by eapply construct_returns_or_throws.
  - revert H. apply quiet_not_Terminated. quiet_op.
Qed.

Lemma MakeShared_of_Throw x m e m' :
  MakeShared_of construct x m = Throw e m' →
  new_holder_of construct m = Throw e m'.
Proof.
  unfold MakeShared_of.
  intros [H | (b & m1 & _ & H)]%bind_Throw; [done|].
  exfalso. revert H. apply quiet_no_Throw. quiet_op.
Qed.

Lemma MakeShared_of_not_Terminated x m :
  MakeShared_of construct x m ≠ Fault Terminated.
Proof.
  unfold MakeShared_of.
  intros [H | (b & m1 & _ & H)]%bind_Fault;
    [by eapply new_holder_of_not_Terminated|].
  revert H. apply quiet_not_Terminated. quiet_op.
Qed.

Lemma exec_of_not_Terminated s m : exec_of destroy construct s m ≠ Fault Terminated.
Proof.
  destruct s;
    match goal with
    | |- exec_of _ _ ?s _ ≠ _ => try exact (exec_not_Terminated s m)
    end; simpl.
  - apply MakeShared_of_not_Terminated.
  - apply quiet_not_Terminated, quiet_SharedPtr_assign_of.
  - apply quiet_not_Terminated, quiet_SharedPtr_move_assign_of.
  - apply quiet_not_Terminated, quiet_SharedPtr_Reset_of.
  - apply SharedPtr_Reset_ptr_of_not_Terminated.
  - apply quiet_not_Terminated, quiet_SharedPtr_dtor_of.
Qed.
Lemma exec_of_Throw s m e m' :
  exec_of destroy construct s m = Throw e m' →
  (e = BadWeakPtr ∧ m' = m ∧ ∃ x w, s = SPromote x w) ∨
  (e = BadAlloc ∧ m' = m ∧ avail m = 0%nat ∧
   ((∃ x p, s = SFromRaw x p) ∨ (∃ x p, s = SResetPtr x p) ∨
    (∃ x, s = SMake x))) ∨
  (∃ x m0 m1,
     s = SMake x ∧
     new_block ControlBlockHolder m = Ok (next m) m0 ∧
     construct (next m) m0 = Throw e m1 ∧
     delete_block (next m) m1 = Ok tt m').
Proof.
  intros H.
  destruct s;
    match goal with
    | H : exec_of _ _ ?s _ = _ |- _ =>
        try (destruct (exec_Throw s m e m' H) as [-> [[-> ?]|(-> & ? & ?)]];
             [by left | right; left; by split_and!])
    end; simpl in H.
  - apply MakeShared_of_Throw, new_holder_of_Throw in H
      as [(-> & -> & ?)|(m0 & m1 & ? & ? & ?)].
    + right. left. split_and!; eauto.
    + right. right. by eexists _, m0, m1.
  - exfalso. revert H. apply quiet_no_Throw, quiet_SharedPtr_assign_of.
  - exfalso. revert H. apply quiet_no_Throw, quiet_SharedPtr_move_assign_of.
  - exfalso. revert H. apply quiet_no_Throw, quiet_SharedPtr_Reset_of.
  - apply SharedPtr_Reset_ptr_of_Throw in H as (-> & -> & ?).
    right. left. split_and!; eauto 6.
  - exfalso. revert H. apply quiet_no_Throw, quiet_SharedPtr_dtor_of.
Qed.

(** Claim C7, amended. With a managed object whose destructor lets no
    exception out: no operation breaks a noexcept promise, and the
    observers and the constructor from a pointer and a block never throw.
    A statement throws only as the promotion of an expired WeakPtr, as an
    allocation that the allocator cannot serve (raw-pointer constructor,
    Reset(ptr), MakeShared), or as MakeShared when the constructor of the
    managed object throws. In the first two cases the machine at the throw
    is the machine before the statement: no handle, no block, no counter
    change and no deletion has been added, so the raw pointer handed to
    the constructor or to Reset is neither deleted nor owned and is still
    the caller's to release; and when the allocator has no memory, the
    three allocating statements do throw. In the third case the exception
    of the constructor goes through and the new-expression gives the
    block back: if the constructor has left the machine as it found it,
    no handle has been made, no destructor has run, and the blocks (the
    address of the new block being unused before) and the memory are
    those before the call. *)
Theorem failures_leave_no_partial_state m :
  (∀ s, exec_of destroy construct s m ≠ Fault Terminated) ∧
  (∀ x y p blk,
     quiet (SharedPtr_UseCount x) ∧ quiet (SharedPtr_Get x) ∧
     quiet (SharedPtr_bool x) ∧ quiet (SharedPtr_eq x y) ∧
     quiet (WeakPtr_UseCount x) ∧ quiet (WeakPtr_Expired x) ∧
     quiet (SharedPtr_from_raw_block x p blk)) ∧
  (∀ s e m',
     exec_of destroy construct s m = Throw e m' →
     (e = BadWeakPtr ∧ m' = m ∧ ∃ x w, s = SPromote x w) ∨
     (e = BadAlloc ∧ m' = m ∧ avail m = 0%nat ∧
      ((∃ x p, s = SFromRaw x p) ∨ (∃ x p, s = SResetPtr x p) ∨
       (∃ x, s = SMake x))) ∨
     (∃ x m0 m1,
        s = SMake x ∧
        new_block ControlBlockHolder m = Ok (next m) m0 ∧
        construct (next m) m0 = Throw e m1 ∧
        delete_block (next m) m1 = Ok tt m' ∧
        (m1 = m0 →
         sptrs m' = sptrs m ∧ wptrs m' = wptrs m ∧
         heap m' = delete (next m) (heap m) ∧
         (heap m !! next m = None → heap m' = heap m) ∧
         avail m' = avail m ∧
         trace m' = EvDeleteBlock (next m) :: EvNewBlock (next m) :: trace m))) ∧
  (avail m = 0%nat →
   ∀ x p,
     exec_of destroy construct (SFromRaw x p) m = Throw BadAlloc m ∧
     exec_of destroy construct (SMake x) m = Throw BadAlloc m ∧
     (is_Some (sptrs m !! x) →
      exec_of destroy construct (SResetPtr x p) m = Throw BadAlloc m)).
Proof.
  split; [|split; [|split]].
  - intros s. apply exec_of_not_Terminated.
  - intros x y p blk. split_and!.
    + apply quiet_SharedPtr_UseCount.
    + apply quiet_SharedPtr_Get.
    + apply quiet_SharedPtr_bool.
    + apply quiet_SharedPtr_eq.
    + apply quiet_WeakPtr_UseCount.
    + apply quiet_WeakPtr_Expired.
    + apply quiet_SharedPtr_from_raw_block.
  - intros s e m' [?|[?|(x & m0 & m1 & -> & Hn & Hc & Hd)]]%exec_of_Throw;
      [by left | by right; left | right; right].
    exists x, m0, m1. split_and!; try done.
    intros ->. unfold new_block in Hn. destruct (avail m) as [|n] eqn:Ha; [done|].
    injection Hn as <-. unfold delete_block in Hd. simpl in Hd.
    rewrite lookup_insert_eq in Hd. injection Hd as <-. simpl.
    split_and!; try done; rewrite delete_insert_eq; [done|].
    intros ?. by apply delete_id.
  - intros Ha x p. simpl.
    unfold SharedPtr_from_raw, SharedPtr_Reset_ptr_of, SharedPtr_from_raw,
      MakeShared_of, new_holder_of, temp_shared, bind, new_block, get_shared.
    rewrite Ha. split_and!; try done.
    intros [h ->]. by rewrite Ha.
Qed.
End failures.

Lemma failures_leave_no_partial_state_witness :
  (∃ m',
     exec_of no_code throwing (SMake 2) (after [SFromRaw 1 (ObjPtr 5)] 2)
       = Throw ObjectException m' ∧
     heap m' = heap (after [SFromRaw 1 (ObjPtr 5)] 2) ∧
     avail m' = avail (after [SFromRaw 1 (ObjPtr 5)] 2)) ∧
  ∀ s, exec_of no_code throwing s (after [SFromRaw 1 (ObjPtr 5)] 2)
         ≠ Fault Terminated.
Proof.
  split.
  - eexists. split; [vm_compute; reflexivity|]. split; vm_compute; reflexivity.
  - apply (failures_leave_no_partial_state no_code throwing).
    + intros p. apply quiet_ret.
    + intros b m. discriminate.
Defined.

(** Claim C8. Copy-assigning or move-assigning a SharedPtr or a WeakPtr
    to itself returns the machine as it was: the same counters, the same
    trace, and the handle with the same observed pointer and block. *)
Theorem self_assignment_changes_nothing m :
  (∀ x h,
     sptrs m !! x = Some h →
     (∀ b, block_ h = Some b →
           ∃ cb, heap m !! b = Some cb ∧
                 1 ≤ shared_refs cb < INT_MAX ∧ 0 ≤ weak_refs cb ∧
                 shared_refs cb + weak_refs cb ≤ INT_MAX) →
     SharedPtr_assign x x m = Ok tt m ∧
     SharedPtr_move_assign x x m = Ok tt m) ∧
  (∀ w h,
     wptrs m !! w = Some h →
     (∀ b, block_ h = Some b →
           ∃ cb, heap m !! b = Some cb ∧
                 1 ≤ weak_refs cb < INT_MAX ∧ 0 ≤ shared_refs cb ∧
                 shared_refs cb + weak_refs cb ≤ INT_MAX) →
     WeakPtr_assign w w m = Ok tt m ∧
     WeakPtr_move_assign w w m = Ok tt m).
Proof.
  split.
  - intros x h Hx Hlive. split.
    + unfold SharedPtr_assign, SharedPtr_copy, SharedPtr_Swap, SharedPtr_dtor.
      unfold_ops; unfold_monad; cbn beta; rewrite Hx; cbn beta iota.
      pose proof (temp_shared_fresh m) as Htmp.
      generalize dependent (fresh (dom (sptrs m))). intros tmp Htmp.
      assert (tmp ≠ x) as Hne by congruence.
      destruct (block_ h) as [b|] eqn:Hb.
      * destruct (Hlive b eq_refl) as (cb & Hcb & Hs & Hw & Hsw).
        eval_op.
        replace (shared_refs cb + 1 - 1) with (shared_refs cb) by lia.
        eval_op. f_equal. same_machine.
      * eval_op. f_equal. same_machine.
    + unfold SharedPtr_move_assign, SharedPtr_move, SharedPtr_Swap, SharedPtr_dtor.
      unfold_ops; unfold_monad; cbn beta; rewrite Hx; cbn beta iota.
      pose proof (temp_shared_fresh m) as Htmp.
      generalize dependent (fresh (dom (sptrs m))). intros tmp Htmp.
      assert (tmp ≠ x) as Hne by congruence.
      eval_op. f_equal. same_machine.
  - intros w h Hx Hlive. split.
    + unfold WeakPtr_assign, WeakPtr_copy, WeakPtr_Swap, WeakPtr_dtor.
      unfold_ops; unfold_monad; cbn beta; rewrite Hx; cbn beta iota.
      pose proof (temp_weak_fresh m) as Htmp.
      generalize dependent (fresh (dom (wptrs m))). intros tmp Htmp.
      assert (tmp ≠ w) as Hne by congruence.
      destruct (block_ h) as [b|] eqn:Hb.
      * destruct (Hlive b eq_refl) as (cb & Hcb & Hs & Hw & Hsw).
        eval_op.
        replace (weak_refs cb + 1 - 1) with (weak_refs cb) by lia.
        eval_op. f_equal. same_machine.
      * eval_op. f_equal. same_machine.
    + unfold WeakPtr_move_assign, WeakPtr_move, WeakPtr_Swap, WeakPtr_dtor.
      unfold_ops; unfold_monad; cbn beta; rewrite Hx; cbn beta iota.
      pose proof (temp_weak_fresh m) as Htmp.
      generalize dependent (fresh (dom (wptrs m))). intros tmp Htmp.
      assert (tmp ≠ w) as Hne by congruence.
      eval_op. f_equal. same_machine.
Qed.

Lemma self_assignment_changes_nothing_witness :
  (SharedPtr_assign 1 1 observed_example = Ok tt observed_example ∧
   SharedPtr_move_assign 1 1 observed_example = Ok tt observed_example) ∧
  (WeakPtr_assign 1 1 observed_example = Ok tt observed_example ∧
   WeakPtr_move_assign 1 1 observed_example = Ok tt observed_example).
Proof.
  destruct (self_assignment_changes_nothing observed_example) as [HS HW].
  split.
  - apply (HS 1%positive {| ptr_ := ObjPtr 5; block_ := Some 1%positive |});
      [reflexivity|].
    intros b [= <-]. eexists. split; [reflexivity|]. vm_compute.
    repeat split; discriminate.
  - apply (HW 1%positive {| ptr_ := ObjPtr 5; block_ := Some 1%positive |});
      [reflexivity|].
    intros b [= <-]. eexists. split; [reflexivity|]. vm_compute.
    repeat split; discriminate.
Defined.

(** Claim C9. For a SharedPtr or a WeakPtr whose block is null: UseCount()
    is 0 (and Expired() true), destruction only ends the object, a copy
    has the same fields, a move hands the fields over and leaves the
    source empty, and a WeakPtr made from such a SharedPtr has a null
    block and is expired; the heap, and with it every counter, and the
    trace stay as they were. *)
Theorem empty_handle_operations_are_no_ops m :
  (∀ x h, sptrs m !! x = Some h → block_ h = None →
     SharedPtr_UseCount x m = Ok 0 m ∧
     SharedPtr_dtor x m = Ok tt (with_sptrs (delete x (sptrs m)) m) ∧
     (∀ y, sptrs m !! y = None →
        SharedPtr_copy y x m = Ok tt (with_sptrs (<[y := h]> (sptrs m)) m) ∧
        SharedPtr_move y x m =
          Ok tt (with_sptrs (<[x := empty_handle]> (<[y := h]> (sptrs m))) m)) ∧
     (∀ w, wptrs m !! w = None →
        let m' := with_wptrs (<[w := h]> (wptrs m)) m in
        WeakPtr_from_shared w x m = Ok tt m' ∧
        WeakPtr_Expired w m' = Ok true m')) ∧
  (∀ w h, wptrs m !! w = Some h → block_ h = None →
     WeakPtr_UseCount w m = Ok 0 m ∧
     WeakPtr_Expired w m = Ok true m ∧
     WeakPtr_dtor w m = Ok tt (with_wptrs (delete w (wptrs m)) m) ∧
     (∀ v, wptrs m !! v = None →
        WeakPtr_copy v w m = Ok tt (with_wptrs (<[v := h]> (wptrs m)) m) ∧
        WeakPtr_move v w m =
          Ok tt (with_wptrs (<[w := empty_handle]> (<[v := h]> (wptrs m))) m))).
Proof.
  split.
  - intros x h Hx Hb. split_and!.
    + unfold SharedPtr_UseCount. eval_op. done.
    + unfold SharedPtr_dtor. eval_op. done.
    + intros y Hy. assert (x ≠ y) by congruence. split.
      * unfold SharedPtr_copy. eval_op. rewrite <- Hb, handle_eta. done.
      * unfold SharedPtr_move. eval_op. rewrite ?handle_eta, ?(handle_eta_None h Hb).
        by rewrite insert_insert_eq.
    + intros w Hw. simpl. split.
      * unfold WeakPtr_from_shared. eval_op. rewrite <- Hb, handle_eta. done.
      * unfold WeakPtr_Expired, WeakPtr_UseCount. eval_op. done.
  - intros w h Hw Hb. split_and!.
    + unfold WeakPtr_UseCount. eval_op. done.
    + unfold WeakPtr_Expired, WeakPtr_UseCount. eval_op. done.
    + unfold WeakPtr_dtor. eval_op. done.
    + intros v Hv. assert (w ≠ v) by congruence. split.
      * unfold WeakPtr_copy. eval_op. rewrite <- Hb, handle_eta. done.
      * unfold WeakPtr_move. eval_op. rewrite ?handle_eta, ?(handle_eta_None h Hb).
        by rewrite insert_insert_eq.
Qed.

Lemma empty_handle_operations_are_no_ops_witness :
  sptrs empty_example !! 1%positive = Some empty_handle ∧
  SharedPtr_UseCount 1 empty_example = Ok 0 empty_example ∧
  SharedPtr_dtor 1 empty_example =
    Ok tt (with_sptrs (delete 1%positive (sptrs empty_example)) empty_example) ∧
  wptrs empty_example !! 1%positive = Some empty_handle ∧
  WeakPtr_Expired 1 empty_example = Ok true empty_example.
Proof.
  destruct (empty_handle_operations_are_no_ops empty_example) as [HS HW].
  destruct (HS 1%positive empty_handle eq_refl eq_refl) as (H1 & H2 & _).
  destruct (HW 1%positive empty_handle eq_refl eq_refl) as (_ & H3 & _).
  split; [reflexivity|]. split; [exact H1|]. split; [exact H2|].
  split; [reflexivity|]. exact H3.
Defined.

(** Claim C10. IfNoShared on a pointer-owning block deletes the owned
    pointer (if it is not null) and sets it to null; a second call
    deletes nothing and changes nothing, only the call itself is
    logged. *)
Theorem IfNoShared_idempotent m b cb p :
  heap m !! b = Some cb →
  variant cb = ControlBlockPtr p →
  ∃ m1,
    IfNoShared b m = Ok tt m1 ∧
    trace m1 =
      match p with
      | nullptr => []
      | _ => [EvDeleteObject p]
      end ++ EvIfNoShared b :: trace m ∧
    heap m1 = <[b := set_variant (ControlBlockPtr nullptr) cb]> (heap m) ∧
    IfNoShared b m1 = Ok tt (with_trace (EvIfNoShared b :: trace m1) m1).
Proof.
  intros Hcb Hv. unfold IfNoShared. eval_op. rewrite Hv.
  destruct p; eval_op; (eexists; split; [done|]); simpl;
    (split_and!; [done | done |]); eval_op.
  all: unfold with_trace, with_heap; simpl; f_equal.
  all: by rewrite !insert_insert_eq.
Qed.

Lemma IfNoShared_idempotent_witness :
  heap owner_example !! 1%positive =
    Some {| shared_refs := 1; weak_refs := 0; variant := ControlBlockPtr (ObjPtr 5) |} ∧
  ∃ m1,
    IfNoShared 1 owner_example = Ok tt m1 ∧
    trace m1 = [EvDeleteObject (ObjPtr 5)] ++ EvIfNoShared 1 :: trace owner_example ∧
    heap m1 =
      <[1%positive := set_variant (ControlBlockPtr nullptr)
          {| shared_refs := 1; weak_refs := 0;
             variant := ControlBlockPtr (ObjPtr 5) |}]> (heap owner_example) ∧
    IfNoShared 1 m1 = Ok tt (with_trace (EvIfNoShared 1 :: trace m1) m1).
Proof.
  split; [reflexivity|].
  apply (IfNoShared_idempotent owner_example 1 _ (ObjPtr 5)); reflexivity.
Defined.

(** * Further properties of the code *)

(** ** Objects that run no code of their own *)

Lemma bind_ext {A B} (c c' : M A) (k k' : A → M B) m :
  c m = c' m → (∀ a m1, c m = Ok a m1 → k a m1 = k' a m1) →
  bind c k m = bind c' k' m.
Proof.
  intros Hc Hk. unfold bind. rewrite <- Hc.
  destruct (c m) as [a m1| |]; [by apply Hk | done | done].
Qed.

Lemma noexcept_ext {A} (c c' : M A) m : c m = c' m → noexcept c m = noexcept c' m.
Proof. unfold noexcept. by intros ->. Qed.

Section plain_objects.
Variable destroy : rawptr → M unit.
Variable construct : positive → M unit.
Hypothesis Hplain : plain destroy construct.

Lemma IfNoShared_of_plain b m : IfNoShared_of destroy b m = IfNoShared b m.
Proof.
  destruct Hplain as [Hd _].
  unfold IfNoShared_of, IfNoShared. unfold_monad.
  destruct (heap m !! b) as [cb|] eqn:Hb; [|done]. simpl.
  destruct (variant cb) as [[|a|a]|]; simpl; rewrite ?Hd; simpl;
    repeat (rewrite Hb; simpl); done.
Qed.

Lemma new_holder_of_plain m : new_holder_of construct m = new_holder m.
Proof.
  destruct Hplain as [_ Hc].
  unfold new_holder_of, new_holder, unwind, bind.
  destruct (new_block ControlBlockHolder m) as [b m1| |]; [|done..].
  by rewrite Hc.
Qed.

Lemma SharedPtr_dtor_of_plain x m : SharedPtr_dtor_of destroy x m = SharedPtr_dtor x m.
Proof.
  unfold SharedPtr_dtor_of, SharedPtr_dtor.
  apply bind_ext; [done|]. intros h m1 _.
  apply bind_ext; [|done].
  unfold if_block. destruct (block_ h) as [b|]; [|done].
  apply bind_ext; [done|]. intros _ m2 _.
  apply bind_ext; [done|]. intros cb m3 _.
  apply bind_ext; [|done].
  case_decide; [apply IfNoShared_of_plain | done].
Qed.

Lemma exec_of_plain s m : exec_of destroy construct s m = exec s m.
Proof.
  destruct s; simpl; try done.
  - unfold MakeShared_of, MakeShared. apply bind_ext; [apply new_holder_of_plain | done].
  - unfold SharedPtr_assign_of, SharedPtr_assign. apply noexcept_ext.
    do 4 (apply bind_ext; [done|]; intros ? ? _). apply SharedPtr_dtor_of_plain.
  - unfold SharedPtr_move_assign_of, SharedPtr_move_assign. apply noexcept_ext.
    do 4 (apply bind_ext; [done|]; intros ? ? _). apply SharedPtr_dtor_of_plain.
  - unfold SharedPtr_Reset_of, SharedPtr_Reset. apply noexcept_ext.
    do 4 (apply bind_ext; [done|]; intros ? ? _). apply SharedPtr_dtor_of_plain.
  - unfold SharedPtr_Reset_ptr_of, SharedPtr_Reset_ptr.
    do 4 (apply bind_ext; [done|]; intros ? ? _). apply SharedPtr_dtor_of_plain.
  - apply SharedPtr_dtor_of_plain.
Qed.

Lemma run_of_plain p m : run_of destroy construct p m = run p m.
Proof.
  revert m. induction p as [|s p IH]; intros m; simpl; [done|].
  apply bind_ext; [apply exec_of_plain | intros; apply IH].
Qed.
End plain_objects.

Lemma plain_no_code : plain (@no_code rawptr) (@no_code positive).
Proof. by split. Qed.

Section keeps_lemmas.
Context {P : Machine → Prop}.

Lemma keeps_ret {A} (a : A) : keeps P (ret a).
Proof. by intros m a' m' HP [= _ <-]. Qed.

Lemma keeps_bind {A B} (c : M A) (k : A → M B) :
  keeps P c → (∀ a, keeps P (k a)) → keeps P (bind c k).
Proof.
  intros Hc Hk m b m' HP (a & m1 & H1 & H2)%bind_Ok.
  eapply Hk; [|done]. by eapply Hc.
Qed.

Lemma keeps_noexcept {A} (c : M A) : keeps P c → keeps P (noexcept c).
Proof. intros Hc m a m' HP H%noexcept_Ok. by eapply Hc. Qed.

Lemma keeps_if_block blk k : (∀ b, keeps P (k b)) → keeps P (if_block blk k).
Proof. intros Hk. unfold if_block. destruct blk; [done | apply keeps_ret]. Qed.

Lemma keeps_throw {A} e : keeps P (@throw A e).
Proof. by intros m a m' HP. Qed.

Lemma keeps_run (p : list stmt) : (∀ s, keeps P (exec s)) → keeps P (run p).
Proof.
  intros Hs. induction p as [|s p IH]; simpl; [apply keeps_ret|].
  apply keeps_bind; [apply Hs | done].
Qed.
End keeps_lemmas.

Section Sound_lemmas.
Context (mem : nat).

Ltac sound_prim :=
  let m := fresh "m" in
  intros m ? ? HS; unfold_ops; unfold_monad; intros;
  repeat case_match; simplify_eq/=; done || (destruct HS; split; simpl; done).

Lemma Sound_load_block b : keeps (Sound mem) (load_block b).
Proof. sound_prim. Qed.
Lemma Sound_emit e : keeps (Sound mem) (emit e).
Proof. sound_prim. Qed.
Lemma Sound_int_incr x : keeps (Sound mem) (int_incr x).
Proof. sound_prim. Qed.
Lemma Sound_int_decr x : keeps (Sound mem) (int_decr x).
Proof. sound_prim. Qed.
Lemma Sound_int_add x y : keeps (Sound mem) (int_add x y).
Proof. sound_prim. Qed.
Lemma Sound_get_shared x : keeps (Sound mem) (get_shared x).
Proof. sound_prim. Qed.
Lemma Sound_set_shared x h : keeps (Sound mem) (set_shared x h).
Proof. sound_prim. Qed.
Lemma Sound_init_shared x h : keeps (Sound mem) (init_shared x h).
Proof. sound_prim. Qed.
Lemma Sound_end_shared x : keeps (Sound mem) (end_shared x).
Proof. sound_prim. Qed.
Lemma Sound_get_weak x : keeps (Sound mem) (get_weak x).
Proof. sound_prim. Qed.
Lemma Sound_set_weak x h : keeps (Sound mem) (set_weak x h).
Proof. sound_prim. Qed.
Lemma Sound_init_weak x h : keeps (Sound mem) (init_weak x h).
Proof. sound_prim. Qed.
Lemma Sound_end_weak x : keeps (Sound mem) (end_weak x).
Proof. sound_prim. Qed.
Lemma Sound_temp_shared : keeps (Sound mem) temp_shared.
Proof. sound_prim. Qed.
Lemma Sound_temp_weak : keeps (Sound mem) temp_weak.
Proof. sound_prim. Qed.

(** Writing a block back with counters of type int. *)
Lemma Sound_store m b cb cb' :
  Sound mem m → heap m !! b = Some cb →
  in_int (shared_refs cb') = true → in_int (weak_refs cb') = true →
  Sound mem (with_heap (<[b := cb']> (heap m)) m).
Proof.
  intros [HL HB] Hb Hs Hw. split; simpl.
  - intros b' cb0. rewrite lookup_insert. case_decide; [|apply HL].
    intros [= <-]. subst. by destruct (HL _ _ Hb) as (? & _).
  - rewrite map_size_insert, Hb. done.
Qed.

Lemma Sound_new_block v : keeps (Sound mem) (new_block v).
Proof.
  intros m b m' [HL HB]. unfold new_block.
  destruct (avail m) as [|n] eqn:Hn; [done|]. intros [= <- <-].
  assert (heap m !! next m = None) as Hfresh.
  { destruct (heap m !! next m) eqn:Hh; [|done].
    destruct (HL _ _ Hh) as (? & _). lia. }
  split; simpl.
  - intros b' cb0. rewrite lookup_insert. case_decide.
    + intros [= <-]. subst. split; [lia | done].
    + intros Hh. destruct (HL _ _ Hh) as (? & ? & ?). split; [lia | done].
  - rewrite map_size_insert_None by done. lia.
Qed.

Lemma Sound_delete_block b : keeps (Sound mem) (delete_block b).
Proof.
  intros m [] m' [HL HB]. unfold delete_block.
  destruct (heap m !! b) eqn:Hb; [|done]. intros [= <-].
  split; simpl.
  - intros b' cb0. rewrite lookup_delete. case_decide; [done | apply HL].
  - rewrite map_size_delete, Hb.
    assert (size (heap m) ≠ 0)%nat.
    { intros Hz%map_size_empty_inv. by rewrite Hz, lookup_empty in Hb. }
    lia.
Qed.

Ltac sound_store :=
  let HS := fresh "HS" in
  intros ? [] ? HS ?; invert_ok;
  match goal with
  | Hb : heap _ !! _ = Some _ |- _ =>
      destruct HS as [HL HB]; destruct (HL _ _ Hb) as (? & ? & ?);
      eapply (Sound_store _ _ _ _ (conj HL HB) Hb); simpl;
      first [done | by apply in_int_true]
  end.

Lemma Sound_incr_shared_refs b : keeps (Sound mem) (incr_shared_refs b).
Proof. sound_store. Qed.
Lemma Sound_decr_shared_refs b : keeps (Sound mem) (decr_shared_refs b).
Proof. sound_store. Qed.
Lemma Sound_incr_weak_refs b : keeps (Sound mem) (incr_weak_refs b).
Proof. sound_store. Qed.
Lemma Sound_decr_weak_refs b : keeps (Sound mem) (decr_weak_refs b).
Proof. sound_store. Qed.
Lemma Sound_first_owner b :
  keeps (Sound mem) (let* cb := load_block b in store_block b (set_shared_refs 1 cb)).
Proof. sound_store. Qed.

Lemma Sound_IfNoShared b : keeps (Sound mem) (IfNoShared b).
Proof.
  intros m [] m' HS (cb & vr & t & Hb & -> & _)%IfNoShared_Ok.
  destruct HS as [HL HB]. destruct (HL _ _ Hb) as (? & ? & ?).
  split; simpl.
  - intros b' cb0. rewrite lookup_insert. case_decide; [|apply HL].
    intros [= <-]. by subst.
  - by rewrite map_size_insert, Hb.
Qed.

Create HintDb sound.
#[local] Hint Resolve keeps_ret keeps_throw Sound_load_block Sound_emit
  Sound_int_incr Sound_int_decr Sound_int_add Sound_get_shared
  Sound_set_shared Sound_init_shared Sound_end_shared Sound_get_weak
  Sound_set_weak Sound_init_weak Sound_end_weak Sound_temp_shared
  Sound_temp_weak Sound_new_block Sound_delete_block
  Sound_incr_shared_refs Sound_decr_shared_refs Sound_incr_weak_refs
  Sound_decr_weak_refs Sound_first_owner Sound_IfNoShared : sound.

Ltac sound_op :=
  repeat first
    [ solve [auto with sound]
    | apply keeps_noexcept
    | apply keeps_bind; [|intros ?]
    | apply keeps_if_block; intros ?
    | case_match
    | case_decide ].

Lemma Sound_exec s : keeps (Sound mem) (exec s).
Proof.
  destruct s; simpl.
  all: unfold MakeShared, SharedPtr_Reset_ptr, SharedPtr_assign,
    SharedPtr_move_assign, SharedPtr_Reset, WeakPtr_Lock, WeakPtr_assign,
    WeakPtr_move_assign, WeakPtr_assign_shared, WeakPtr_Reset.
  all: unfold SharedPtr_default, SharedPtr_from_raw, SharedPtr_from_raw_block,
    SharedPtr_copy, SharedPtr_move, SharedPtr_alias, SharedPtr_from_weak,
    SharedPtr_Swap, SharedPtr_dtor, WeakPtr_default, WeakPtr_copy,
    WeakPtr_move, WeakPtr_from_shared, WeakPtr_Swap, WeakPtr_dtor,
    WeakPtr_Expired, WeakPtr_UseCount, new_holder, delete_if_unreferenced.
  all: sound_op.
Qed.

Lemma Sound_init : Sound mem (init mem).
Proof.
  split; simpl.
  - intros b cb. by rewrite lookup_empty.
  - rewrite map_size_empty. lia.
Qed.

Lemma run_Sound p m : run p (init mem) = Ok tt m → Sound mem m.
Proof. apply (keeps_run p Sound_exec). apply Sound_init. Qed.
End Sound_lemmas.

(** What holds between the statements of a program. *)
Lemma run_reachable p mem m :
  run p (init mem) = Ok tt m → Inv m ∧ Sound mem m.
Proof.
  intros H. split; [|by eapply run_Sound].
  eapply run_Inv; [apply Inv_init | done].
Qed.

(** In such a state the strong counter of a live block is the number of
    SharedPtr objects on it, and that number is a value of type int. *)
Lemma reachable_shared_refs p mem m b cb :
  run p (init mem) = Ok tt m → heap m !! b = Some cb →
  shared_refs cb = Z.of_nat (strong b m) ∧ 0 ≤ shared_refs cb ≤ INT_MAX.
Proof.
  intros [HI [HL _]]%run_reachable Hb.
  destruct (Inv_live _ _ _ HI Hb) as (Hs & _).
  destruct (HL _ _ Hb) as (_ & Hr%in_int_true & _).
  unfold INT_MAX. lia.
Qed.

(** UseCount and Expired on a block whose strong counter has not wrapped. *)
Lemma SharedPtr_UseCount_live m x h b cb :
  sptrs m !! x = Some h → block_ h = Some b → heap m !! b = Some cb →
  0 ≤ shared_refs cb ≤ INT_MAX →
  SharedPtr_UseCount x m = Ok (shared_refs cb) m.
Proof.
  intros Hx Hb Hcb Hr. unfold INT_MAX in Hr.
  unfold SharedPtr_UseCount. by eval_op.
Qed.

Lemma WeakPtr_UseCount_live m w h b cb :
  wptrs m !! w = Some h → block_ h = Some b → heap m !! b = Some cb →
  0 ≤ shared_refs cb ≤ INT_MAX →
  WeakPtr_UseCount w m = Ok (shared_refs cb) m ∧
  WeakPtr_Expired w m = Ok (bool_decide (shared_refs cb = 0)) m.
Proof.
  intros Hw Hb Hcb Hr. unfold INT_MAX in Hr.
  assert (WeakPtr_UseCount w m = Ok (shared_refs cb) m) as HU.
  { unfold WeakPtr_UseCount. by eval_op. }
  split; [done|].
  unfold WeakPtr_Expired, noexcept, bind, ret. by rewrite HU.
Qed.

(** Property X2. UseCount of a SharedPtr with a control block is the number of
    SharedPtr objects that share the block, itself included. *)
Theorem UseCount_is_number_of_owners p mem m x h b :
  run p (init mem) = Ok tt m →
  sptrs m !! x = Some h → block_ h = Some b →
  SharedPtr_UseCount x m = Ok (Z.of_nat (strong b m)) m ∧ (1 ≤ strong b m)%nat.
Proof.
  intros Hrun Hx Hb.
  destruct (run_reachable _ _ _ Hrun) as [HI _].
  destruct (Inv_shared_live _ _ _ _ HI Hx Hb) as [cb Hcb].
  destruct (reachable_shared_refs _ _ _ _ _ Hrun Hcb) as [Hs Hr].
  split; [|by eapply refs_pos].
  rewrite <- Hs. by eapply SharedPtr_UseCount_live.
Qed.

Lemma UseCount_is_number_of_owners_witness :
  ∃ m, run [SMake 1; SCopy 2 1; SAlias 3 2 nullptr] (init 1) = Ok tt m ∧
       SharedPtr_UseCount 3 m = Ok 3 m.
Proof.
  eexists. split; [vm_compute; reflexivity|].
  refine (proj1 (UseCount_is_number_of_owners
    [SMake 1; SCopy 2 1; SAlias 3 2 nullptr] 1 _ 3 _ 1%positive _ _ _));
    vm_compute; reflexivity.
Defined.

(** Property X3. UseCount of a WeakPtr with a control block is the number of
    SharedPtr objects on the block, and Expired says whether there is
    none. *)
Theorem WeakPtr_observes_owners p mem m w h b :
  run p (init mem) = Ok tt m →
  wptrs m !! w = Some h → block_ h = Some b →
  WeakPtr_UseCount w m = Ok (Z.of_nat (strong b m)) m ∧
  WeakPtr_Expired w m = Ok (bool_decide (strong b m = 0%nat)) m.
Proof.
  intros Hrun Hw Hb.
  destruct (run_reachable _ _ _ Hrun) as [HI _].
  destruct (Inv_weak_live _ _ _ _ HI Hw Hb) as [cb Hcb].
  destruct (reachable_shared_refs _ _ _ _ _ Hrun Hcb) as [Hs Hr].
  destruct (WeakPtr_UseCount_live _ _ _ _ _ Hw Hb Hcb Hr) as [-> ->].
  rewrite Hs. split; [done|].
  do 2 f_equal. apply bool_decide_ext. lia.
Qed.

Lemma WeakPtr_observes_owners_witness :
  ∃ m, run [SMake 1; WFromShared 1 1; SCopy 2 1; SDestroy 1] (init 1) = Ok tt m ∧
       WeakPtr_UseCount 1 m = Ok 1 m ∧ WeakPtr_Expired 1 m = Ok false m.
Proof.
  eexists. split; [vm_compute; reflexivity|].
  refine (WeakPtr_observes_owners
    [SMake 1; WFromShared 1 1; SCopy 2 1; SDestroy 1] 1 _ 1 _ 1%positive _ _ _);
    vm_compute; reflexivity.
Defined.

(** A block whose last SharedPtr is gone gets no new one. *)
Lemma exec_no_resurrection s m m' b :
  Inv m → exec s m = Ok tt m' → (b < next m)%positive →
  strong b m = 0%nat → strong b m' = 0%nat ∧ (b < next m')%positive.
Proof.
  intros HI Hs Hb H0.
  destruct (exec_step _ _ _ HI Hs) as (HI' & [_ Hn] & _).
  split; [|lia].
  pose proof (released_step _ _ _ b HI Hs) as Hr.
  pose proof (freed_step _ _ _ b HI Hs) as Hf.
  destruct (heap m' !! b) as [cb'|] eqn:Hb'; [|by apply (Inv_dead _ _ HI' Hb')].
  destruct (Inv_live _ _ _ HI' Hb') as (_ & _ & _ & Hr' & Hf' & _).
  destruct (heap m !! b) as [cb|] eqn:Hm.
  - destruct (Inv_live _ _ _ HI Hm) as (_ & _ & _ & Hr0 & _).
    rewrite decide_True in Hr0 by done. case_decide; [done | lia].
  - destruct (Inv_dead _ _ HI Hm) as (_ & _ & _ & Hf0).
    rewrite decide_True in Hf0 by done. lia.
Qed.

Lemma run_no_resurrection p m m' b :
  Inv m → run p m = Ok tt m' → (b < next m)%positive →
  strong b m = 0%nat → strong b m' = 0%nat.
Proof.
  revert m. induction p as [|s p IH]; intros m HI Hrun Hb H0.
  - by injection Hrun as <-.
  - simpl in Hrun. apply bind_Ok in Hrun as ([] & m1 & Hs & Hp).
    destruct (exec_no_resurrection _ _ _ _ HI Hs Hb H0) as [H1 Hb1].
    apply (IH m1); try done.
    by destruct (exec_step _ _ _ HI Hs) as (? & _).
Qed.

(** Property X4. Once a WeakPtr reports Expired, no SharedPtr on its block exists
    ever again, whatever the program does next (Lock, promotion, copies):
    every WeakPtr on that block reports Expired from then on. *)
Theorem expired_stays_expired mem pre post m1 m2 w h b :
  run pre (init mem) = Ok tt m1 → run post m1 = Ok tt m2 →
  wptrs m1 !! w = Some h → block_ h = Some b →
  WeakPtr_Expired w m1 = Ok true m1 →
  strong b m2 = 0%nat ∧
  ∀ w' h', wptrs m2 !! w' = Some h' → block_ h' = Some b →
    WeakPtr_Expired w' m2 = Ok true m2 ∧ WeakPtr_UseCount w' m2 = Ok 0 m2.
Proof.
  intros Hpre Hpost Hw Hb He.
  destruct (run_reachable _ _ _ Hpre) as [HI _].
  destruct (Inv_weak_live _ _ _ _ HI Hw Hb) as [cb Hcb].
  destruct (reachable_shared_refs _ _ _ _ _ Hpre Hcb) as [Hs Hr].
  destruct (WeakPtr_UseCount_live _ _ _ _ _ Hw Hb Hcb Hr) as [_ He'].
  rewrite He' in He. injection He as He%bool_decide_eq_true.
  assert (strong b m1 = 0%nat) as Hz by lia. clear He.
  destruct (Inv_live _ _ _ HI Hcb) as (_ & _ & _ & _ & _ & Hlt).
  pose proof (run_no_resurrection _ _ _ _ HI Hpost Hlt Hz) as H0.
  split; [done|]. intros w' h' Hw' Hb'.
  assert (run (pre ++ post) (init mem) = Ok tt m2) as Hrun
    by (apply run_app; eauto).
  destruct (run_reachable _ _ _ Hrun) as [HI2 _].
  destruct (Inv_weak_live _ _ _ _ HI2 Hw' Hb') as [cb2 Hcb2].
  destruct (reachable_shared_refs _ _ _ _ _ Hrun Hcb2) as [Hs2 Hr2].
  destruct (WeakPtr_UseCount_live _ _ _ _ _ Hw' Hb' Hcb2 Hr2) as [-> ->].
  rewrite Hs2, H0. done.
Qed.

Lemma expired_stays_expired_witness :
  strong 1 (after [SMake 1; WFromShared 1 1; SDestroy 1;
                   WCopy 2 1; SLock 3 2; SMake 4] 2) = 0%nat.
Proof.
  refine (proj1 (expired_stays_expired 2
    [SMake 1; WFromShared 1 1; SDestroy 1] [WCopy 2 1; SLock 3 2; SMake 4]
    (after [SMake 1; WFromShared 1 1; SDestroy 1] 2)
    (after [SMake 1; WFromShared 1 1; SDestroy 1;
            WCopy 2 1; SLock 3 2; SMake 4] 2)
    1 {| ptr_ := StoragePtr 1; block_ := Some 1%positive |} 1%positive
    _ _ _ _ _)); vm_compute; reflexivity.
Defined.

(** With managed objects that run no code of their own: what a program
    took from the allocator and has not given back is its live control
    blocks; a live block is referred to by some handle.
    So when no handle is left, no control block is left either, all memory
    is back, and every block the program ever allocated has had its object
    released once and has been deleted once. *)
Theorem no_handles_no_leak p mem m :
  run p (init mem) = Ok tt m →
  (avail m + size (heap m))%nat = mem ∧
  (sptrs m = ∅ → wptrs m = ∅ →
   heap m = ∅ ∧ avail m = mem ∧
   ∀ b, (b < next m)%positive → released b m = 1%nat ∧ freed b m = 1%nat).
Proof.
  intros [HI [_ HB]]%run_reachable. split; [done|]. intros Hs Hw.
  assert (heap m = ∅) as Hh.
  { apply map_empty. intros b. destruct (heap m !! b) as [cb|] eqn:Hb; [|done].
    destruct (Inv_live _ _ _ HI Hb) as (_ & _ & Hpos & _).
    unfold strong, weak in Hpos. rewrite Hs, Hw, !refs_empty in Hpos. lia. }
  split; [done|]. split.
  - rewrite Hh, map_size_empty in HB. lia.
  - intros b Hb.
    assert (heap m !! b = None) as Hd by (by rewrite Hh, lookup_empty).
    destruct (Inv_dead _ _ HI Hd) as (_ & _ & Hr & Hf).
    by rewrite decide_True in Hr, Hf by done.
Qed.

Lemma observes_refl m : observes m m.
Proof.
  split; [done|]. split; [exists []; split; [done | by intros e ?%elem_of_nil]|].
  intros b cb' H. by exists cb'.
Qed.

Lemma observes_trans m1 m2 m3 : observes m1 m2 → observes m2 m3 → observes m1 m3.
Proof.
  intros (Hs1 & (t1 & Ht1 & He1) & Hh1) (Hs2 & (t2 & Ht2 & He2) & Hh2).
  split; [congruence|]. split.
  - exists (t2 ++ t1). split; [by rewrite Ht2, Ht1, app_assoc|].
    intros e [?|?]%elem_of_app; auto.
  - intros b cb3 H3. destruct (Hh2 _ _ H3) as (cb2 & H2 & ? & ?).
    destruct (Hh1 _ _ H2) as (cb1 & H1 & ? & ?). exists cb1. split_and!; congruence.
Qed.

Lemma observer_ret {A} (a : A) : observer (ret a).
Proof. intros m a' m' [= _ <-]. apply observes_refl. Qed.

Lemma observer_bind {A B} (c : M A) (k : A → M B) :
  observer c → (∀ a, observer (k a)) → observer (bind c k).
Proof.
  intros Hc Hk m b m' (a & m1 & H1 & H2)%bind_Ok.
  eapply observes_trans; [by eapply Hc | by eapply Hk].
Qed.

Lemma observer_noexcept {A} (c : M A) : observer c → observer (noexcept c).
Proof. intros Hc m a m' H%noexcept_Ok. by eapply Hc. Qed.

Lemma observer_if_block blk k : (∀ b, observer (k b)) → observer (if_block blk k).
Proof. intros Hk. unfold if_block. destruct blk; [done | apply observer_ret]. Qed.

Ltac observer_same :=
  let m := fresh "m" in
  intros m ? ?; unfold_monad; intros; repeat case_match; simplify_eq/=;
  first [apply observes_refl
        | split; [done|]; split;
          [exists []; split; [done | by intros e ?%elem_of_nil]
          |intros b cb' H; by exists cb'] ].

Lemma observer_load_block b : observer (load_block b).
Proof. observer_same. Qed.
Lemma observer_int_incr x : observer (int_incr x).
Proof. observer_same. Qed.
Lemma observer_int_decr x : observer (int_decr x).
Proof. observer_same. Qed.
Lemma observer_int_add x y : observer (int_add x y).
Proof. observer_same. Qed.
Lemma observer_get_shared x : observer (get_shared x).
Proof. observer_same. Qed.
Lemma observer_get_weak x : observer (get_weak x).
Proof. observer_same. Qed.
Lemma observer_set_weak x h : observer (set_weak x h).
Proof. observer_same. Qed.
Lemma observer_init_weak x h : observer (init_weak x h).
Proof. observer_same. Qed.
Lemma observer_end_weak x : observer (end_weak x).
Proof. observer_same. Qed.
Lemma observer_temp_weak : observer temp_weak.
Proof. observer_same. Qed.

Lemma observer_delete_block b : observer (delete_block b).
Proof.
  intros m [] m'. unfold delete_block.
  destruct (heap m !! b) eqn:Hb; [|done]. intros [= <-].
  split; [done|]. split; simpl.
  - exists [EvDeleteBlock b]. split; [done|].
    intros e He. apply list_elem_of_singleton in He as ->. by exists b.
  - intros b' cb'. rewrite lookup_delete. case_decide; [done|]. by exists cb'.
Qed.

Ltac observer_store :=
  intros ? [] ? ?; invert_ok;
  split; [done|]; split; simpl;
  [ exists []; split; [done | by intros e ?%elem_of_nil]
  | intros b' cb'; rewrite lookup_insert; case_decide;
    [ intros [= <-]; subst; eexists; by split_and!
    | by exists cb' ] ].

Lemma observer_incr_weak_refs b : observer (incr_weak_refs b).
Proof. observer_store. Qed.
Lemma observer_decr_weak_refs b : observer (decr_weak_refs b).
Proof. observer_store. Qed.

Create HintDb observer.
#[local] Hint Resolve observer_ret observer_load_block observer_int_incr
  observer_int_decr observer_int_add observer_get_shared observer_get_weak
  observer_set_weak observer_init_weak observer_end_weak observer_temp_weak
  observer_delete_block observer_incr_weak_refs observer_decr_weak_refs
  : observer.

Ltac observer_op :=
  repeat first
    [ solve [auto with observer]
    | apply observer_noexcept
    | apply observer_bind; [|intros ?]
    | apply observer_if_block; intros ?
    | case_match
    | case_decide ].

Lemma observer_exec s : weak_stmt s = true → observer (exec s).
Proof.
  destruct s; try done; intros _; simpl.
  all: unfold WeakPtr_assign, WeakPtr_move_assign, WeakPtr_assign_shared,
    WeakPtr_Reset.
  all: unfold WeakPtr_default, WeakPtr_copy, WeakPtr_move,
    WeakPtr_from_shared, WeakPtr_Swap, WeakPtr_dtor, delete_if_unreferenced.
  all: observer_op.
Qed.

Lemma observer_run p : forallb weak_stmt p = true → observer (run p).
Proof.
  induction p as [|s p IH]; simpl; [intros _; apply observer_ret|].
  intros [Hs Hp]%andb_true_iff.
  apply observer_bind; [by apply observer_exec | auto].
Qed.

Lemma occurrences_none e t :
  (∀ e', e' ∈ t → e' ≠ e) → occurrences e t = 0%nat.
Proof.
  induction t as [|e' t IH]; intros H; [done|].
  rewrite occurrences_cons, decide_False by (apply H; left).
  apply IH. intros e'' He. apply H. by right.
Qed.

(** Property X6. A program made of WeakPtr statements only (construction, copy,
    move, assignment, Reset, Swap, destruction) leaves every SharedPtr as
    it is, releases no managed object (no call of IfNoShared, no delete of
    an object, no destructor call in a block: the only events are deletions
    of control blocks), and leaves the strong counter and the managed
    object of every block that is still there as they were. *)
Theorem WeakPtr_statements_only_observe p m m' :
  forallb weak_stmt p = true → run p m = Ok tt m' →
  sptrs m' = sptrs m ∧
  (∀ e, (∀ b, e ≠ EvDeleteBlock b) →
        occurrences e (trace m') = occurrences e (trace m)) ∧
  (∀ b cb', heap m' !! b = Some cb' →
     ∃ cb, heap m !! b = Some cb ∧
           shared_refs cb' = shared_refs cb ∧ variant cb' = variant cb).
Proof.
  intros Hp Hrun.
  destruct (observer_run p Hp _ _ _ Hrun) as (Hs & (t & Ht & He) & Hh).
  split; [done|]. split; [|done].
  intros e Hne. rewrite Ht, occurrences_app, occurrences_none; [done|].
  intros e' [b ->]%He. intros <-. by apply (Hne b).
Qed.

Lemma WeakPtr_statements_only_observe_witness :
  sptrs (after [SFromRaw 1 (ObjPtr 5); WDefault 1; WFromShared 2 1;
                WAssign 1 2; WDestroy 2; WReset 1; WDestroy 1] 1)
  = sptrs owner_example.
Proof.
  refine (proj1 (WeakPtr_statements_only_observe
    [WDefault 1; WFromShared 2 1; WAssign 1 2; WDestroy 2; WReset 1; WDestroy 1]
    owner_example _ _ _)); vm_compute; reflexivity.
Defined.

(** Property X7. Swap exchanges the two handles, pointer and block, and touches
    nothing else: no counter, no event, no other handle; swapping again
    gives the machine back. The same holds of WeakPtr::Swap. *)
Theorem SharedPtr_Swap_exchanges_handles m x y hx hy :
  sptrs m !! x = Some hx → sptrs m !! y = Some hy →
  ∃ m',
    SharedPtr_Swap x y m = Ok tt m' ∧
    sptrs m' !! x = Some hy ∧ sptrs m' !! y = Some hx ∧
    (∀ z, z ≠ x → z ≠ y → sptrs m' !! z = sptrs m !! z) ∧
    wptrs m' = wptrs m ∧ heap m' = heap m ∧ trace m' = trace m ∧
    SharedPtr_Swap x y m' = Ok tt m.
Proof.
  intros Hx Hy. destruct (decide (x = y)) as [->|Hne].
  - assert (hx = hy) as -> by congruence.
    eexists. split; [unfold SharedPtr_Swap; eval_op; done|].
    simpl. split_and!; try done.
    + by rewrite lookup_insert_eq, handle_eta.
    + by rewrite lookup_insert_eq, handle_eta.
    + intros z ? ?. by rewrite !lookup_insert_ne.
    + unfold SharedPtr_Swap. eval_op. f_equal. same_machine.
  - eexists. split; [unfold SharedPtr_Swap; eval_op; done|].
    simpl. split_and!; try done.
    + rewrite lookup_insert_ne, lookup_insert_eq by done. by rewrite handle_eta.
    + by rewrite lookup_insert_eq, handle_eta.
    + intros z ? ?. by rewrite !lookup_insert_ne.
    + unfold SharedPtr_Swap. eval_op. f_equal. same_machine.
Qed.

Lemma SharedPtr_dtor_eq x :
  SharedPtr_dtor x =
    (let* h := get_shared x in if_block (block_ h) drop_shared >> end_shared x).
Proof. reflexivity. Qed.

Lemma WeakPtr_dtor_eq x :
  WeakPtr_dtor x =
    (let* h := get_weak x in if_block (block_ h) drop_weak >> end_weak x).
Proof. reflexivity. Qed.

Lemma blind_ret {A} (a : A) : handle_blind (ret a).
Proof. done. Qed.

Lemma blind_bind {A B} (c : M A) (k : A → M B) :
  handle_blind c → (∀ a, handle_blind (k a)) → handle_blind (bind c k).
Proof.
  intros Hc Hk m s w. unfold bind. rewrite Hc.
  destruct (c m); simpl; [apply Hk | done | done].
Qed.

Ltac blind_prim :=
  intros ? ? ?; unfold_monad; simpl; repeat case_match; done.

Lemma blind_load_block b : handle_blind (load_block b).
Proof. blind_prim. Qed.
Lemma blind_store_block b cb : handle_blind (store_block b cb).
Proof. blind_prim. Qed.
Lemma blind_delete_block b : handle_blind (delete_block b).
Proof. blind_prim. Qed.
Lemma blind_emit e : handle_blind (emit e).
Proof. blind_prim. Qed.
Lemma blind_int_incr x : handle_blind (int_incr x).
Proof. blind_prim. Qed.
Lemma blind_int_decr x : handle_blind (int_decr x).
Proof. blind_prim. Qed.
Lemma blind_int_add x y : handle_blind (int_add x y).
Proof. blind_prim. Qed.

Create HintDb blind.
#[local] Hint Resolve blind_ret blind_load_block blind_store_block
  blind_delete_block blind_emit blind_int_incr blind_int_decr blind_int_add
  : blind.

Ltac blind_op :=
  repeat first
    [ solve [auto with blind]
    | apply blind_bind; [|intros ?]
    | case_match
    | case_decide ].

Lemma blind_drop_shared b : handle_blind (drop_shared b).
Proof.
  unfold drop_shared, IfNoShared, delete_if_unreferenced.
  unfold_ops. blind_op.
Qed.

Lemma blind_drop_weak b : handle_blind (drop_weak b).
Proof. unfold drop_weak, delete_if_unreferenced. unfold_ops. blind_op. Qed.

Lemma rehandle_id m : rehandle (sptrs m) (wptrs m) m = m.
Proof. by destruct m. Qed.

(** Such a computation leaves the handles as they are. *)
Lemma blind_handles {A} (c : M A) m a m' :
  handle_blind c → c m = Ok a m' → sptrs m' = sptrs m ∧ wptrs m' = wptrs m.
Proof.
  intros Hc H. pose proof (Hc m (sptrs m) (wptrs m)) as Hb.
  rewrite rehandle_id, H in Hb. simpl in Hb. by injection Hb as ->.
Qed.

Lemma quiet_drop_shared b : quiet (drop_shared b).
Proof. unfold drop_shared. quiet_op. Qed.

Lemma quiet_drop_weak b : quiet (drop_weak b).
Proof. unfold drop_weak. quiet_op. Qed.

Lemma blind_if_block blk k :
  (∀ b, handle_blind (k b)) → handle_blind (if_block blk k).
Proof. intros Hk. unfold if_block. destruct blk; [done | apply blind_ret]. Qed.

Lemma with_sptrs_twice s s' m : with_sptrs s (with_sptrs s' m) = with_sptrs s m.
Proof. reflexivity. Qed.

Lemma with_wptrs_twice s s' m : with_wptrs s (with_wptrs s' m) = with_wptrs s m.
Proof. reflexivity. Qed.

(** The destructor of a SharedPtr, whatever the other handles are: the
    block of the handle loses a reference, and the object is gone. *)
Lemma SharedPtr_dtor_with s m x h :
  s !! x = Some h →
  SharedPtr_dtor x (with_sptrs s m) =
    match if_block (block_ h) drop_shared m with
    | Ok _ m1 => Ok tt (with_sptrs (delete x s) m1)
    | Throw e m1 => Throw e (with_sptrs s m1)
    | Fault f => Fault f
    end.
Proof.
  intros Hx. rewrite SharedPtr_dtor_eq. unfold bind at 1, get_shared. simpl.
  rewrite Hx. unfold bind.
  change (with_sptrs s m) with (rehandle s (wptrs m) m).
  rewrite (blind_if_block _ _ blind_drop_shared).
  destruct (if_block (block_ h) drop_shared m) as [[] m1|e m1|f] eqn:E; simpl;
    [| |done].
  - destruct (blind_handles _ _ _ _ (blind_if_block _ _ blind_drop_shared) E)
      as [_ Hw].
    unfold end_shared. simpl. rewrite Hx. f_equal.
    unfold with_sptrs, rehandle. simpl. by rewrite Hw.
  - exfalso. revert E. apply quiet_no_Throw, quiet_if_block, quiet_drop_shared.
Qed.

Lemma WeakPtr_dtor_with s m x h :
  s !! x = Some h →
  WeakPtr_dtor x (with_wptrs s m) =
    match if_block (block_ h) drop_weak m with
    | Ok _ m1 => Ok tt (with_wptrs (delete x s) m1)
    | Throw e m1 => Throw e (with_wptrs s m1)
    | Fault f => Fault f
    end.
Proof.
  intros Hx. rewrite WeakPtr_dtor_eq. unfold bind at 1, get_weak. simpl.
  rewrite Hx. unfold bind.
  change (with_wptrs s m) with (rehandle (sptrs m) s m).
  rewrite (blind_if_block _ _ blind_drop_weak).
  destruct (if_block (block_ h) drop_weak m) as [[] m1|e m1|f] eqn:E; simpl;
    [| |done].
  - destruct (blind_handles _ _ _ _ (blind_if_block _ _ blind_drop_weak) E)
      as [Hs _].
    unfold end_weak. simpl. rewrite Hx. f_equal.
    unfold with_wptrs, rehandle. simpl. by rewrite Hs.
  - exfalso. revert E. apply quiet_no_Throw, quiet_if_block, quiet_drop_weak.
Qed.

Lemma with_sptrs_id m : with_sptrs (sptrs m) m = m.
Proof. by destruct m. Qed.

Lemma with_wptrs_id m : with_wptrs (wptrs m) m = m.
Proof. by destruct m. Qed.

Ltac same_store :=
  unfold with_sptrs, with_wptrs; simpl; f_equal;
  apply map_eq; intros ?;
  repeat first [rewrite lookup_insert | rewrite lookup_delete];
  repeat (case_decide; simplify_eq/=); rewrite ?handle_eta; done.

Ltac never_throws E :=
  exfalso; revert E;
  first [ apply quiet_no_Throw, quiet_if_block, quiet_drop_shared
        | apply quiet_no_Throw, quiet_if_block, quiet_drop_weak ].




(** Property X10. The move constructor hands pointer and block over to the new
    SharedPtr and leaves the source empty; no counter changes and no event
    happens, so the new object reports the count that the source
    reported. *)
Theorem SharedPtr_move_constructor_transfers m x y hy :
  sptrs m !! y = Some hy → sptrs m !! x = None →
  ∃ m',
    SharedPtr_move x y m = Ok tt m' ∧
    sptrs m' = <[y := empty_handle]> (<[x := hy]> (sptrs m)) ∧
    wptrs m' = wptrs m ∧ heap m' = heap m ∧ trace m' = trace m ∧
    SharedPtr_Get y m' = Ok nullptr m' ∧
    SharedPtr_UseCount y m' = Ok 0 m' ∧
    SharedPtr_Get x m' = Ok (ptr_ hy) m' ∧
    ∀ n, SharedPtr_UseCount y m = Ok n m → SharedPtr_UseCount x m' = Ok n m'.
Proof.
  intros Hy Hx. assert (x ≠ y) as Hne by congruence.
  eexists. split; [unfold SharedPtr_move; eval_op; done|].
  simpl. split_and!; try done.
  - by rewrite insert_insert_eq, handle_eta.
  - unfold SharedPtr_Get. by eval_op.
  - unfold SharedPtr_UseCount. by eval_op.
  - unfold SharedPtr_Get. by eval_op.
  - intros n. unfold SharedPtr_UseCount. eval_op.
    destruct (block_ hy) as [b|]; simpl.
    + destruct (heap m !! b); simpl; [|done]. by intros [= <-].
    + by intros [= <-].
Qed.

Lemma SharedPtr_move_constructor_transfers_witness :
  ∃ m', SharedPtr_move 2 1 owner_example = Ok tt m' ∧
        SharedPtr_UseCount 1 m' = Ok 0 m' ∧
        SharedPtr_Get 2 m' = Ok (ObjPtr 5) m'.
Proof.
  destruct (SharedPtr_move_constructor_transfers owner_example 2 1
              {| ptr_ := ObjPtr 5; block_ := Some 1%positive |}
              eq_refl eq_refl)
    as (m' & H1 & _ & _ & _ & _ & _ & H2 & H3 & _).
  exists m'. split; [exact H1|]. split; [exact H2 | exact H3].
Defined.

(** Property X11. SharedPtr(ptr) puts the pointer under a new control block of its
    own with one owner, also when the pointer is null: the SharedPtr then
    is false as a bool and still has UseCount 1. Destroying it, with no
    other handle made in between, deletes the object exactly when the
    pointer is not null, deletes the block, and gives the memory back. *)
Theorem raw_pointer_is_owned m x p :
  sptrs m !! x = None →
  heap m !! next m = None →
  avail m ≠ 0%nat →
  let b := next m in
  ∃ m1,
    SharedPtr_from_raw x p m = Ok tt m1 ∧
    SharedPtr_Get x m1 = Ok p m1 ∧
    SharedPtr_bool x m1 = Ok (bool_decide (p ≠ nullptr)) m1 ∧
    SharedPtr_UseCount x m1 = Ok 1 m1 ∧
    heap m1 !! b =
      Some {| shared_refs := 1; weak_refs := 0; variant := ControlBlockPtr p |} ∧
    ∃ m2,
      SharedPtr_dtor x m1 = Ok tt m2 ∧
      trace m2 =
        EvDeleteBlock b ::
        (if decide (p = nullptr) then [] else [EvDeleteObject p]) ++
        EvIfNoShared b :: EvNewBlock b :: trace m ∧
      sptrs m2 = sptrs m ∧ heap m2 = heap m ∧ avail m2 = avail m.
Proof.
  intros Hx Hfresh Havail b. subst b.
  destruct (avail m) as [|n] eqn:Hn; [done|].
  eexists. split; [|split; [|split; [|split; [|split]]]].
  - unfold SharedPtr_from_raw. unfold_ops; unfold_monad. rewrite Hn. eval_op. done.
  - unfold SharedPtr_Get. by eval_op.
  - unfold SharedPtr_bool. by eval_op.
  - unfold SharedPtr_UseCount. by eval_op.
  - simpl. by rewrite lookup_insert_eq.
  - destruct p as [|a|a].
    + eexists. split; [unfold SharedPtr_dtor, IfNoShared; eval_op; done|].
      simpl. split_and!; try done.
      * rewrite delete_insert_eq. by apply delete_id.
      * rewrite !insert_insert_eq, delete_insert_eq. by apply delete_id.
    + eexists. split; [unfold SharedPtr_dtor, IfNoShared; eval_op; done|].
      simpl. split_and!; try done.
      * rewrite delete_insert_eq. by apply delete_id.
      * rewrite !insert_insert_eq, delete_insert_eq. by apply delete_id.
    + eexists. split; [unfold SharedPtr_dtor, IfNoShared; eval_op; done|].
      simpl. split_and!; try done.
      * rewrite delete_insert_eq. by apply delete_id.
      * rewrite !insert_insert_eq, delete_insert_eq. by apply delete_id.
Qed.

Lemma raw_pointer_is_owned_witness :
  ∃ m1,
    SharedPtr_from_raw 1 nullptr (init 1) = Ok tt m1 ∧
    SharedPtr_bool 1 m1 = Ok false m1 ∧
    SharedPtr_UseCount 1 m1 = Ok 1 m1.
Proof.
  destruct (raw_pointer_is_owned (init 1) 1 nullptr eq_refl eq_refl
              ltac:(discriminate))
    as (m1 & H1 & _ & H2 & H3 & _).
  exists m1. split; [exact H1|]. split; [exact H2 | exact H3].
Defined.

Lemma SharedPtr_copy_store this other m m' :
  SharedPtr_copy this other m = Ok tt m' →
  ∃ o, sptrs m !! other = Some o ∧ sptrs m !! this = None ∧
       sptrs m' = <[this := o]> (sptrs m).
Proof.
  intros H. unfold SharedPtr_copy in H. invert_ok; eexists; by rewrite ?handle_eta.
Qed.





(** Property X14. Taking a SharedPtr from a WeakPtr with Lock and destroying it
    again changes nothing at all: the machine afterwards is the machine
    before, whether the WeakPtr is empty, expired, or observes a live
    object (as long as the counters have room for one more owner). *)
Theorem Lock_then_destroy_changes_nothing p mem m w h x :
  run p (init mem) = Ok tt m →
  wptrs m !! w = Some h → sptrs m !! x = None →
  (∀ b, block_ h = Some b → Z.of_nat (strong b m + weak b m) ≤ INT_MAX) →
  (WeakPtr_Lock x w >> SharedPtr_dtor x) m = Ok tt m.
Proof.
  intros [HI _]%run_reachable Hw Hx Hroom.
  unfold WeakPtr_Lock, SharedPtr_from_weak, WeakPtr_Expired, WeakPtr_UseCount,
    SharedPtr_default, SharedPtr_dtor.
  destruct (block_ h) as [b|] eqn:Hb.
  - destruct (Inv_weak_live _ _ _ _ HI Hw Hb) as [cb Hcb].
    destruct (Inv_live _ _ _ HI Hcb) as (Hs & Hwk & _).
    pose proof (refs_pos b (wptrs m) w h Hw Hb) as Hpos. fold (weak b m) in Hpos.
    specialize (Hroom b eq_refl). unfold INT_MAX in Hroom.
    destruct (decide (shared_refs cb = 0)) as [Hz|Hnz].
    + eval_op. f_equal. same_machine.
    + eval_op. replace (shared_refs cb + 1 - 1) with (shared_refs cb) by lia.
      eval_op. f_equal. same_machine.
  - eval_op. f_equal. same_machine.
Qed.

Lemma Lock_then_destroy_changes_nothing_witness :
  (WeakPtr_Lock 2 1 >> SharedPtr_dtor 2) observed_example = Ok tt observed_example.
Proof.
  apply (Lock_then_destroy_changes_nothing
           [SFromRaw 1 (ObjPtr 5); WFromShared 1 1] 1 observed_example 1
           {| ptr_ := ObjPtr 5; block_ := Some 1%positive |} 2).
  - vm_compute. reflexivity.
  - vm_compute. reflexivity.
  - vm_compute. reflexivity.
  - intros b [= <-]. vm_compute. discriminate.
Defined.

Lemma SharedPtr_Swap_exchanges_handles_witness :
  ∃ m', SharedPtr_Swap 1 2 empty_example = Ok tt m' ∧
        sptrs m' !! 1%positive =
          Some {| ptr_ := ObjPtr 5; block_ := Some 1%positive |} ∧
        SharedPtr_Swap 1 2 m' = Ok tt empty_example.
Proof.
  destruct (SharedPtr_Swap_exchanges_handles empty_example 1 2 empty_handle
              {| ptr_ := ObjPtr 5; block_ := Some 1%positive |}
              eq_refl eq_refl)
    as (m' & H1 & H2 & _ & _ & _ & _ & _ & H3).
  exists m'. split; [exact H1|]. split; [exact H2 | exact H3].
Defined.

(** Property X15. At any point of a run the weak counter of a live control block is
    the number of WeakPtr objects that refer to it, a value of type int
    that is not negative; a live block that no SharedPtr refers to is
    referred to by a WeakPtr. *)
Theorem weak_refs_counts_WeakPtrs p mem m b cb :
  run p (init mem) = Ok tt m → heap m !! b = Some cb →
  weak_refs cb = Z.of_nat (weak b m) ∧
  0 ≤ weak_refs cb ≤ INT_MAX ∧
  (strong b m = 0%nat → (0 < weak b m)%nat).
Proof.
  intros [HI [HL _]]%run_reachable Hb.
  destruct (Inv_live _ _ _ HI Hb) as (_ & Hw & Hpos & _).
  destruct (HL _ _ Hb) as (_ & _ & Hr%in_int_true).
  unfold INT_MAX. split; [done|]. split; lia.
Qed.

Lemma weak_refs_counts_WeakPtrs_witness :
  weak_refs {| shared_refs := 0; weak_refs := 2; variant := ControlBlockHolder |} =
  Z.of_nat (weak 1 (after [SMake 1; WFromShared 1 1; WCopy 2 1; SDestroy 1] 1)).
Proof.
  refine (proj1 (weak_refs_counts_WeakPtrs
    [SMake 1; WFromShared 1 1; WCopy 2 1; SDestroy 1] 1
    (after [SMake 1; WFromShared 1 1; WCopy 2 1; SDestroy 1] 1) 1 _ _ _));
    vm_compute; reflexivity.
Defined.

(** Property X16. The constructor from a pointer and a control block, given a null
    block, makes a SharedPtr that observes the pointer and owns nothing:
    no block is allocated, UseCount() is 0, and its destructor gives the
    machine as it was before, so the pointer is never deleted. *)
Theorem null_block_owns_nothing m x p :
  sptrs m !! x = None →
  ∃ m1,
    SharedPtr_from_raw_block x p None m = Ok tt m1 ∧
    heap m1 = heap m ∧ trace m1 = trace m ∧
    SharedPtr_Get x m1 = Ok p m1 ∧
    SharedPtr_bool x m1 = Ok (bool_decide (p ≠ nullptr)) m1 ∧
    SharedPtr_UseCount x m1 = Ok 0 m1 ∧
    SharedPtr_dtor x m1 = Ok tt m.
Proof.
  intros Hx. eexists.
  split; [unfold SharedPtr_from_raw_block; eval_op; done|]. simpl.
  split; [done|]. split; [done|].
  split; [unfold SharedPtr_Get; by eval_op|].
  split; [unfold SharedPtr_bool; by eval_op|].
  split; [unfold SharedPtr_UseCount; by eval_op|].
  unfold SharedPtr_dtor. eval_op. f_equal.
  unfold with_sptrs. simpl. apply Machine_eq; simpl; try done.
  rewrite delete_insert_eq. by apply delete_id.
Qed.

Lemma null_block_owns_nothing_witness :
  ∃ m1, SharedPtr_from_raw_block 3 (ObjPtr 9) None owner_example = Ok tt m1 ∧
        SharedPtr_UseCount 3 m1 = Ok 0 m1 ∧
        SharedPtr_dtor 3 m1 = Ok tt owner_example.
Proof.
  destruct (null_block_owns_nothing owner_example 3 (ObjPtr 9) eq_refl)
    as (m1 & H1 & _ & _ & _ & _ & H2 & H3).
  exists m1. split; [exact H1|]. split; [exact H2 | exact H3].
Defined.

(** ** What holds for objects that run no code of their own *)

(** Property X1. With managed objects whose constructor and destructor
    run no operation on a handle and do not throw, no run from the
    initial machine reaches into a deleted block or breaks a noexcept
    promise: it can only be stuck on a program that names a handle
    wrongly or on a counter that leaves the range of int. *)
Theorem plain_objects_never_touch_deleted_blocks destroy construct p mem f :
  plain destroy construct →
  run_of destroy construct p (init mem) = Fault f →
  f = SignedOverflow ∨ f = NoSuchObject ∨ f = ObjectExists.
Proof.
  intros Hplain. rewrite (run_of_plain _ _ Hplain).
  apply runs_never_touch_deleted_blocks.
Qed.

Lemma plain_objects_never_touch_deleted_blocks_witness :
  run_of no_code no_code
    [SMake 1; WFromShared 1 1; SDestroy 1; WDestroy 1; SCopy 2 1] (init 1)
    = Fault NoSuchObject ∧
  (NoSuchObject = SignedOverflow ∨ NoSuchObject = NoSuchObject ∨
   NoSuchObject = ObjectExists).
Proof.
  split; [vm_compute; reflexivity|].
  apply (plain_objects_never_touch_deleted_blocks no_code no_code
    [SMake 1; WFromShared 1 1; SDestroy 1; WDestroy 1; SCopy 2 1] 1).
  - split; reflexivity.
  - vm_compute. reflexivity.
Defined.

(** Property X5. With managed objects whose constructor and destructor
    run no operation on a handle and do not throw: what a program took
    from the allocator and has not given back is its live control blocks,
    and when no handle is left, no control block is left either, all
    memory is back, and every block the program ever allocated has had its
    object released once and has been deleted once. *)
Theorem plain_objects_no_leak destroy construct p mem m :
  plain destroy construct →
  run_of destroy construct p (init mem) = Ok tt m →
  (avail m + size (heap m))%nat = mem ∧
  (sptrs m = ∅ → wptrs m = ∅ →
   heap m = ∅ ∧ avail m = mem ∧
   ∀ b, (b < next m)%positive → released b m = 1%nat ∧ freed b m = 1%nat).
Proof.
  intros Hplain. rewrite (run_of_plain _ _ Hplain).
  apply no_handles_no_leak.
Qed.

Lemma plain_objects_no_leak_witness :
  heap (after [SFromRaw 1 (ObjPtr 7); WFromShared 1 1; SMake 2; SAssign 2 1;
               SDestroy 1; SDestroy 2; WDestroy 1] 2) = ∅.
Proof.
  refine (proj1 (proj2 (plain_objects_no_leak no_code no_code
    [SFromRaw 1 (ObjPtr 7); WFromShared 1 1; SMake 2; SAssign 2 1;
     SDestroy 1; SDestroy 2; WDestroy 1] 2
    (after [SFromRaw 1 (ObjPtr 7); WFromShared 1 1; SMake 2; SAssign 2 1;
            SDestroy 1; SDestroy 2; WDestroy 1] 2) _ _) _ _)).
  - split; reflexivity.
  - vm_compute. reflexivity.
  - vm_compute. reflexivity.
  - vm_compute. reflexivity.
Defined.

(** Property X25. With managed objects whose constructor and destructor
    run no operation on a handle and do not throw, along every program
    run that mixes SharedPtr and WeakPtr statements: after every statement
    a block is live exactly when some SharedPtr or WeakPtr refers to it,
    its two counters are the numbers of SharedPtr and of WeakPtr objects
    that refer to it, and it has not been deleted; a statement deletes a
    block exactly when it takes the number of handles that refer to it
    from 1 to 0, whichever destructor runs last, and no block is deleted
    more than once. *)
Theorem plain_objects_block_deleted_once destroy construct mem pre s post m' :
  plain destroy construct →
  run_of destroy construct (pre ++ s :: post) (init mem) = Ok tt m' →
  ∃ m1 m2,
    run_of destroy construct pre (init mem) = Ok tt m1 ∧
    exec_of destroy construct s m1 = Ok tt m2 ∧
    run_of destroy construct post m2 = Ok tt m' ∧
    ∀ b,
      (∀ cb, heap m2 !! b = Some cb →
         shared_refs cb = Z.of_nat (strong b m2) ∧
         weak_refs cb = Z.of_nat (weak b m2) ∧
         freed b m2 = 0%nat) ∧
      ((0 < strong b m2 + weak b m2)%nat ↔ is_Some (heap m2 !! b)) ∧
      freed b m2 =
        (freed b m1 +
         if decide (strong b m1 + weak b m1 = 1 ∧
                    strong b m2 + weak b m2 = 0)%nat then 1 else 0)%nat ∧
      (freed b m2 ≤ 1)%nat.
Proof.
  intros Hplain. rewrite (run_of_plain _ _ Hplain).
  intros (m1 & m2 & H1 & H2 & H3 & H)%control_block_deleted_once.
  exists m1, m2.
  by rewrite !(run_of_plain _ _ Hplain), (exec_of_plain _ _ Hplain).
Qed.

Lemma plain_objects_block_deleted_once_witness :
  ∃ m1 m2,
    run_of no_code no_code [SMake 1; WFromShared 1 1; SDestroy 1] (init 1) = Ok tt m1 ∧
    exec_of no_code no_code (WDestroy 1) m1 = Ok tt m2 ∧
    freed 1 m2 = (freed 1 m1 + 1)%nat.
Proof.
  destruct (plain_objects_block_deleted_once no_code no_code 1
              [SMake 1; WFromShared 1 1; SDestroy 1] (WDestroy 1) []
              (after [SMake 1; WFromShared 1 1; SDestroy 1; WDestroy 1] 1)
              plain_no_code ltac:(vm_compute; reflexivity))
    as (m1 & m2 & H1 & H2 & _ & H).
  exists m1, m2. split; [exact H1|]. split; [exact H2|].
  destruct (H 1%positive) as (_ & _ & Hf & _).
  injection H1 as <-. injection H2 as <-. exact Hf.
Defined.

(** ** UniquePtr *)

Section UniquePtr_proofs.
Context {Deleter : Type}.
Variable Deleter_default : Deleter.
Implicit Types (m : @UMachine Deleter) (u : CompressedPair rawptr Deleter).
Implicit Types (U : gmap positive (CompressedPair rawptr Deleter)).
Implicit Types (C : list (Deleter * rawptr)).

Ltac unfold_unique :=
  unfold UniquePtr_default, UniquePtr_from_raw, UniquePtr_with_deleter,
    UniquePtr_move_assign, UniquePtr_move, UniquePtr_dtor, UniquePtr_Swap,
    UniquePtr_Reset, UniquePtr_Release, UniquePtr_bool, UniquePtr_Get,
    UniquePtr_GetDeleter in *;
  unfold get_unique, set_unique, init_unique, end_unique, call_deleter,
    ubind, uret in *.

Lemma held_lookup m p :
  p ∈ held m ↔ ∃ x u, uptrs m !! x = Some u ∧ GetFirst u = p.
Proof.
  unfold held. rewrite list_elem_of_fmap. split.
  - intros ([x u] & -> & H%elem_of_map_to_list). by exists x, u.
  - intros (x & u & H & <-). exists (x, u). split; [done|].
    by apply elem_of_map_to_list.
Qed.

Lemma CompressedPair_eta u : MkCompressedPair (GetFirst u) (GetSecond u) = u.
Proof. by destruct u. Qed.

Lemma UMachine_eta m : {| uptrs := uptrs m; calls := calls m |} = m.
Proof. by destruct m. Qed.

Ltac eval_unique :=
  unfold_unique; simpl;
  repeat first
    [ progress simplify_map_eq/=
    | rewrite decide_True by done
    | rewrite decide_False by naive_solver ].

(** What each operation does to an object that exists. *)
Lemma UniquePtr_Release_eq m x u :
  uptrs m !! x = Some u →
  UniquePtr_Release x m =
    Some (GetFirst u,
          {| uptrs := <[x := MkCompressedPair nullptr (GetSecond u)]> (uptrs m);
             calls := calls m |}).
Proof. intros Hx. by eval_unique. Qed.

Lemma UniquePtr_Reset_eq m x u p :
  uptrs m !! x = Some u →
  UniquePtr_Reset x p m =
    Some (tt,
          {| uptrs := <[x := MkCompressedPair p (GetSecond u)]> (uptrs m);
             calls := if decide (GetFirst u = nullptr) then calls m
                      else (GetSecond u, GetFirst u) :: calls m |}).
Proof.
  intros Hx. unfold_unique.
  destruct (decide (GetFirst u = nullptr)) as [Hn|Hn];
    repeat (first [ rewrite Hx | rewrite lookup_insert_eq
                  | rewrite decide_False by naive_solver
                  | rewrite decide_True by done ]; simpl); done.
Qed.

Lemma UniquePtr_dtor_eq m x u :
  uptrs m !! x = Some u →
  UniquePtr_dtor x m =
    Some (tt,
          {| uptrs := delete x (uptrs m);
             calls := if decide (GetFirst u = nullptr) then calls m
                      else (GetSecond u, GetFirst u) :: calls m |}).
Proof.
  intros Hx. unfold_unique.
  destruct (decide (GetFirst u = nullptr)) as [Hn|Hn];
    repeat (first [ rewrite Hx | rewrite lookup_insert_eq
                  | rewrite decide_False by naive_solver
                  | rewrite decide_True by done ]; simpl); done.
Qed.

Lemma UniquePtr_move_eq m x y uy :
  uptrs m !! y = Some uy → uptrs m !! x = None →
  UniquePtr_move x y m =
    Some (tt,
          {| uptrs := <[x := uy]> (<[y := MkCompressedPair nullptr (GetSecond uy)]> (uptrs m));
             calls := calls m |}).
Proof.
  intros Hy Hx. assert (x ≠ y) by congruence.
  unfold UniquePtr_move, ubind. rewrite (UniquePtr_Release_eq _ _ _ Hy).
  eval_unique. by rewrite CompressedPair_eta.
Qed.

Lemma UniquePtr_move_assign_eq m x y ux uy :
  x ≠ y → uptrs m !! x = Some ux → uptrs m !! y = Some uy →
  UniquePtr_move_assign x y m =
    Some (tt,
          {| uptrs := <[x := uy]> (<[y := MkCompressedPair nullptr (GetSecond uy)]> (uptrs m));
             calls := if decide (GetFirst ux = nullptr) then calls m
                      else (GetSecond ux, GetFirst ux) :: calls m |}).
Proof.
  intros Hne Hx Hy.
  unfold UniquePtr_move_assign, ubind. rewrite (UniquePtr_Release_eq _ _ _ Hy).
  erewrite UniquePtr_Reset_eq by (simpl; by rewrite lookup_insert_ne).
  eval_unique. by rewrite insert_insert_eq, CompressedPair_eta.
Qed.

Lemma UniquePtr_move_assign_self m x u :
  uptrs m !! x = Some u → UniquePtr_move_assign x x m = Some (tt, m).
Proof.
  intros Hx.
  unfold UniquePtr_move_assign, ubind. rewrite (UniquePtr_Release_eq _ _ _ Hx).
  erewrite UniquePtr_Reset_eq by (simpl; by rewrite lookup_insert_eq).
  eval_unique. rewrite !insert_insert_eq, CompressedPair_eta.
  by rewrite insert_id, UMachine_eta.
Qed.

Lemma UniquePtr_Swap_eq m x y ux uy :
  uptrs m !! x = Some ux → uptrs m !! y = Some uy →
  UniquePtr_Swap x y m =
    Some (tt, {| uptrs := <[y := ux]> (<[x := uy]> (uptrs m)); calls := calls m |}).
Proof.
  intros Hx Hy. destruct (decide (x = y)) as [->|Hne].
  - assert (ux = uy) as -> by congruence.
    eval_unique. by rewrite !insert_insert_eq, CompressedPair_eta.
  - eval_unique. do 3 f_equal. apply map_eq. intros k.
    repeat first [rewrite lookup_insert | rewrite lookup_delete].
    repeat (case_decide; simplify_eq/=); by rewrite ?CompressedPair_eta.
Qed.
(** Ownership is kept when an object is given a pointer that is null or
    that no other object holds and no deleter has seen, when an object
    goes away, and when a deleter is called on a pointer that no object
    holds any more. *)
Lemma Owned_put U C x u' :
  Owned {| uptrs := U; calls := C |} →
  (GetFirst u' = nullptr ∨
   ((∀ z uz, z ≠ x → U !! z = Some uz → GetFirst uz ≠ GetFirst u') ∧
    GetFirst u' ∉ (snd <$> C))) →
  Owned {| uptrs := <[x := u']> U; calls := C |}.
Proof.
  intros (I1 & I2 & I3 & I4) Hnew. unfold deleted in *. simpl in *.
  split_and!; simpl; try done.
  - intros z1 z2 u1 u2. rewrite !lookup_insert.
    repeat case_decide; intros; simplify_eq/=; try done.
    + destruct Hnew as [?|[Hn _]]; [congruence|].
      exfalso. eapply (Hn z2); eauto.
    + destruct Hnew as [?|[Hn _]]; [congruence|].
      exfalso. eapply (Hn z1); eauto.
    + eauto.
  - intros z uz. rewrite lookup_insert. case_decide; [|by eauto].
    intros [= <-]. destruct Hnew as [->|[_ ?]]; done.
Qed.

Lemma Owned_delete U C x :
  Owned {| uptrs := U; calls := C |} →
  Owned {| uptrs := delete x U; calls := C |}.
Proof.
  intros (I1 & I2 & I3 & I4). unfold deleted in *. simpl in *.
  split_and!; simpl; try done.
  - intros z1 z2 u1 u2. rewrite !lookup_delete.
    repeat case_decide; intros; simplify_eq/=; eauto.
  - intros z uz. rewrite lookup_delete. case_decide; [done | eauto].
Qed.

Lemma Owned_call U C d p :
  Owned {| uptrs := U; calls := C |} →
  p ≠ nullptr → (∀ z uz, U !! z = Some uz → GetFirst uz ≠ p) →
  p ∉ (snd <$> C) →
  Owned {| uptrs := U; calls := (d, p) :: C |}.
Proof.
  intros (I1 & I2 & I3 & I4) Hp Hfree Hnew. unfold deleted in *. simpl in *.
  split_and!; simpl; try done.
  - intros z uz Hz [?|?]%elem_of_cons; [by eapply Hfree | by eapply I2].
  - by apply NoDup_cons.
  - intros [?|?]%elem_of_cons; done.
Qed.

Lemma Owned_eta m : Owned m → Owned {| uptrs := uptrs m; calls := calls m |}.
Proof. by rewrite UMachine_eta. Qed.

Lemma hands_over_fresh m p :
  bool_decide (p = nullptr ∨ ((p ∉ held m) ∧ (p ∉ deleted m))) = true →
  p = nullptr ∨
  ((∀ z uz, uptrs m !! z = Some uz → GetFirst uz ≠ p) ∧ p ∉ (snd <$> calls m)).
Proof.
  intros [?|[Hh Hd]]%bool_decide_eq_true; [by left|]. right. split; [|done].
  intros z uz Hz <-. apply Hh, held_lookup. eauto.
Qed.
Lemma Owned_others m x u z uz :
  Owned m → uptrs m !! x = Some u → GetFirst u ≠ nullptr →
  uptrs m !! z = Some uz → z ≠ x → GetFirst uz ≠ GetFirst u.
Proof. intros (I1 & _) Hx Hn Huz Hz Heq. apply Hz. eapply I1; eauto. congruence. Qed.

Ltac by_others HO :=
  eapply (Owned_others _ _ _ _ _ HO); first [eassumption | congruence].

Lemma Owned_not_deleted m x u :
  Owned m → uptrs m !! x = Some u → GetFirst u ∉ (snd <$> calls m).
Proof. intros (_ & I2 & _) Hx. by eapply I2. Qed.

Lemma Owned_init x u' m :
  Owned m →
  (GetFirst u' = nullptr ∨
   ((∀ z uz, uptrs m !! z = Some uz → GetFirst uz ≠ GetFirst u') ∧
    GetFirst u' ∉ (snd <$> calls m))) →
  ∀ m', init_unique x u' m = Some (tt, m') → Owned m'.
Proof.
  intros HO Hnew m'. unfold init_unique.
  destruct (uptrs m !! x); [done|]. intros [= <-].
  apply Owned_put; [by apply Owned_eta|].
  destruct Hnew as [?|[? ?]]; [by left | right; eauto].
Qed.

Lemma UniquePtr_Reset_Owned m x p m' :
  Owned m →
  (p = nullptr ∨
   ((∀ z uz, z ≠ x → uptrs m !! z = Some uz → GetFirst uz ≠ p) ∧
    (∀ u, uptrs m !! x = Some u → GetFirst u ≠ nullptr → GetFirst u ≠ p) ∧
    p ∉ (snd <$> calls m))) →
  UniquePtr_Reset x p m = Some (tt, m') → Owned m'.
Proof.
  intros HO Hp H.
  destruct (uptrs m !! x) as [u|] eqn:Hx.
  2: { unfold_unique. by rewrite Hx in H. }
  rewrite (UniquePtr_Reset_eq _ _ _ _ Hx) in H. injection H as <-.
  assert (Owned {| uptrs := <[x := MkCompressedPair p (GetSecond u)]> (uptrs m);
                   calls := calls m |}) as H1.
  { apply Owned_put; [by apply Owned_eta|]. simpl.
    destruct Hp as [?|(? & _ & ?)]; [by left | by right]. }
  case_decide as Hn; [done|].
  apply Owned_call; [done | done | | by eapply Owned_not_deleted].
  intros z uz. rewrite lookup_insert. case_decide.
  - intros [= <-]. simpl. destruct Hp as [->|(_ & Hp & _)]; [done|].
    intros ->. by eapply Hp.
  - intros Hz. by_others HO.
Qed.

Lemma uexec_Owned s m m' :
  Owned m → hands_over s m = true →
  uexec Deleter_default s m = Some (tt, m') → Owned m'.
Proof.
  intros HO Hh He. destruct s as [x|x p|x p d|x y|x y|x p|x|x y|x]; simpl in *.
  - eapply Owned_init; [done| |done]. by left.
  - eapply Owned_init; [done| |done]. by apply hands_over_fresh.
  - eapply Owned_init; [done| |done]. by apply hands_over_fresh.
  - (* move construction *)
    destruct (uptrs m !! y) as [uy|] eqn:Hy.
    2: { unfold_unique. by rewrite Hy in He. }
    destruct (uptrs m !! x) as [ux|] eqn:Hx.
    { unfold UniquePtr_move, ubind in He.
      rewrite (UniquePtr_Release_eq _ _ _ Hy) in He. unfold_unique. simpl in He.
      rewrite lookup_insert_eq in He. simpl in He.
      rewrite lookup_insert in He.
      destruct (decide (y = x)); simpl in He; [done | by rewrite Hx in He]. }
    rewrite (UniquePtr_move_eq _ _ _ _ Hy Hx) in He. injection He as <-.
    assert (x ≠ y) by congruence.
    apply Owned_put; [apply Owned_put; [by apply Owned_eta | by left]|].
    destruct (decide (GetFirst uy = nullptr)) as [?|Hn]; [by left | right].
    split; [|by eapply Owned_not_deleted].
    intros z uz Hz. rewrite lookup_insert. case_decide.
    + intros [= <-]. simpl. congruence.
    + intros Huz. by_others HO.
  - (* move assignment *)
    destruct (uptrs m !! y) as [uy|] eqn:Hy.
    2: { unfold_unique. by rewrite Hy in He. }
    destruct (decide (x = y)) as [->|Hne].
    { rewrite (UniquePtr_move_assign_self _ _ _ Hy) in He. by injection He as <-. }
    destruct (uptrs m !! x) as [ux|] eqn:Hx.
    2: { unfold UniquePtr_move_assign, ubind in He.
         rewrite (UniquePtr_Release_eq _ _ _ Hy) in He. unfold_unique. simpl in He.
         rewrite lookup_insert_ne, Hx in He by done. done. }
    rewrite (UniquePtr_move_assign_eq _ _ _ _ _ Hne Hx Hy) in He.
    injection He as <-.
    assert (Owned {| uptrs := <[x := uy]>
                       (<[y := MkCompressedPair nullptr (GetSecond uy)]> (uptrs m));
                     calls := calls m |}) as H1.
    { apply Owned_put; [apply Owned_put; [by apply Owned_eta | by left]|].
      destruct (decide (GetFirst uy = nullptr)) as [?|Hn]; [by left | right].
      split; [|by eapply Owned_not_deleted].
      intros z uz Hz. rewrite lookup_insert. case_decide.
      + intros [= <-]. simpl. congruence.
      + intros Huz. by_others HO. }
    case_decide as Hn; [done|].
    apply Owned_call; [done | done | | by eapply Owned_not_deleted].
    intros z uz. rewrite lookup_insert. case_decide as Hzx.
    + intros [= <-] Heq. subst z. destruct HO as (I1 & _).
      apply Hne. symmetry. apply (I1 y x uy ux Hy Hx Heq). congruence.
    + rewrite lookup_insert. case_decide.
      * intros [= <-]. simpl. congruence.
      * intros Huz. by_others HO.
  - (* Reset *)
    eapply UniquePtr_Reset_Owned; [done| |done].
    destruct (hands_over_fresh _ _ Hh) as [?|[Hf ?]]; [by left | right].
    split_and!; [by eauto | by eauto | done].
  - (* Release *)
    destruct (uptrs m !! x) as [u|] eqn:Hx.
    2: { unfold_unique. by rewrite Hx in He. }
    unfold ubind in He. rewrite (UniquePtr_Release_eq _ _ _ Hx) in He.
    injection He as <-. apply Owned_put; [by apply Owned_eta | by left].
  - (* Swap *)
    destruct (uptrs m !! x) as [ux|] eqn:Hx.
    2: { unfold_unique. by rewrite Hx in He. }
    destruct (uptrs m !! y) as [uy|] eqn:Hy.
    2: { unfold_unique. rewrite Hx in He. simpl in He. by rewrite Hy in He. }
    rewrite (UniquePtr_Swap_eq _ _ _ _ _ Hx Hy) in He. injection He as <-.
    destruct HO as (I1 & I2 & I3 & I4). unfold deleted in *.
    split_and!; simpl; try done.
    + intros z1 z2 u1 u2. rewrite !lookup_insert.
      repeat case_decide; intros; simplify_eq/=; try done; eauto.
      all: match goal with
           | Ha : uptrs _ !! ?a = Some ?ua, Hb : uptrs _ !! ?b = Some ?ub |- _ =>
               first
                 [ exact (I1 a b ua ub Ha Hb ltac:(congruence) ltac:(congruence))
                 | exfalso;
                   match goal with
                   | Hd : _ ≠ _ |- _ =>
                       apply Hd;
                       exact (I1 a b ua ub Ha Hb ltac:(congruence) ltac:(congruence))
                   end ]
           end.
    + intros z uz. rewrite !lookup_insert.
      repeat case_decide; intros; simplify_eq/=; eauto.
  - (* destruction *)
    destruct (uptrs m !! x) as [u|] eqn:Hx.
    2: { unfold_unique. by rewrite Hx in He. }
    rewrite (UniquePtr_dtor_eq _ _ _ Hx) in He. injection He as <-.
    assert (Owned {| uptrs := delete x (uptrs m); calls := calls m |}) as H1
      by (by apply Owned_delete, Owned_eta).
    case_decide as Hn; [done|].
    apply Owned_call; [done | done | | by eapply Owned_not_deleted].
    intros z uz. rewrite lookup_delete. case_decide; [done|].
    intros Huz. by_others HO.
Qed.
Lemma Owned_uinit : Owned (@uinit Deleter).
Proof.
  split_and!; simpl.
  - intros x y ux uy. by rewrite lookup_empty.
  - intros x u. by rewrite lookup_empty.
  - apply NoDup_nil_2.
  - by intros ?%elem_of_nil.
Qed.

Lemma urun_Owned p m m' :
  Owned m → urun Deleter_default p m = Some m' → Owned m'.
Proof.
  revert m. induction p as [|s p IH]; simpl; intros m HO H.
  - by injection H as <-.
  - destruct (hands_over s m) eqn:Hh; [|done].
    destruct (uexec Deleter_default s m) as [[[] m1]|] eqn:He; [|done].
    eapply IH; [|done]. by eapply uexec_Owned.
Qed.

(** Property X17. Unique ownership. Along every program of constructions, moves,
    move assignments, Reset, Release, Swap and destructions in which the
    caller hands over only pointers that are null or that no UniquePtr
    holds and no deleter has seen: no two UniquePtr objects hold the same
    non-null pointer, no pointer that a UniquePtr holds has been passed to
    a deleter, no pointer has been passed to a deleter twice, and no
    deleter has been called on the null pointer. *)
Theorem UniquePtr_deletes_at_most_once p m :
  urun Deleter_default p uinit = Some m →
  (∀ x y ux uy,
     uptrs m !! x = Some ux → uptrs m !! y = Some uy →
     GetFirst ux = GetFirst uy → GetFirst ux ≠ nullptr → x = y) ∧
  (∀ x u, uptrs m !! x = Some u → GetFirst u ∉ deleted m) ∧
  NoDup (deleted m) ∧
  nullptr ∉ deleted m.
Proof. intros H. eapply urun_Owned; [apply Owned_uinit | done]. Qed.

(** Property X18. Release returns the pointer and leaves the UniquePtr null, with
    its deleter, without calling it; the destructor then calls no deleter
    either, so the pointer is the caller's again. *)
Theorem UniquePtr_Release_gives_the_pointer_up m x u :
  uptrs m !! x = Some u →
  ∃ m1 m2,
    UniquePtr_Release x m = Some (GetFirst u, m1) ∧
    calls m1 = calls m ∧
    (∀ z, z ≠ x → uptrs m1 !! z = uptrs m !! z) ∧
    UniquePtr_Get x m1 = Some (nullptr, m1) ∧
    UniquePtr_bool x m1 = Some (false, m1) ∧
    UniquePtr_GetDeleter x m1 = Some (GetSecond u, m1) ∧
    UniquePtr_dtor x m1 = Some (tt, m2) ∧
    calls m2 = calls m ∧ uptrs m2 = delete x (uptrs m).
Proof.
  intros Hx. eexists _, _.
  split; [by apply UniquePtr_Release_eq|]. simpl.
  split; [done|]. split; [intros z ?; by rewrite lookup_insert_ne|].
  split; [by eval_unique|]. split; [by eval_unique|]. split; [by eval_unique|].
  split; [erewrite UniquePtr_dtor_eq by apply lookup_insert_eq; simpl; done|].
  simpl. split; [done|]. by rewrite delete_insert_eq.
Qed.

(** Property X19. Reset(ptr) stores the new pointer first and then calls the
    object's deleter on the old one, exactly when the old one is not null;
    the deleter and the other objects stay. With the pointer that the
    object already holds, the object ends up holding a pointer that has
    been deleted. *)
Theorem UniquePtr_Reset_stores_then_deletes m x u p :
  uptrs m !! x = Some u →
  ∃ m',
    UniquePtr_Reset x p m = Some (tt, m') ∧
    UniquePtr_Get x m' = Some (p, m') ∧
    UniquePtr_GetDeleter x m' = Some (GetSecond u, m') ∧
    (∀ z, z ≠ x → uptrs m' !! z = uptrs m !! z) ∧
    calls m' = (if decide (GetFirst u = nullptr) then []
                else [(GetSecond u, GetFirst u)]) ++ calls m ∧
    (p = GetFirst u → p ≠ nullptr → p ∈ deleted m' ∧ ¬ Owned m').
Proof.
  intros Hx. eexists. split; [by apply UniquePtr_Reset_eq|]. simpl.
  split; [by eval_unique|]. split; [by eval_unique|].
  split; [intros z ?; by rewrite lookup_insert_ne|].
  split; [by case_decide|].
  intros -> Hn. rewrite decide_False by done.
  assert (GetFirst u ∈ deleted
            {| uptrs := <[x := MkCompressedPair (GetFirst u) (GetSecond u)]> (uptrs m);
               calls := (GetSecond u, GetFirst u) :: calls m |}) as Hin
    by (unfold deleted; simpl; left).
  split; [done|]. intros (_ & I2 & _).
  eapply (I2 x); [simpl; apply lookup_insert_eq | done].
Qed.

(** Property X20. The destructor calls the object's deleter on the pointer exactly
    when the pointer is not null, once; after Reset() it calls nothing
    more: Reset() followed by the destructor is the destructor. *)
Theorem UniquePtr_destructor_deletes_once m x u :
  uptrs m !! x = Some u →
  ∃ m',
    UniquePtr_dtor x m = Some (tt, m') ∧
    uptrs m' = delete x (uptrs m) ∧
    calls m' = (if decide (GetFirst u = nullptr) then []
                else [(GetSecond u, GetFirst u)]) ++ calls m ∧
    ubind (UniquePtr_Reset x nullptr) (λ _, UniquePtr_dtor x) m = Some (tt, m').
Proof.
  intros Hx. eexists. split; [by apply UniquePtr_dtor_eq|]. simpl.
  split; [done|]. split; [by case_decide|].
  unfold ubind. rewrite (UniquePtr_Reset_eq _ _ _ _ Hx).
  erewrite UniquePtr_dtor_eq by apply lookup_insert_eq. simpl.
  by rewrite delete_insert_eq.
Qed.
(** Property X21. Move assignment from another object calls the target's own
    deleter on the pointer the target held (when not null), then gives the
    target the pointer and the deleter of the source and leaves the source
    null; move assignment of an object to itself changes nothing and calls
    no deleter. *)
Theorem UniquePtr_move_assignment_hands_over m :
  (∀ x u, uptrs m !! x = Some u → UniquePtr_move_assign x x m = Some (tt, m)) ∧
  (∀ x y ux uy,
     x ≠ y → uptrs m !! x = Some ux → uptrs m !! y = Some uy →
     ∃ m',
       UniquePtr_move_assign x y m = Some (tt, m') ∧
       uptrs m' !! x = Some uy ∧
       UniquePtr_Get y m' = Some (nullptr, m') ∧
       UniquePtr_GetDeleter y m' = Some (GetSecond uy, m') ∧
       (∀ z, z ≠ x → z ≠ y → uptrs m' !! z = uptrs m !! z) ∧
       calls m' = (if decide (GetFirst ux = nullptr) then []
                   else [(GetSecond ux, GetFirst ux)]) ++ calls m).
Proof.
  split; [intros x u; apply UniquePtr_move_assign_self|].
  intros x y ux uy Hne Hx Hy. eexists.
  split; [by apply UniquePtr_move_assign_eq|]. simpl.
  split; [by rewrite lookup_insert_eq|].
  split; [by eval_unique|]. split; [by eval_unique|].
  split; [intros z ? ?; by rewrite !lookup_insert_ne|].
  by case_decide.
Qed.

(** Property X22. The move constructor takes over the pointer and the deleter of the
    source and leaves the source null; no deleter is called, then or when
    the source is destroyed. *)
Theorem UniquePtr_move_constructor_hands_over m x y uy :
  uptrs m !! y = Some uy → uptrs m !! x = None →
  ∃ m1 m2,
    UniquePtr_move x y m = Some (tt, m1) ∧
    uptrs m1 !! x = Some uy ∧
    UniquePtr_Get y m1 = Some (nullptr, m1) ∧
    calls m1 = calls m ∧
    UniquePtr_dtor y m1 = Some (tt, m2) ∧
    calls m2 = calls m ∧
    uptrs m2 = <[x := uy]> (delete y (uptrs m)).
Proof.
  intros Hy Hx. assert (x ≠ y) by congruence. eexists _, _.
  split; [by apply UniquePtr_move_eq|]. simpl.
  split; [by rewrite lookup_insert_eq|].
  split; [by eval_unique|]. split; [done|].
  split.
  { erewrite UniquePtr_dtor_eq
      by (simpl; rewrite lookup_insert_ne by done; apply lookup_insert_eq).
    simpl. done. }
  simpl. split; [done|].
  rewrite delete_insert_ne by done. by rewrite delete_insert_eq.
Qed.

(** Property X23. Swap exchanges pointer and deleter of the two objects, calls no
    deleter and leaves the others alone; swapping again gives the machine
    back. *)
Theorem UniquePtr_Swap_exchanges m x y ux uy :
  uptrs m !! x = Some ux → uptrs m !! y = Some uy →
  ∃ m',
    UniquePtr_Swap x y m = Some (tt, m') ∧
    uptrs m' !! x = Some uy ∧ uptrs m' !! y = Some ux ∧
    (∀ z, z ≠ x → z ≠ y → uptrs m' !! z = uptrs m !! z) ∧
    calls m' = calls m ∧
    UniquePtr_Swap x y m' = Some (tt, m).
Proof.
  intros Hx Hy. eexists. split; [by apply UniquePtr_Swap_eq|]. simpl.
  assert (<[y := ux]> (<[x := uy]> (uptrs m)) !! x = Some uy) as Hx'.
  { rewrite lookup_insert. case_decide; [congruence|]. apply lookup_insert_eq. }
  assert (<[y := ux]> (<[x := uy]> (uptrs m)) !! y = Some ux) as Hy'
    by apply lookup_insert_eq.
  split; [done|]. split; [done|].
  split; [intros z ? ?; by rewrite !lookup_insert_ne|].
  split; [done|].
  erewrite UniquePtr_Swap_eq by (simpl; eassumption). simpl.
  rewrite <- (UMachine_eta m) at 3. do 3 f_equal.
  apply map_eq. intros k.
  repeat first [rewrite lookup_insert | rewrite lookup_delete].
  repeat (case_decide; simplify_eq/=); done.
Qed.
Lemma held_insert_self U C x u :
  GetFirst u ∈ held {| uptrs := <[x := u]> U; calls := C |}.
Proof. apply held_lookup. exists x, u. simpl. by rewrite lookup_insert_eq. Qed.

Lemma held_insert_other U C x u z uz :
  U !! z = Some uz → z ≠ x →
  GetFirst uz ∈ held {| uptrs := <[x := u]> U; calls := C |}.
Proof.
  intros Hz Hne. apply held_lookup. exists z, uz. simpl.
  by rewrite lookup_insert_ne.
Qed.

Lemma uexec_keeps_pointer s m m' q :
  uexec Deleter_default s m = Some (tt, m') →
  (∀ x, s ≠ URelease x) →
  q ≠ nullptr → q ∈ held m ∨ q ∈ deleted m →
  q ∈ held m' ∨ q ∈ deleted m'.
Proof.
  intros He Hs Hq [(z & uz & Hz & <-)%held_lookup|Hd].
  - destruct s as [x|x p|x p d|x y|x y|x p|x|x y|x]; simpl in *.
    + unfold_unique. destruct (uptrs m !! x) eqn:Hx; [done|].
      injection He as <-. left. apply (held_insert_other _ _ _ _ z uz); congruence.
    + unfold_unique. destruct (uptrs m !! x) eqn:Hx; [done|].
      injection He as <-. left. apply (held_insert_other _ _ _ _ z uz); congruence.
    + unfold_unique. destruct (uptrs m !! x) eqn:Hx; [done|].
      injection He as <-. left. apply (held_insert_other _ _ _ _ z uz); congruence.
    + destruct (uptrs m !! y) as [uy|] eqn:Hy.
      2: { unfold_unique. by rewrite Hy in He. }
      destruct (uptrs m !! x) as [ux|] eqn:Hx.
      { unfold UniquePtr_move, ubind in He.
        rewrite (UniquePtr_Release_eq _ _ _ Hy) in He. unfold_unique. simpl in He.
        rewrite lookup_insert_eq in He. simpl in He.
        rewrite lookup_insert in He.
        destruct (decide (y = x)); simpl in He; [done | by rewrite Hx in He]. }
      rewrite (UniquePtr_move_eq _ _ _ _ Hy Hx) in He. injection He as <-.
      left. destruct (decide (z = y)) as [->|Hzy].
      * assert (uz = uy) as -> by congruence. apply held_insert_self.
      * apply (held_insert_other _ _ _ _ z uz); [by rewrite lookup_insert_ne | congruence].
    + destruct (uptrs m !! y) as [uy|] eqn:Hy.
      2: { unfold_unique. by rewrite Hy in He. }
      destruct (decide (x = y)) as [->|Hne].
      { rewrite (UniquePtr_move_assign_self _ _ _ Hy) in He. injection He as <-.
        left. apply held_lookup. eauto. }
      destruct (uptrs m !! x) as [ux|] eqn:Hx.
      2: { unfold UniquePtr_move_assign, ubind in He.
           rewrite (UniquePtr_Release_eq _ _ _ Hy) in He. unfold_unique. simpl in He.
           rewrite lookup_insert_ne, Hx in He by done. done. }
      rewrite (UniquePtr_move_assign_eq _ _ _ _ _ Hne Hx Hy) in He.
      injection He as <-.
      destruct (decide (z = y)) as [->|Hzy].
      * assert (uz = uy) as -> by congruence. left. apply held_insert_self.
      * destruct (decide (z = x)) as [->|Hzx].
        -- assert (uz = ux) as -> by congruence. right.
           rewrite decide_False by done. unfold deleted. simpl. left.
        -- left. apply (held_insert_other _ _ _ _ z uz); [by rewrite lookup_insert_ne | done].
    + destruct (uptrs m !! x) as [ux|] eqn:Hx.
      2: { unfold_unique. by rewrite Hx in He. }
      rewrite (UniquePtr_Reset_eq _ _ _ _ Hx) in He. injection He as <-.
      destruct (decide (z = x)) as [->|Hzx].
      * assert (uz = ux) as -> by congruence. right.
        rewrite decide_False by done. unfold deleted. simpl. left.
      * left. by apply (held_insert_other _ _ _ _ z uz).
    + by destruct (Hs x).
    + destruct (uptrs m !! x) as [ux|] eqn:Hx.
      2: { unfold_unique. by rewrite Hx in He. }
      destruct (uptrs m !! y) as [uy|] eqn:Hy.
      2: { unfold_unique. rewrite Hx in He. simpl in He. by rewrite Hy in He. }
      rewrite (UniquePtr_Swap_eq _ _ _ _ _ Hx Hy) in He. injection He as <-.
      left. destruct (decide (z = x)) as [->|Hzx].
      * assert (uz = ux) as -> by congruence. apply held_insert_self.
      * destruct (decide (z = y)) as [->|Hzy].
        -- assert (uz = uy) as -> by congruence.
           apply held_lookup. exists x, uy. simpl.
           by rewrite lookup_insert_ne, lookup_insert_eq.
        -- apply (held_insert_other _ _ _ _ z uz); [by rewrite lookup_insert_ne | done].
    + destruct (uptrs m !! x) as [ux|] eqn:Hx.
      2: { unfold_unique. by rewrite Hx in He. }
      rewrite (UniquePtr_dtor_eq _ _ _ Hx) in He. injection He as <-.
      destruct (decide (z = x)) as [->|Hzx].
      * assert (uz = ux) as -> by congruence. right.
        rewrite decide_False by done. unfold deleted. simpl. left.
      * left. apply held_lookup. exists z, uz. simpl.
        by rewrite lookup_delete_ne.
  - right. revert Hd. unfold deleted.
    destruct s as [x|x p|x p d|x y|x y|x p|x|x y|x]; simpl in *;
      unfold_unique; repeat (case_match; simplify_eq/=); try done;
      intros; by right.
Qed.

Lemma urun_keeps_pointer p m m' q :
  urun Deleter_default p m = Some m' → forallb no_Release p = true →
  q ≠ nullptr → q ∈ held m ∨ q ∈ deleted m →
  q ∈ held m' ∨ q ∈ deleted m'.
Proof.
  revert m. induction p as [|s p IH]; simpl; intros m H Hp Hq Hin.
  - by injection H as <-.
  - apply andb_true_iff in Hp as [Hs Hp].
    destruct (hands_over s m); [|done].
    destruct (uexec Deleter_default s m) as [[[] m1]|] eqn:He; [|done].
    apply (IH m1); try done.
    eapply uexec_keeps_pointer; try done.
    intros x ->. done.
Qed.

(** Property X24. No leak. A pointer that a UniquePtr holds at some moment of a run
    is, at every later moment before which Release has not been called,
    held by a UniquePtr or has been passed to a deleter; so when no
    UniquePtr is left, every pointer that one has held has been deleted,
    and none twice. *)
Theorem UniquePtr_never_drops_a_pointer pre post m1 m2 q :
  urun Deleter_default pre uinit = Some m1 →
  urun Deleter_default post m1 = Some m2 →
  forallb no_Release post = true →
  q ≠ nullptr → q ∈ held m1 →
  (q ∈ held m2 ∨ q ∈ deleted m2) ∧
  (uptrs m2 = ∅ → q ∈ deleted m2 ∧ NoDup (deleted m2)).
Proof.
  intros Hpre Hpost Hp Hq Hin.
  pose proof (urun_keeps_pointer _ _ _ q Hpost Hp Hq (or_introl Hin)) as Hk.
  split; [done|]. intros He.
  assert (Owned m2) as (_ & _ & Hnd & _).
  { eapply urun_Owned; [|done]. eapply urun_Owned; [apply Owned_uinit | done]. }
  split; [|done].
  destruct Hk as [(z & uz & Hz & _)%held_lookup|?]; [|done].
  by rewrite He, lookup_empty in Hz.
Qed.
End UniquePtr_proofs.

Lemma UniquePtr_deletes_at_most_once_witness :
  ∃ m,
    urun 1%positive
      [UFromRaw 1 (ObjPtr 5); UWithDeleter 2 (ObjPtr 6) 2%positive; UMove 3 1;
       UMoveAssign 2 3; URelease 2; UReset 1 (ObjPtr 5); USwap 1 3;
       UDestroy 1; UDestroy 2; UDestroy 3] uinit = Some m ∧
    NoDup (deleted m).
Proof.
  eexists. split; [vm_compute; reflexivity|].
  refine (proj1 (proj2 (proj2 (UniquePtr_deletes_at_most_once 1%positive
    [UFromRaw 1 (ObjPtr 5); UWithDeleter 2 (ObjPtr 6) 2%positive; UMove 3 1;
     UMoveAssign 2 3; URelease 2; UReset 1 (ObjPtr 5); USwap 1 3;
     UDestroy 1; UDestroy 2; UDestroy 3] _ _)))).
  vm_compute. reflexivity.
Defined.

Lemma UniquePtr_Release_gives_the_pointer_up_witness :
  ∃ m1, UniquePtr_Release 1 unique_example = Some (ObjPtr 5, m1) ∧
        calls m1 = [] ∧
        UniquePtr_Get 1 m1 = Some (nullptr, m1).
Proof.
  destruct (UniquePtr_Release_gives_the_pointer_up unique_example 1
              (MkCompressedPair (ObjPtr 5) 1%positive) eq_refl)
    as (m1 & m2 & H1 & H2 & _ & H3 & _).
  exists m1. split; [exact H1|]. split; [exact H2 | exact H3].
Defined.

Lemma UniquePtr_Reset_stores_then_deletes_witness :
  ∃ m', UniquePtr_Reset 1 (ObjPtr 7) unique_example = Some (tt, m') ∧
        calls m' = [(1%positive, ObjPtr 5)].
Proof.
  destruct (UniquePtr_Reset_stores_then_deletes unique_example 1
              (MkCompressedPair (ObjPtr 5) 1%positive) (ObjPtr 7) eq_refl)
    as (m' & H1 & _ & _ & _ & H2 & _).
  exists m'. split; [exact H1 | exact H2].
Defined.

Lemma UniquePtr_destructor_deletes_once_witness :
  ∃ m', UniquePtr_dtor 1 unique_example = Some (tt, m') ∧
        calls m' = [(1%positive, ObjPtr 5)].
Proof.
  destruct (UniquePtr_destructor_deletes_once unique_example 1
              (MkCompressedPair (ObjPtr 5) 1%positive) eq_refl)
    as (m' & H1 & _ & H2 & _).
  exists m'. split; [exact H1 | exact H2].
Defined.

Lemma UniquePtr_move_assignment_hands_over_witness :
  UniquePtr_move_assign 1 1 unique_example = Some (tt, unique_example) ∧
  ∃ m', UniquePtr_move_assign 2 1 unique_example = Some (tt, m') ∧
        uptrs m' !! 2%positive = Some (MkCompressedPair (ObjPtr 5) 1%positive) ∧
        UniquePtr_Get 1 m' = Some (nullptr, m').
Proof.
  destruct (UniquePtr_move_assignment_hands_over unique_example) as [Hself Hmove].
  split; [exact (Hself 1%positive _ eq_refl)|].
  destruct (Hmove 2%positive 1%positive _ _ ltac:(discriminate) eq_refl eq_refl)
    as (m' & H1 & H2 & H3 & _).
  exists m'. split; [exact H1|]. split; [exact H2 | exact H3].
Defined.

Lemma UniquePtr_move_constructor_hands_over_witness :
  ∃ m1, UniquePtr_move 3 1 unique_example = Some (tt, m1) ∧
        uptrs m1 !! 3%positive = Some (MkCompressedPair (ObjPtr 5) 1%positive) ∧
        UniquePtr_Get 1 m1 = Some (nullptr, m1).
Proof.
  destruct (UniquePtr_move_constructor_hands_over unique_example 3 1
              (MkCompressedPair (ObjPtr 5) 1%positive) eq_refl eq_refl)
    as (m1 & m2 & H1 & H2 & H3 & _).
  exists m1. split; [exact H1|]. split; [exact H2 | exact H3].
Defined.

Lemma UniquePtr_Swap_exchanges_witness :
  ∃ m', UniquePtr_Swap 1 2 unique_example = Some (tt, m') ∧
        uptrs m' !! 2%positive = Some (MkCompressedPair (ObjPtr 5) 1%positive) ∧
        UniquePtr_Swap 1 2 m' = Some (tt, unique_example).
Proof.
  destruct (UniquePtr_Swap_exchanges unique_example 1 2
              (MkCompressedPair (ObjPtr 5) 1%positive)
              (MkCompressedPair nullptr 2%positive) eq_refl eq_refl)
    as (m' & H1 & _ & H2 & _ & _ & H3).
  exists m'. split; [exact H1|]. split; [exact H2 | exact H3].
Defined.

Lemma UniquePtr_never_drops_a_pointer_witness :
  ∃ m2,
    urun 1%positive [UFromRaw 1 (ObjPtr 5); UDefault 2; UMoveAssign 2 1;
                     UReset 1 (ObjPtr 6); UDestroy 1; UDestroy 2] uinit = Some m2 ∧
    ObjPtr 5 ∈ deleted m2.
Proof.
  eexists. split; [vm_compute; reflexivity|].
  refine (proj1 (proj2 (UniquePtr_never_drops_a_pointer 1%positive
    [UFromRaw 1 (ObjPtr 5); UDefault 2]
    [UMoveAssign 2 1; UReset 1 (ObjPtr 6); UDestroy 1; UDestroy 2]
    {| uptrs := <[1%positive := MkCompressedPair (ObjPtr 5) 1%positive]>
                  (<[2%positive := MkCompressedPair nullptr 1%positive]> ∅);
       calls := [] |} _ (ObjPtr 5) _ _ _ _ _) _)).
  - vm_compute. reflexivity.
  - vm_compute. reflexivity.
  - vm_compute. reflexivity.
  - discriminate.
  - vm_compute. repeat constructor.
  - vm_compute. reflexivity.
Defined.
